(** * andor: tokenizer, parser and evaluator of boolean filter expressions

    A shallow embedding of [source/tokenizer/tokenizer.ts],
    [source/parser/parser.ts], [source/parser/error.ts],
    [source/ast/factory.ts], [source/ast/interface.ts] and
    [source/evaluator/evaluator.ts], followed by the properties the
    specification states about them.

    Conventions of the embedding:
    - a JavaScript string is the list of its UTF-16 code units;
    - [number]s that count characters, lines and columns are [nat];
    - a class with private mutable fields is a record of those fields and a
      method is a computation in a state-and-exception monad over it;
    - a [while] loop is a [Fixpoint] on a fuel argument; running out of fuel is
      a separate outcome, and the theorems show it never happens. *)

From Stdlib Require Import String Ascii.
From Stdlib Require Import List NArith Arith Bool Lia.
Import ListNotations.
Open Scope list_scope.

(* ===================================================================== *)
(** ** JavaScript strings *)
(* ===================================================================== *)

(** A UTF-16 code unit. *)
Definition char := N.

Definition jsstring := list char.

(** The string written with the given ASCII literal. *)
Definition js (s : string) : jsstring :=
  map N_of_ascii (list_ascii_of_string s).

(** [a === b] on two strings: same length, same code units. *)
Fixpoint strictEquals (a b : jsstring) : bool :=
  match a, b with
  | [], [] => true
  | x :: a', y :: b' => N.eqb x y && strictEquals a' b'
  | _, _ => false
  end.

(** [c === k] where [c : string | null] is one character read from the input
    and [k] is a one-character literal. *)
Definition charIs (c : option char) (k : char) : bool :=
  match c with
  | Some x => N.eqb x k
  | None => false
  end.

Definition SPACE : char := 32%N.
Definition TAB : char := 9%N.
Definition LF : char := 10%N.
Definition CR : char := 13%N.
Definition LPAREN : char := 40%N.
Definition RPAREN : char := 41%N.
Definition DQUOTE : char := 34%N.

(** One code unit of [String.prototype.toLocaleLowerCase]: [A]..[Z] go to
    [a]..[z].  Code units outside ASCII are left as they are: the builtin's
    mapping of those depends on the host locale, but it never yields one of
    the letters a, d, n, o, r, t, which is all [matchKeyword] looks for. *)
Definition toLowerCaseUnit (c : char) : char :=
  if (65 <=? c)%N && (c <=? 90)%N then (c + 32)%N else c.

Definition toLocaleLowerCase (s : jsstring) : jsstring :=
  map toLowerCaseUnit s.

(* ===================================================================== *)
(** ** Outcomes of a call, and the monad of a method *)
(* ===================================================================== *)

Inductive Exception : Type :=
| TokenizerError (message : jsstring) (position line column : nat)
| ParseError (message : jsstring) (position line column : nat)
             (expected actual : jsstring)
| TypeError.

(** How a call ends: it returns, it throws, or the model ran out of fuel. *)
Inductive completion (A : Type) : Type :=
| Normal (a : A)
| Throw (e : Exception)
| OutOfFuel.
Arguments Normal {A} a.
Arguments Throw {A} e.
Arguments OutOfFuel {A}.

Section Monad.
Context {S : Type}.

(** A method of an object whose fields are [S]. The fields are kept when
    the method throws, as they are in the object. *)
Definition M (A : Type) : Type := S -> completion A * S.

Definition ret {A} (a : A) : M A := fun s => (Normal a, s).

Definition bind {A B} (m : M A) (k : A -> M B) : M B :=
  fun s =>
    match m s with
    | (Normal a, s') => k a s'
    | (Throw e, s') => (Throw e, s')
    | (OutOfFuel, s') => (OutOfFuel, s')
    end.

Definition throw {A} (e : Exception) : M A := fun s => (Throw e, s).
Definition outOfFuel {A} : M A := fun s => (OutOfFuel, s).
Definition get : M S := fun s => (Normal s, s).
Definition modify (f : S -> S) : M unit := fun s => (Normal tt, f s).
End Monad.
Arguments M : clear implicits.

Declare Scope method_scope.
Delimit Scope method_scope with method.
Notation "x <- c1 ;; c2" := (bind c1 (fun x => c2))
  (at level 61, c1 at next level, right associativity) : method_scope.
Notation "c1 ;; c2" := (bind c1 (fun _ => c2))
  (at level 61, right associativity) : method_scope.
Open Scope method_scope.

(* ===================================================================== *)
(** ** Tokens *)
(* ===================================================================== *)

Inductive TokenType : Type :=
| IDENTIFIER | AND | OR | NOT | LEFT_PAREN | RIGHT_PAREN | EOF.

Definition TokenType_eqb (a b : TokenType) : bool :=
  match a, b with
  | IDENTIFIER, IDENTIFIER | AND, AND | OR, OR | NOT, NOT
  | LEFT_PAREN, LEFT_PAREN | RIGHT_PAREN, RIGHT_PAREN | EOF, EOF => true
  | _, _ => false
  end.

(** The string a [TokenType] is at run time. *)
Definition TokenType_string (t : TokenType) : jsstring :=
  match t with
  | IDENTIFIER => js "IDENTIFIER"
  | AND => js "AND"
  | OR => js "OR"
  | NOT => js "NOT"
  | LEFT_PAREN => js "LEFT_PAREN"
  | RIGHT_PAREN => js "RIGHT_PAREN"
  | EOF => js "EOF"
  end.

Module Token.
Record t : Type := mk {
  type : TokenType;
  value : jsstring;
  position : nat;
  line : nat;
  column : nat
}.
End Token.

(* ===================================================================== *)
(** ** source/tokenizer/helpers.ts *)
(* ===================================================================== *)

Definition isWhitespace (c : option char) : bool :=
  charIs c SPACE || charIs c TAB || charIs c LF || charIs c CR.

(* ===================================================================== *)
(** ** source/tokenizer/tokenizer.ts *)
(* ===================================================================== *)

Module Tokenizer.

(** The private fields of [class Tokenizer]. *)
Record state : Type := mk {
  input : jsstring;
  position : nat;
  line : nat;
  column : nat
}.

(** [new Tokenizer(input)] *)
Definition new (input : jsstring) : state :=
  {| input := input; position := 0; line := 1; column := 1 |}.

(** [#peek()] *)
Definition peek (t : state) : option char :=
  if length (input t) <=? position t then None
  else nth_error (input t) (position t).

(** [#advance()] *)
Definition advance (t : state) : state :=
  if position t <? length (input t) then
    {| input := input t; position := position t + 1;
       line := line t; column := column t + 1 |}
  else t.

(** [this.#line += 1; this.#column = 1] *)
Definition newLine (t : state) : state :=
  {| input := input t; position := position t;
     line := line t + 1; column := 1 |}.

(** [#createToken(type, value)] *)
Definition createToken (type : TokenType) (value : jsstring) (t : state)
  : Token.t :=
  {| Token.type := type; Token.value := value;
     Token.position := position t; Token.line := line t;
     Token.column := column t |}.

(** The loop of [#skipWhitespace()]. *)
Fixpoint skipWhitespace_loop (fuel : nat) : M state unit :=
  match fuel with
  | O => outOfFuel
  | S fuel' =>
    t <- get ;;
    if position t <? length (input t) then
      let char := peek t in
      if charIs char SPACE || charIs char TAB then
        modify advance ;;
        skipWhitespace_loop fuel'
      else if charIs char LF then
        modify advance ;;
        modify newLine ;;
        skipWhitespace_loop fuel'
      else if charIs char CR then
        modify advance ;;
        t' <- get ;;
        (if charIs (peek t') LF then modify advance else ret tt) ;;
        modify newLine ;;
        skipWhitespace_loop fuel'
      else ret tt
    else ret tt
  end.

(** [#skipWhitespace()]: every iteration that does not leave the loop
    advances the cursor, so the characters left bound the iterations. *)
Definition skipWhitespace : M state unit :=
  t <- get ;;
  skipWhitespace_loop (S (length (input t) - position t)).

(** The text [`${c}`] of a character that may be [null]. *)
Definition charText (c : option char) : jsstring :=
  match c with
  | Some x => [x]
  | None => js "null"
  end.

(** The loop of [#readIdentifier()], [value] being the text read so far. *)
Fixpoint readIdentifier_loop (fuel : nat) (value : jsstring)
  : M state jsstring :=
  match fuel with
  | O => outOfFuel
  | S fuel' =>
    t <- get ;;
    if position t <? length (input t) then
      let char := peek t in
      if isWhitespace char || charIs char LPAREN || charIs char RPAREN then
        ret value
      else
        let value := value ++ charText char in
        modify advance ;;
        readIdentifier_loop fuel' value
    else ret value
  end.

(** [#readIdentifier()] *)
Definition readIdentifier : M state jsstring :=
  t <- get ;;
  readIdentifier_loop (S (length (input t) - position t)) [].

(** [#matchKeyword(ident)] *)
Definition matchKeyword (ident : jsstring) : option TokenType :=
  let lower := toLocaleLowerCase ident in
  if strictEquals lower (js "and") then Some AND
  else if strictEquals lower (js "or") then Some OR
  else if strictEquals lower (js "not") then Some NOT
  else None.

(** [#readIdentifierOrKeyword()] *)
Definition readIdentifierOrKeyword : M state Token.t :=
  start <- get ;;
  let startPosition := position start in
  let startLine := line start in
  let startColumn := column start in
  value <- readIdentifier ;;
  t <- get ;;
  if length value =? 0 then
    throw (TokenizerError
             (js "Unexpected character '" ++ charText (peek t) ++ js "'")
             (position t) (line t) (column t))
  else
    let keywordType := matchKeyword value in
    match keywordType with
    | None =>
      ret {| Token.type := IDENTIFIER; Token.value := value;
             Token.position := startPosition; Token.line := startLine;
             Token.column := startColumn |}
    | Some keywordType =>
      ret {| Token.type := keywordType; Token.value := value;
             Token.position := startPosition; Token.line := startLine;
             Token.column := startColumn |}
    end.

(** [#nextToken()] *)
Definition nextToken : M state Token.t :=
  skipWhitespace ;;
  t <- get ;;
  if length (input t) <=? position t then
    ret (createToken EOF [] t)
  else
    let char := peek t in
    if charIs char LPAREN then
      let token := createToken LEFT_PAREN [LPAREN] t in
      modify advance ;;
      ret token
    else if charIs char RPAREN then
      let token := createToken RIGHT_PAREN [RPAREN] t in
      modify advance ;;
      ret token
    else readIdentifierOrKeyword.

(** The [do ... while (token.type !== "EOF")] loop of [tokenize()]. *)
Fixpoint tokenize_loop (fuel : nat) (tokens : list Token.t)
  : M state (list Token.t) :=
  match fuel with
  | O => outOfFuel
  | S fuel' =>
    token <- nextToken ;;
    let tokens := tokens ++ [token] in
    if negb (TokenType_eqb (Token.type token) EOF) then
      tokenize_loop fuel' tokens
    else ret tokens
  end.

(** [tokenize()]: every token but the last consumes a character. *)
Definition tokenize : M state (list Token.t) :=
  t <- get ;;
  tokenize_loop (S (length (input t) - position t)) [].

End Tokenizer.

(** [export const tokenize = (input) => new Tokenizer(input).tokenize()] *)
Definition tokenize (input : jsstring) : completion (list Token.t) :=
  fst (Tokenizer.tokenize (Tokenizer.new input)).

(* ===================================================================== *)
(** ** source/ast/interface.ts and source/ast/factory.ts *)
(* ===================================================================== *)

(** The union [Expression]; the [type] tag of a node is its constructor. *)
Inductive Expression : Type :=
| Identifier (pattern : jsstring)
| And (left right : Expression)
| Or (left right : Expression)
| Not (expr : Expression).

Module Factory.
Definition identifier (pattern : jsstring) : Expression :=
  Identifier pattern.
Definition and (left right : Expression) : Expression := And left right.
Definition or (left right : Expression) : Expression := Or left right.
Definition not (expr : Expression) : Expression := Not expr.
End Factory.

(* ===================================================================== *)
(** ** source/parser/error.ts *)
(* ===================================================================== *)

(** [ParseError.fromToken(message, token, expected)], as the exception that
    leaves the call: the [ParseError] it builds, or the [TypeError] of reading
    [token.position] when [token] is [undefined]. *)
Definition fromToken (message : jsstring) (token : option Token.t)
  (expected : jsstring) : Exception :=
  match token with
  | None => TypeError
  | Some token =>
    ParseError message (Token.position token) (Token.line token)
      (Token.column token) expected
      (match Token.value token with
       | [] => TokenType_string (Token.type token)
       | _ :: _ => Token.value token
       end)
  end.

Definition message (e : Exception) : jsstring :=
  match e with
  | TokenizerError m _ _ _ => m
  | ParseError m _ _ _ _ _ => m
  | TypeError => []
  end.

(* ===================================================================== *)
(** ** source/parser/parser.ts *)
(* ===================================================================== *)

Module Parser.

(** The private fields of [class Parser]. *)
Record state : Type := mk {
  tokens : list Token.t;
  current : nat
}.

(** [new Parser(tokens)] *)
Definition new (tokens : list Token.t) : state :=
  {| tokens := tokens; current := 0 |}.

(** [#peek()]: [this.#tokens[this.#current]], which is [undefined] out of
    bounds; the [!] of the source is erased at run time. *)
Definition peek (p : state) : option Token.t :=
  nth_error (tokens p) (current p).

(** Reading a property of a value that may be [undefined]. *)
Definition defined {A} (v : option A) : M state A :=
  match v with
  | Some a => ret a
  | None => throw TypeError
  end.

(** [#advance()] *)
Definition advance (p : state) : state :=
  if current p <? length (tokens p) then
    {| tokens := tokens p; current := current p + 1 |}
  else p.

(** [#hasReachedEOF()] *)
Definition hasReachedEOF : M state bool :=
  p <- get ;;
  token <- defined (peek p) ;;
  ret (TokenType_eqb (Token.type token) EOF).

(** [#check(type)] *)
Definition check (type : TokenType) : M state bool :=
  atEOF <- hasReachedEOF ;;
  if atEOF then ret false
  else
    p <- get ;;
    token <- defined (peek p) ;;
    ret (TokenType_eqb (Token.type token) type).

(** [#matchesAny(...types)] *)
Fixpoint matchesAny (types : list TokenType) : M state bool :=
  match types with
  | [] => ret false
  | type :: types' =>
    found <- check type ;;
    if found then
      modify advance ;;
      ret true
    else matchesAny types'
  end.

(** [#consume(type, message)] *)
Definition consume (type : TokenType) (message : jsstring)
  : M state (option Token.t) :=
  found <- check type ;;
  if found then
    p <- get ;;
    let token := peek p in
    modify advance ;;
    ret token
  else
    p <- get ;;
    throw (fromToken message (peek p) (TokenType_string type)).

(** The grammar methods. Each call spends one unit of fuel. *)
Fixpoint expression (fuel : nat) : M state Expression :=
  match fuel with
  | O => outOfFuel
  | S fuel' => orExpression fuel'
  end

with orExpression (fuel : nat) : M state Expression :=
  match fuel with
  | O => outOfFuel
  | S fuel' =>
    left <- andExpression fuel' ;;
    orExpression_loop fuel' left
  end

(** [while (this.#matchesAny("OR")) { ... }] *)
with orExpression_loop (fuel : nat) (left : Expression)
  : M state Expression :=
  match fuel with
  | O => outOfFuel
  | S fuel' =>
    continue <- matchesAny [OR] ;;
    if continue then
      right <- andExpression fuel' ;;
      orExpression_loop fuel' (Factory.or left right)
    else ret left
  end

with andExpression (fuel : nat) : M state Expression :=
  match fuel with
  | O => outOfFuel
  | S fuel' =>
    left <- notExpression fuel' ;;
    andExpression_loop fuel' left
  end

(** [while (this.#matchesAny("AND")) { ... }] *)
with andExpression_loop (fuel : nat) (left : Expression)
  : M state Expression :=
  match fuel with
  | O => outOfFuel
  | S fuel' =>
    continue <- matchesAny [AND] ;;
    if continue then
      right <- notExpression fuel' ;;
      andExpression_loop fuel' (Factory.and left right)
    else ret left
  end

with notExpression (fuel : nat) : M state Expression :=
  match fuel with
  | O => outOfFuel
  | S fuel' =>
    negated <- matchesAny [NOT] ;;
    if negated then
      expression <- notExpression fuel' ;;
      ret (Factory.not expression)
    else primary fuel'
  end

with primary (fuel : nat) : M state Expression :=
  match fuel with
  | O => outOfFuel
  | S fuel' =>
    opened <- matchesAny [LEFT_PAREN] ;;
    if opened then
      expression <- expression fuel' ;;
      consume RIGHT_PAREN (js "Expected ')' after expression") ;;
      ret expression
    else
      isIdentifier <- check IDENTIFIER ;;
      if isIdentifier then
        token <- consume IDENTIFIER (js "Expecte identifier") ;;
        token <- defined token ;;
        ret (Factory.identifier (Token.value token))
      else
        p <- get ;;
        let token := peek p in
        tok <- defined token ;;
        match Token.type tok with
        | EOF =>
          throw (fromToken
                   (js "Unexpected end of input: expected identifier or "
                      ++ [DQUOTE] ++ js "(" ++ [DQUOTE])
                   token
                   (js "identifier or " ++ [DQUOTE] ++ js "(" ++ [DQUOTE]))
        | RIGHT_PAREN =>
          throw (fromToken
                   (js "Unexpected ')': missing opening parenthesis or expression")
                   token
                   (js "identifier or " ++ [DQUOTE] ++ js "(" ++ [DQUOTE]))
        | AND | OR =>
          throw (fromToken
                   (js "Unexpected '" ++ Token.value tok
                      ++ js "': missing left operand")
                   token
                   (js "identifier or " ++ [DQUOTE] ++ js "(" ++ [DQUOTE]))
        | _ =>
          throw (fromToken
                   (js "Unexpected token '" ++ Token.value tok ++ js "'")
                   token
                   (js "identifier or " ++ [DQUOTE] ++ js "(" ++ [DQUOTE]))
        end
  end.

(** Fuel that the grammar methods cannot exhaust on [p]: each of the
    remaining tokens is consumed at most once, and between two tokens at
    most one chain [expression], [orExpression], ..., [primary] is
    entered. *)
Definition fuelFor (p : state) : nat :=
  8 * (length (tokens p) - current p) + 8.

(** [parse()] *)
Definition parse : M state Expression :=
  atEOF <- hasReachedEOF ;;
  if atEOF then
    p <- get ;;
    throw (fromToken (js "Unexpected end of input: expected expression")
             (peek p) (js "expression"))
  else
    p <- get ;;
    expression <- expression (fuelFor p) ;;
    atEOF <- hasReachedEOF ;;
    if negb atEOF then
      p <- get ;;
      let token := peek p in
      tok <- defined token ;;
      throw (fromToken
               (js "Unexpected token '" ++ Token.value tok ++ js "'")
               token (js "end of expression"))
    else ret expression.

End Parser.

(** [export function parse(input)] *)
Definition parse (input : jsstring) : completion Expression :=
  match tokenize input with
  | Normal tokens => fst (Parser.parse (Parser.new tokens))
  | Throw e => Throw e
  | OutOfFuel => OutOfFuel
  end.

(* ===================================================================== *)
(** ** source/evaluator/evaluator.ts *)
(* ===================================================================== *)

Module ExpressionEvaluator.

(** An instance of [class ExpressionEvaluator]: its one private field. *)
Record t : Type := mk {
  expression : Expression
}.

(** [new ExpressionEvaluator(expression)] *)
Definition new (expression : Expression) : t :=
  {| expression := expression |}.

(** [#evaluateIdentifier(expr, entities)], [expr.pattern] being [pattern] *)
Definition evaluateIdentifier (pattern : jsstring)
  (entities : list jsstring) : bool :=
  existsb (fun entity => strictEquals pattern entity) entities.

(** [#evaluateAnd], [#evaluateOr] and [#evaluateNot], over the [#eval] they
    call back. [a && b] evaluates [b] only when [a] is [true], [a || b]
    only when [a] is [false]. *)
Definition evaluateAnd (eval : Expression -> list jsstring -> bool)
  (left right : Expression) (entities : list jsstring) : bool :=
  if eval left entities then eval right entities else false.

Definition evaluateOr (eval : Expression -> list jsstring -> bool)
  (left right : Expression) (entities : list jsstring) : bool :=
  if eval left entities then true else eval right entities.

Definition evaluateNot (eval : Expression -> list jsstring -> bool)
  (expr : Expression) (entities : list jsstring) : bool :=
  negb (eval expr entities).

(** [#eval(expression, entities)] *)
Fixpoint eval (expression : Expression) (entities : list jsstring) : bool :=
  match expression with
  | Identifier pattern => evaluateIdentifier pattern entities
  | And l r => evaluateAnd eval l r entities
  | Or l r => evaluateOr eval l r entities
  | Not expr => evaluateNot eval expr entities
  end.

(** The arrow function stored in the [evaluate] property of an instance. *)
Definition evaluate (this : t) (entities : list jsstring) : bool :=
  eval (expression this) entities.

End ExpressionEvaluator.

(** [export const createEvaluator = (expression): ExpressionEvaluator => ...] *)
Definition createEvaluator (expression : Expression) : ExpressionEvaluator.t :=
  ExpressionEvaluator.new expression.

(** [export const evaluate = (expression, entities) => ...] *)
Definition evaluate (expression : Expression) (entities : list jsstring)
  : bool :=
  ExpressionEvaluator.evaluate (ExpressionEvaluator.new expression) entities.

(* ===================================================================== *)
(** ** Observations used in the statements *)
(* ===================================================================== *)

(** The message of the [ParseError] a call ended with, if it did. *)
Definition parseErrorMessage {A} (r : completion A) : option jsstring :=
  match r with
  | Throw (ParseError m _ _ _ _ _) => Some m
  | _ => None
  end.

(** The type and the value of each token, without the positions. *)
Definition typesAndValues (ts : list Token.t)
  : list (TokenType * jsstring) :=
  map (fun token => (Token.type token, Token.value token)) ts.

Definition isEOF (token : Token.t) : bool :=
  TokenType_eqb (Token.type token) EOF.

(** The evaluation the specification describes: both operands are always
    evaluated, then combined. *)
Fixpoint evaluate_both_sides (e : Expression) (subjects : list jsstring)
  : bool :=
  match e with
  | Identifier pattern =>
    if in_dec (list_eq_dec N.eq_dec) pattern subjects then true else false
  | And l r =>
    let a := evaluate_both_sides l subjects in
    let b := evaluate_both_sides r subjects in
    andb a b
  | Or l r =>
    let a := evaluate_both_sides l subjects in
    let b := evaluate_both_sides r subjects in
    orb a b
  | Not e' => negb (evaluate_both_sides e' subjects)
  end.

(* ===================================================================== *)
(** ** The tokenizer as a function of the text to read

    These definitions are not in the source: they describe what the
    tokenizer computes, and the lemmas below relate the tokenizer to them. *)
(* ===================================================================== *)

Module Text.
Import Tokenizer.

(** The input from the cursor on. *)
Definition remaining (t : state) : jsstring :=
  skipn (position t) (input t).

(** [t] moved [n] characters to the right on the same line. *)
Definition moved (n : nat) (t : state) : state :=
  {| input := input t; position := position t + n;
     line := line t; column := column t + n |}.

(** The characters [#skipWhitespace] skips. *)
Definition whitespace (c : char) : bool := isWhitespace (Some c).

(** The characters that end an identifier run. *)
Definition isDelimiter (c : char) : bool :=
  isWhitespace (Some c) || charIs (Some c) LPAREN || charIs (Some c) RPAREN.

Arguments isDelimiter : simpl never.
Arguments whitespace : simpl never.

Definition allWhitespace (s : jsstring) : bool := forallb whitespace s.

(** [run] is made of characters that are neither white space nor
    parentheses. *)
Definition isRun (run : jsstring) : bool :=
  forallb (fun c => negb (isDelimiter c)) run.

(** [rest] cannot continue an identifier: it is empty or starts with a
    delimiter. *)
Definition endsRun (rest : jsstring) : bool :=
  match rest with
  | [] => true
  | c :: _ => isDelimiter c
  end.

(** [pre] cannot be continued by an identifier character: it is empty or
    ends with a delimiter. *)
Definition closed (pre : jsstring) : bool := endsRun (rev pre).

(** The text without the white space at its start. *)
Fixpoint dropWhitespace (s : jsstring) : jsstring :=
  match s with
  | [] => []
  | c :: s' => if whitespace c then dropWhitespace s' else s
  end.

(** The identifier run at the start of the text, and what follows it. *)
Fixpoint takeRun (s : jsstring) : jsstring * jsstring :=
  match s with
  | [] => ([], [])
  | c :: s' =>
    if isDelimiter c then ([], s)
    else let (run, rest) := takeRun s' in (c :: run, rest)
  end.

(** The type [#readIdentifierOrKeyword] gives to a run. *)
Definition keywordOrIdentifier (value : jsstring) : TokenType :=
  match Tokenizer.matchKeyword value with
  | Some keywordType => keywordType
  | None => IDENTIFIER
  end.

(** The type and value of the next token of the text, and the text after
    it. *)
Definition scanToken (s : jsstring)
  : (TokenType * jsstring) * jsstring :=
  match dropWhitespace s with
  | [] => ((EOF, []), [])
  | c :: s' =>
    if N.eqb c LPAREN then ((LEFT_PAREN, [LPAREN]), s')
    else if N.eqb c RPAREN then ((RIGHT_PAREN, [RPAREN]), s')
    else let (run, rest) := takeRun (c :: s') in
         ((keywordOrIdentifier run, run), rest)
  end.

(** The types and values of the tokens of the text, up to the first
    [EOF]; [n] bounds their number. *)
Fixpoint scan (n : nat) (s : jsstring) : list (TokenType * jsstring) :=
  match n with
  | O => []
  | S n' =>
    let (token, s') := scanToken s in
    token :: (if TokenType_eqb (fst token) EOF then [] else scan n' s')
  end.

End Text.

(* ===================================================================== *)
(** ** Token streams and the parser's cursor *)
(* ===================================================================== *)

Module Stream.
Import Parser.

(** What [tokenize] returns: tokens that are not [EOF], then one [EOF]. *)
Definition isTokenStream (ts : list Token.t) : Prop :=
  exists body eof,
    ts = body ++ [eof] /\
    Forall (fun token => Token.type token <> EOF) body /\
    Token.type eof = EOF.

(** The cursor is on a token of a token stream. *)
Definition onStream (p : state) : Prop :=
  isTokenStream (tokens p) /\ current p < length (tokens p).

(** The tokens between the cursor and the [EOF] token. *)
Definition ahead (p : state) : nat := length (tokens p) - S (current p).

(** What a method may do to a parser whose cursor is on the stream: keep
    the tokens, move the cursor forward but not off the stream, and end
    without a [TypeError]; and without running out of fuel when [enough]. *)
Definition Safe {A} (p : state) (enough : Prop)
  (result : completion A * state) : Prop :=
  tokens (snd result) = tokens p /\
  current p <= current (snd result) /\
  current (snd result) < length (tokens p) /\
  fst result <> Throw TypeError /\
  (enough -> fst result <> OutOfFuel).

End Stream.

(* ===================================================================== *)
(** ** Calling what the evaluator module exports *)
(* ===================================================================== *)

(** The two kinds of value the evaluator module hands to its callers: an
    instance of [ExpressionEvaluator], and a function from entities to a
    boolean. *)
Inductive JSValue : Type :=
| JSObject (instance : ExpressionEvaluator.t)
| JSFunction (f : list jsstring -> bool).

(** [v(entities)]: a function is applied; calling an object that is not a
    function throws a [TypeError]. *)
Definition call (v : JSValue) (entities : list jsstring) : completion bool :=
  match v with
  | JSFunction f => Normal (f entities)
  | JSObject _ => Throw TypeError
  end.

(** [instance.evaluate]: the arrow function of the instance. *)
Definition evaluateOf (instance : ExpressionEvaluator.t) : JSValue :=
  JSFunction (ExpressionEvaluator.evaluate instance).

(* ===================================================================== *)
(** ** Further notions used in the properties of the code *)
(* ===================================================================== *)

(** The patterns of the identifiers of an expression. *)
Fixpoint patterns (e : Expression) : list jsstring :=
  match e with
  | Identifier pattern => [pattern]
  | And l r => patterns l ++ patterns r
  | Or l r => patterns l ++ patterns r
  | Not e' => patterns e'
  end.

(** The expression has no [Not] node. *)
Fixpoint notFree (e : Expression) : bool :=
  match e with
  | Identifier _ => true
  | And l r => notFree l && notFree r
  | Or l r => notFree l && notFree r
  | Not _ => false
  end.

(** A thrown exception was built by [ParseError.fromToken] from the token
    under the cursor the parser was left with. *)
Definition thrownAtCursor {A} (r : completion A * Parser.state) : Prop :=
  forall e, fst r = Throw e ->
  exists message expected,
    e = fromToken message (Parser.peek (snd r)) expected.

(** What the type of a token says about its value: a parenthesis token holds
    its parenthesis, the [EOF] token nothing, a keyword token a run that is
    the keyword in lower case, and an identifier token a run that is not
    empty and is no keyword. *)
Definition tokenShape (type : TokenType) (value : jsstring) : bool :=
  match type with
  | LEFT_PAREN => strictEquals value [LPAREN]
  | RIGHT_PAREN => strictEquals value [RPAREN]
  | EOF => strictEquals value []
  | AND => Text.isRun value && strictEquals (toLocaleLowerCase value) (js "and")
  | OR => Text.isRun value && strictEquals (toLocaleLowerCase value) (js "or")
  | NOT => Text.isRun value && strictEquals (toLocaleLowerCase value) (js "not")
  | IDENTIFIER =>
    negb (strictEquals value []) && Text.isRun value
    && negb (strictEquals (toLocaleLowerCase value) (js "and"))
    && negb (strictEquals (toLocaleLowerCase value) (js "or"))
    && negb (strictEquals (toLocaleLowerCase value) (js "not"))
  end.

(** The tokenizer's cursor is not beyond the end of the input. *)
Definition inside (t : Tokenizer.state) : Prop :=
  Tokenizer.position t <= length (Tokenizer.input t).

(** The tokens lie in the input from index [from] on, in their order: each
    one starts at its [position], at or after [from], with only white space
    before it; its value is the text of the input at that position; and the
    next ones lie after it. *)
Fixpoint laidOut (input : jsstring) (from : nat) (tokens : list Token.t)
  : Prop :=
  match tokens with
  | [] => True
  | token :: rest =>
    from <= Token.position token /\
    Text.allWhitespace
      (firstn (Token.position token - from) (skipn from input)) = true /\
    firstn (length (Token.value token)) (skipn (Token.position token) input)
    = Token.value token /\
    Token.position token + length (Token.value token) <= length input /\
    laidOut input (Token.position token + length (Token.value token)) rest
  end.

(** *** The grammar of parser.ts

    [[
    expression ::= or_expr
    or_expr    ::= and_expr ( OR and_expr )*     left-associative
    and_expr   ::= not_expr ( AND not_expr )*    left-associative
    not_expr   ::= NOT not_expr | primary
    primary    ::= identifier | "(" expression ")"
    ]]

    as a relation between the types and values of a sequence of tokens and
    the tree it stands for.  The value of a keyword or parenthesis token
    plays no part. *)

Inductive Level : Type := PrimaryLevel | NotLevel | AndLevel | OrLevel.

Inductive derives
  : Level -> list (TokenType * jsstring) -> Expression -> Prop :=
| derives_identifier value :
    derives PrimaryLevel [(IDENTIFIER, value)] (Identifier value)
| derives_parenthesized open close ts e :
    derives OrLevel ts e ->
    derives PrimaryLevel
      ((LEFT_PAREN, open) :: ts ++ [(RIGHT_PAREN, close)]) e
| derives_not keyword ts e :
    derives NotLevel ts e ->
    derives NotLevel ((NOT, keyword) :: ts) (Not e)
| derives_not_primary ts e :
    derives PrimaryLevel ts e -> derives NotLevel ts e
| derives_and keyword ts1 l ts2 r :
    derives AndLevel ts1 l -> derives NotLevel ts2 r ->
    derives AndLevel (ts1 ++ (AND, keyword) :: ts2) (And l r)
| derives_and_not ts e :
    derives NotLevel ts e -> derives AndLevel ts e
| derives_or keyword ts1 l ts2 r :
    derives OrLevel ts1 l -> derives AndLevel ts2 r ->
    derives OrLevel (ts1 ++ (OR, keyword) :: ts2) (Or l r)
| derives_or_and ts e :
    derives AndLevel ts e -> derives OrLevel ts e.

(** The tokens from the parser's cursor on. *)
Definition upcoming (p : Parser.state) : list Token.t :=
  skipn (Parser.current p) (Parser.tokens p).

(** The parser with its cursor [n] tokens further. *)
Definition skipped (n : nat) (p : Parser.state) : Parser.state :=
  {| Parser.tokens := Parser.tokens p;
     Parser.current := Parser.current p + n |}.

(** [m'] ends as [m] does wherever [m] does not run out of fuel. *)
Definition refines {S A} (m m' : M S A) : Prop :=
  forall s r s', m s = (r, s') -> r <> OutOfFuel -> m' s = (r, s').


(** The types and values of the tokens of a text, without the [EOF] that
    ends them. *)
Definition words (s : jsstring) : list (TokenType * jsstring) :=
  removelast (Text.scan (S (length s)) s).

(** The line and the column after the text [s], for a text that starts at
    [line] and [column]: a line feed, a carriage return, and a carriage
    return followed by a line feed, each end one line; any other code unit
    is one column. *)
Fixpoint lineAndColumn (s : jsstring) (line column : nat) : nat * nat :=
  match s with
  | [] => (line, column)
  | c :: s' =>
    if N.eqb c LF then lineAndColumn s' (S line) 1
    else if N.eqb c CR then
      match s' with
      | c' :: s'' =>
        if N.eqb c' LF then lineAndColumn s'' (S line) 1
        else lineAndColumn s' (S line) 1
      | [] => (S line, 1)
      end
    else lineAndColumn s' line (S column)
  end.

(** The text read so far. *)
Definition consumed (t : Tokenizer.state) : jsstring :=
  firstn (Tokenizer.position t) (Tokenizer.input t).

(** The cursor is not between a carriage return and its line feed. *)
Definition betweenLines (pre post : jsstring) : Prop :=
  last pre 0%N <> CR \/ hd 0%N post <> LF.

(** The tokenizer's line and column are those of its cursor. *)
Definition located (t : Tokenizer.state) : Prop :=
  inside t /\
  lineAndColumn (consumed t) 1 1 = (Tokenizer.line t, Tokenizer.column t) /\
  betweenLines (consumed t) (Text.remaining t).

(** *** Expressions written without parentheses

    The texts in which precedence and associativity alone decide the tree:
    terms joined by [or], each term made of factors joined by [and], each
    factor an identifier under some [not]s; and the tree the specification
    gives such a text: [not] binds tighter than [and], [and] tighter than
    [or], and both [and] and [or] nest to the left. *)

(** [not not ... e], with [n] [not]s. *)
Fixpoint negate (n : nat) (e : Expression) : Expression :=
  match n with
  | O => e
  | S n' => Not (negate n' e)
  end.

(** [n] times ["not "] before the text [s]. *)
Fixpoint negateText (n : nat) (s : jsstring) : jsstring :=
  match n with
  | O => s
  | S n' => js "not " ++ negateText n' s
  end.

(** The texts [first], [x1], ..., [xn] with [separator] between them. *)
Definition joined (separator first : jsstring) (rest : list jsstring)
  : jsstring :=
  fold_left (fun text s => text ++ separator ++ s) rest first.

(** [op (... (op (op first x1) x2) ...) xn]: the operator nested to the
    left. *)
Definition leftNested (op : Expression -> Expression -> Expression)
  (first : Expression) (rest : list Expression) : Expression :=
  fold_left op rest first.

(** A factor: the number of [not]s and the identifier. *)
Definition Factor : Type := (nat * jsstring)%type.

(** A term: its first factor and the factors that follow an [and]. *)
Definition Term : Type := (Factor * list Factor)%type.

(** A sum: its first term and the terms that follow an [or]. *)
Definition Sum : Type := (Term * list Term)%type.

Definition factorText (f : Factor) : jsstring := negateText (fst f) (snd f).

Definition factorTree (f : Factor) : Expression :=
  negate (fst f) (Identifier (snd f)).

Definition termText (t : Term) : jsstring :=
  joined (js " and ") (factorText (fst t)) (map factorText (snd t)).

Definition termTree (t : Term) : Expression :=
  leftNested And (factorTree (fst t)) (map factorTree (snd t)).

Definition sumText (s : Sum) : jsstring :=
  joined (js " or ") (termText (fst s)) (map termText (snd s)).

Definition sumTree (s : Sum) : Expression :=
  leftNested Or (termTree (fst s)) (map termTree (snd s)).

(** The factors of a term, and the identifiers of a sum. *)
Definition factorsOf (t : Term) : list Factor := fst t :: snd t.

Definition identifiersOf (s : Sum) : list jsstring :=
  map snd (concat (map factorsOf (fst s :: snd s))).
(* ===================================================================== *)
(** ** Running a method *)
(* ===================================================================== *)

Lemma bind_Normal {S A B} (m : M S A) (k : A -> M S B) s a s' :
  m s = (Normal a, s') -> bind m k s = k a s'.
Proof. intros H; unfold bind; rewrite H; reflexivity. Qed.

Lemma bind_Throw {S A B} (m : M S A) (k : A -> M S B) s e s' :
  m s = (Throw e, s') -> bind m k s = (Throw e, s').
Proof. intros H; unfold bind; rewrite H; reflexivity. Qed.

Lemma bind_get {S B} (k : S -> M S B) s : bind get k s = k s s.
Proof. reflexivity. Qed.

Lemma bind_modify {S B} (f : S -> S) (k : unit -> M S B) s :
  bind (modify f) k s = k tt (f s).
Proof. reflexivity. Qed.

Lemma bind_ret {S A B} (a : A) (k : A -> M S B) s : bind (ret a) k s = k a s.
Proof. reflexivity. Qed.

Lemma TokenType_eqb_eq a b : TokenType_eqb a b = true <-> a = b.
Proof. destruct a, b; simpl; split; intros H; congruence. Qed.

Lemma strictEquals_eq a b : strictEquals a b = true <-> a = b.
Proof.
  revert b; induction a as [|x a IH]; intros [|y b]; simpl;
    try (split; congruence).
  rewrite andb_true_iff, N.eqb_eq, IH. split.
  - intros [-> ->]; reflexivity.
  - intros H; injection H; auto.
Qed.

(* ===================================================================== *)
(** ** The tokenizer's cursor, seen as the text still to be read *)
(* ===================================================================== *)

Module TokenizerFacts.
Import Tokenizer Text.

Lemma length_remaining t :
  length (remaining t) = length (input t) - position t.
Proof. unfold remaining; apply length_skipn. Qed.

Lemma ltb_remaining t :
  (position t <? length (input t)) =
  match remaining t with [] => false | _ :: _ => true end.
Proof.
  pose proof (length_remaining t) as H.
  destruct (remaining t); simpl in H.
  - apply Nat.ltb_ge; lia.
  - apply Nat.ltb_lt; lia.
Qed.

Lemma leb_remaining t :
  (length (input t) <=? position t) =
  match remaining t with [] => true | _ :: _ => false end.
Proof.
  pose proof (length_remaining t) as H.
  destruct (remaining t); simpl in H.
  - apply Nat.leb_le; lia.
  - apply Nat.leb_gt; lia.
Qed.

Lemma peek_remaining t : peek t = hd_error (remaining t).
Proof.
  unfold peek. rewrite leb_remaining.
  unfold remaining. remember (position t) as n. clear Heqn.
  revert n. induction (input t) as [|c l IH]; intros [|n]; simpl; auto.
Qed.

Lemma remaining_advance t c r :
  remaining t = c :: r -> remaining (advance t) = r.
Proof.
  intros H. unfold advance. rewrite ltb_remaining, H.
  unfold remaining in *. simpl.
  replace (position t + 1) with (S (position t)) by lia.
  remember (position t) as n. clear Heqn.
  revert n H. induction (input t) as [|x l IH]; intros [|n] H; simpl in *;
    try discriminate.
  - congruence.
  - exact (IH n H).
Qed.

Lemma advance_moved t c r : remaining t = c :: r -> advance t = moved 1 t.
Proof.
  intros H. unfold advance, moved. rewrite ltb_remaining, H. reflexivity.
Qed.

Lemma input_advance t : input (advance t) = input t.
Proof. unfold advance. destruct (_ <? _); reflexivity. Qed.

(** *** [#skipWhitespace] drops the white space under the cursor *)

Lemma remaining_newLine t : remaining (newLine t) = remaining t.
Proof. reflexivity. Qed.

Lemma charIs_Some c k : charIs (Some c) k = N.eqb c k.
Proof. reflexivity. Qed.

Lemma skipWhitespace_loop_drops fuel : forall t,
  length (remaining t) < fuel ->
  exists t',
    skipWhitespace_loop fuel t = (Normal tt, t') /\
    input t' = input t /\
    remaining t' = dropWhitespace (remaining t).
Proof.
  induction fuel as [|fuel IH]; intros t Hfuel; [lia|].
  cbn [skipWhitespace_loop]. rewrite bind_get.
  rewrite ltb_remaining, peek_remaining.
  destruct (remaining t) as [|c r] eqn:Hrem.
  { exists t. rewrite Hrem. auto. }
  pose proof (remaining_advance t c r Hrem) as Hadv.
  pose proof (input_advance t) as Hin.
  simpl in Hfuel.
  cbn [hd_error dropWhitespace]. unfold whitespace, isWhitespace.
  rewrite !charIs_Some.
  destruct (N.eqb c SPACE || N.eqb c TAB) eqn:Hsp.
  { rewrite bind_modify. cbn [orb].
    destruct (IH (advance t)) as (t' & -> & Hi & Hr); [rewrite Hadv; lia|].
    exists t'. rewrite Hi, Hr, Hadv. auto. }
  destruct (N.eqb c LF) eqn:Hlf.
  { rewrite !bind_modify. cbn [orb].
    destruct (IH (newLine (advance t))) as (t' & -> & Hi & Hr);
      [rewrite remaining_newLine, Hadv; lia|].
    exists t'. rewrite Hi, Hr, remaining_newLine, Hadv. auto. }
  destruct (N.eqb c CR) eqn:Hcr; cbn [orb].
  { rewrite bind_modify, bind_get, peek_remaining, Hadv.
    destruct (charIs (hd_error r) LF) eqn:Hcrlf.
    - destruct r as [|d r]; [discriminate|].
      cbn [hd_error] in Hcrlf. rewrite charIs_Some in Hcrlf.
      rewrite !bind_modify.
      pose proof (remaining_advance (advance t) d r Hadv) as Hadv2.
      destruct (IH (newLine (advance (advance t)))) as (t' & -> & Hi & Hr);
        [rewrite remaining_newLine, Hadv2; simpl in Hfuel; lia|].
      exists t'. rewrite Hi, Hr, remaining_newLine, Hadv2.
      cbn [dropWhitespace]. unfold whitespace, isWhitespace.
      rewrite !charIs_Some, Hcrlf, !orb_true_r.
      simpl. rewrite !input_advance. auto.
    - rewrite bind_ret, bind_modify.
      destruct (IH (newLine (advance t))) as (t' & -> & Hi & Hr);
        [rewrite remaining_newLine, Hadv; lia|].
      exists t'. rewrite Hi, Hr, remaining_newLine, Hadv. auto. }
  exists t. auto.
Qed.

Lemma skipWhitespace_drops t :
  exists t',
    skipWhitespace t = (Normal tt, t') /\
    input t' = input t /\
    remaining t' = dropWhitespace (remaining t).
Proof.
  unfold skipWhitespace. rewrite bind_get.
  apply skipWhitespace_loop_drops. rewrite length_remaining. lia.
Qed.

(** *** [#readIdentifier] reads exactly the run under the cursor *)

Lemma moved_0 t : moved 0 t = t.
Proof. destruct t; unfold moved; simpl; f_equal; lia. Qed.

Lemma moved_moved n m t : moved n (moved m t) = moved (m + n) t.
Proof. unfold moved; simpl; f_equal; lia. Qed.

Lemma readIdentifier_loop_run run : forall fuel value t rest,
  remaining t = run ++ rest ->
  isRun run = true ->
  endsRun rest = true ->
  length run < fuel ->
  readIdentifier_loop fuel value t
  = (Normal (value ++ run), moved (length run) t).
Proof.
  induction run as [|c run IH]; intros [|fuel] value t rest Hrem Hrun Hend Hfuel;
    try (simpl in Hfuel; lia);
    cbn [readIdentifier_loop]; rewrite bind_get;
    rewrite ltb_remaining, peek_remaining, Hrem; cbn [app hd_error].
  - rewrite app_nil_r, moved_0.
    destruct rest as [|d rest]; [reflexivity|].
    simpl in Hend. cbn [hd_error]. fold (isDelimiter d). rewrite Hend.
    reflexivity.
  - simpl in Hrun. apply andb_true_iff in Hrun as [Hc Hrun].
    apply negb_true_iff in Hc.
    fold (isDelimiter c). rewrite Hc.
    rewrite bind_modify.
    rewrite (IH fuel _ (advance t) rest); auto.
    + rewrite (advance_moved t c (run ++ rest)) by exact Hrem.
      rewrite moved_moved. simpl. rewrite <- app_assoc. reflexivity.
    + apply (remaining_advance t c). exact Hrem.
    + simpl in Hfuel. lia.
Qed.

Lemma readIdentifier_run run t rest :
  remaining t = run ++ rest ->
  isRun run = true ->
  endsRun rest = true ->
  readIdentifier t = (Normal run, moved (length run) t).
Proof.
  intros Hrem Hrun Hend. unfold readIdentifier. rewrite bind_get.
  apply (readIdentifier_loop_run run _ [] t rest); auto.
  rewrite <- length_remaining, Hrem, length_app. lia.
Qed.

Lemma keywordOrIdentifier_not_EOF value : keywordOrIdentifier value <> EOF.
Proof.
  unfold keywordOrIdentifier, matchKeyword.
  repeat match goal with |- context [if ?b then _ else _] => destruct b end;
    discriminate.
Qed.

(** *** [#nextToken] on an identifier run *)
Lemma readIdentifierOrKeyword_run c run t rest :
  remaining t = (c :: run) ++ rest ->
  isRun (c :: run) = true ->
  endsRun rest = true ->
  readIdentifierOrKeyword t
  = (Normal {| Token.type := keywordOrIdentifier (c :: run);
               Token.value := c :: run;
               Token.position := position t;
               Token.line := line t;
               Token.column := column t |},
     moved (length (c :: run)) t).
Proof.
  intros Hrem Hrun Hend. unfold readIdentifierOrKeyword.
  rewrite bind_get.
  rewrite (bind_Normal _ _ _ _ _ (readIdentifier_run _ _ _ Hrem Hrun Hend)).
  rewrite bind_get. cbn [length Nat.eqb].
  unfold keywordOrIdentifier.
  destruct (matchKeyword (c :: run)); reflexivity.
Qed.

Lemma isRun_head c run :
  isRun (c :: run) = true ->
  isWhitespace (Some c) = false /\
  charIs (Some c) LPAREN = false /\ charIs (Some c) RPAREN = false.
Proof.
  simpl. intros H. apply andb_true_iff in H as [H _].
  apply negb_true_iff in H. unfold isDelimiter in H.
  apply orb_false_iff in H as [H ?]. apply orb_false_iff in H as [? ?].
  auto.
Qed.

(** *** Facts about the text functions *)

Lemma dropWhitespace_head s c s' :
  dropWhitespace s = c :: s' -> whitespace c = false.
Proof.
  induction s as [|d s IH]; simpl; [discriminate|].
  destruct (whitespace d) eqn:E; [exact IH|].
  intros H; injection H as -> _. exact E.
Qed.

Lemma dropWhitespace_length s : length (dropWhitespace s) <= length s.
Proof.
  induction s as [|d s IH]; simpl; [lia|].
  destruct (whitespace d); simpl; lia.
Qed.

Lemma takeRun_spec s :
  let (run, rest) := takeRun s in
  s = run ++ rest /\ isRun run = true /\ endsRun rest = true.
Proof.
  induction s as [|c s IH]; simpl; [auto|].
  destruct (isDelimiter c) eqn:Hc; [simpl; auto|].
  destruct (takeRun s) as [run rest]. destruct IH as (-> & Hrun & Hend).
  simpl. rewrite Hc, Hrun. auto.
Qed.

Lemma takeRun_run run : forall rest,
  isRun run = true -> endsRun rest = true ->
  takeRun (run ++ rest) = (run, rest).
Proof.
  induction run as [|c run IH]; intros rest Hrun Hend; simpl.
  - destruct rest as [|d rest]; [reflexivity|].
    simpl in Hend |- *. rewrite Hend. reflexivity.
  - simpl in Hrun. apply andb_true_iff in Hrun as [Hc Hrun].
    apply negb_true_iff in Hc. rewrite Hc, (IH rest Hrun Hend).
    reflexivity.
Qed.

Lemma isDelimiter_false c :
  whitespace c = false -> N.eqb c LPAREN = false ->
  N.eqb c RPAREN = false -> isDelimiter c = false.
Proof.
  intros Hw Hl Hr. unfold isDelimiter. rewrite !charIs_Some, Hl, Hr.
  fold (whitespace c). rewrite Hw. reflexivity.
Qed.

Lemma scanToken_shorter s token s' :
  scanToken s = (token, s') -> fst token <> EOF -> length s' < length s.
Proof.
  unfold scanToken. pose proof (dropWhitespace_length s) as Hlen.
  destruct (dropWhitespace s) as [|c r] eqn:Hdrop.
  { intros H; injection H as <- <-. simpl. congruence. }
  simpl in Hlen.
  destruct (N.eqb c LPAREN) eqn:Hl; [intros H; injection H as <- <-; lia|].
  destruct (N.eqb c RPAREN) eqn:Hr; [intros H; injection H as <- <-; lia|].
  pose proof (takeRun_spec (c :: r)) as Hspec. revert Hspec.
  cbn [takeRun].
  rewrite (isDelimiter_false c (dropWhitespace_head _ _ _ Hdrop) Hl Hr).
  destruct (takeRun r) as [run rest]. intros (Heq & _ & _).
  intros H; injection H as <- <-. intros _.
  apply (f_equal (@length _)) in Heq. simpl in Heq.
  rewrite length_app in Heq. lia.
Qed.

(** *** [#nextToken] computes [scanToken] of the text under the cursor *)
Lemma nextToken_scanToken t :
  exists token t',
    nextToken t = (Normal token, t') /\
    input t' = input t /\
    scanToken (remaining t)
    = ((Token.type token, Token.value token), remaining t').
Proof.
  destruct (skipWhitespace_drops t) as (t1 & Hskip & Hin & Hdrop).
  unfold nextToken. rewrite (bind_Normal _ _ _ _ _ Hskip), bind_get.
  unfold scanToken. rewrite <- Hdrop.
  rewrite leb_remaining, peek_remaining.
  symmetry in Hdrop.
  remember (remaining t1) as text eqn:Hrem.
  destruct text as [|c r]; symmetry in Hrem.
  { eexists _, t1. split; [reflexivity|]. rewrite Hrem. auto. }
  pose proof (remaining_advance t1 c r Hrem) as Hadv.
  pose proof (input_advance t1) as Hin1.
  cbn [hd_error]. rewrite !charIs_Some.
  destruct (N.eqb c LPAREN) eqn:Hl.
  { rewrite bind_modify. eexists _, _. split; [reflexivity|].
    simpl. rewrite Hadv. split; [congruence|reflexivity]. }
  destruct (N.eqb c RPAREN) eqn:Hr.
  { rewrite bind_modify. eexists _, _. split; [reflexivity|].
    simpl. rewrite Hadv. split; [congruence|reflexivity]. }
  pose proof (takeRun_spec (c :: r)) as Hspec.
  assert (Hc : isDelimiter c = false).
  { apply isDelimiter_false; auto.
    apply (dropWhitespace_head _ _ _ Hdrop). }
  revert Hspec. cbn [takeRun]. rewrite Hc.
  destruct (takeRun r) as [run rest]. intros (Heq & Hrun & Hend).
  rewrite Heq in Hrem.
  rewrite (readIdentifierOrKeyword_run c run t1 rest Hrem Hrun Hend).
  eexists _, _. split; [reflexivity|]. split; [exact Hin|].
  cbn [Token.type Token.value]. f_equal.
  (* the text left after the run *)
  unfold remaining, moved in *. cbn [position input].
  rewrite Nat.add_comm, <- skipn_skipn, Hrem.
  rewrite skipn_app, skipn_all, Nat.sub_diag. reflexivity.
Qed.

(** *** [tokenize] returns the tokens up to and including the first [EOF],
    and their types and values are the [scan] of the text *)
Lemma tokenize_loop_returns fuel : forall tokens t,
  length (remaining t) < fuel ->
  exists body eof t',
    tokenize_loop fuel tokens t = (Normal (tokens ++ body ++ [eof]), t') /\
    Forall (fun token => Token.type token <> EOF) body /\
    Token.type eof = EOF /\ Token.value eof = [] /\
    typesAndValues (body ++ [eof]) = scan fuel (remaining t).
Proof.
  induction fuel as [|fuel IH]; intros tokens t Hfuel; [lia|].
  cbn [tokenize_loop scan].
  destruct (nextToken_scanToken t) as (token & t1 & Hnext & Hin & Hscan).
  rewrite (bind_Normal _ _ _ _ _ Hnext), Hscan. cbn [fst].
  destruct (TokenType_eqb (Token.type token) EOF) eqn:E; cbn [negb].
  - apply TokenType_eqb_eq in E.
    exists [], token, t1. simpl. repeat split; auto.
    unfold scanToken in Hscan.
    destruct (dropWhitespace (remaining t)) as [|c r].
    + congruence.
    + destruct (N.eqb c LPAREN); [congruence|].
      destruct (N.eqb c RPAREN); [congruence|].
      destruct (takeRun (c :: r)) as [run rest].
      injection Hscan as Hty _ _.
      exfalso. apply (keywordOrIdentifier_not_EOF run). congruence.
  - assert (Hne : Token.type token <> EOF).
    { intros H. apply TokenType_eqb_eq in H. congruence. }
    pose proof (scanToken_shorter _ _ _ Hscan Hne) as Hshort.
    destruct (IH (tokens ++ [token]) t1)
      as (body & eof & t' & Hloop & Hbody & Heof & Hval & Hmap); [lia|].
    exists (token :: body), eof, t'. rewrite Hloop, <- app_assoc.
    repeat split; auto. unfold typesAndValues in *. simpl. rewrite Hmap. reflexivity.
Qed.

(** *** The scan of a text does not depend on the bound *)

Lemma scan_bound n : forall m s,
  length s < n -> length s < m -> scan n s = scan m s.
Proof.
  induction n as [|n IH]; intros [|m] s Hn Hm; try lia.
  cbn [scan]. destruct (scanToken s) as [token s'] eqn:Hscan.
  f_equal. destruct (TokenType_eqb (fst token) EOF) eqn:E; [reflexivity|].
  assert (Hne : fst token <> EOF).
  { intros H. apply TokenType_eqb_eq in H. congruence. }
  pose proof (scanToken_shorter _ _ _ Hscan Hne). apply IH; lia.
Qed.

(** The scan of a text ends with its only [EOF]. *)
Lemma scan_ends n s :
  length s < n ->
  exists front,
    scan n s = front ++ [(EOF, [])] /\
    Forall (fun token => fst token <> EOF) front.
Proof.
  intros Hn.
  destruct (tokenize_loop_returns n [] (new s))
    as (body & eof & t' & _ & Hbody & Htype & Hval & Hscan).
  { unfold remaining, new; simpl. exact Hn. }
  unfold remaining, new in Hscan; simpl in Hscan. rewrite <- Hscan.
  exists (typesAndValues body). unfold typesAndValues.
  rewrite map_app. simpl. rewrite Htype, Hval. split; [reflexivity|].
  rewrite Forall_map. exact Hbody.
Qed.

(** *** Scanning a text made of two parts *)

Lemma closed_suffix a b : closed (a ++ b) = true -> closed b = true.
Proof.
  unfold closed. rewrite rev_app_distr.
  destruct (rev b) as [|c l]; [reflexivity|]. simpl. auto.
Qed.

Lemma isRun_closed run rest :
  isRun run = true -> closed (run ++ rest) = true -> run <> [] ->
  rest <> [].
Proof.
  intros Hrun Hclosed Hne ->. rewrite app_nil_r in Hclosed.
  unfold closed in Hclosed.
  destruct (rev run) as [|c l] eqn:E.
  - apply (f_equal (@rev _)) in E. rewrite rev_involutive in E. auto.
  - simpl in Hclosed. unfold isRun in Hrun. rewrite forallb_forall in Hrun.
    assert (Hin : In c run) by (apply in_rev; rewrite E; left; reflexivity).
    apply Hrun in Hin. rewrite Hclosed in Hin. discriminate.
Qed.

Lemma whitespace_isDelimiter c : whitespace c = true -> isDelimiter c = true.
Proof. unfold isDelimiter. fold (whitespace c). intros ->. reflexivity. Qed.

Lemma dropWhitespace_split s :
  exists ws, s = ws ++ dropWhitespace s /\ allWhitespace ws = true.
Proof.
  induction s as [|c s (ws & Hs & Hws)]; simpl.
  - exists []. auto.
  - destruct (whitespace c) eqn:E.
    + exists (c :: ws). simpl. rewrite E, Hws, <- Hs. auto.
    + exists []. auto.
Qed.

Lemma dropWhitespace_app_nil s x :
  dropWhitespace s = [] -> dropWhitespace (s ++ x) = dropWhitespace x.
Proof.
  induction s as [|c s IH]; simpl; [reflexivity|].
  destruct (whitespace c); [exact IH|discriminate].
Qed.

Lemma dropWhitespace_app_cons s x c r :
  dropWhitespace s = c :: r -> dropWhitespace (s ++ x) = c :: r ++ x.
Proof.
  induction s as [|d s IH]; simpl; [discriminate|].
  destruct (whitespace d); [exact IH|].
  intros H; injection H as -> ->. reflexivity.
Qed.

Lemma takeRun_app s : forall x run rest,
  takeRun s = (run, rest) ->
  (rest = [] -> endsRun x = true) ->
  takeRun (s ++ x) = (run, rest ++ x).
Proof.
  induction s as [|c s IH]; intros x run rest; simpl.
  - intros H Hx; injection H as <- <-. simpl.
    specialize (Hx eq_refl). destruct x as [|d x]; [reflexivity|].
    simpl in Hx |- *. rewrite Hx. reflexivity.
  - destruct (isDelimiter c) eqn:Hc.
    + intros H _; injection H as <- <-. reflexivity.
    + destruct (takeRun s) as [run' rest'] eqn:E.
      intros H Hx; injection H as <- <-.
      rewrite (IH x run' rest' eq_refl Hx). reflexivity.
Qed.

Lemma scanToken_nil s :
  dropWhitespace s = [] -> scanToken s = ((EOF, []), []).
Proof. unfold scanToken. intros ->. reflexivity. Qed.

Lemma removelast_cons {A} (a : A) l :
  l <> [] -> removelast (a :: l) = a :: removelast l.
Proof. destruct l; [contradiction|reflexivity]. Qed.

Lemma scan_not_nil n s : 0 < n -> scan n s <> [].
Proof.
  destruct n; [lia|]. intros _. cbn [scan].
  destruct (scanToken s). discriminate.
Qed.

(** Where a token cannot straddle the two parts, the tokens of the whole
    are the tokens of the first part without its [EOF], then the tokens of
    the second part. *)
Lemma scan_app n : forall pre post,
  length (pre ++ post) < n ->
  closed pre = true \/ endsRun post = true ->
  scan n (pre ++ post) = removelast (scan n pre) ++ scan n post.
Proof.
  induction n as [|n IH]; intros pre post Hn Hsep; [lia|].
  rewrite length_app in Hn.
  destruct (dropWhitespace_split pre) as (ws & Hpre & Hws).
  destruct (dropWhitespace pre) as [|c r] eqn:Hdrop.
  { (* only white space in [pre] *)
    cbn [scan]. rewrite (scanToken_nil pre Hdrop). simpl.
    unfold scanToken. rewrite (dropWhitespace_app_nil _ _ Hdrop).
    reflexivity. }
  assert (Hlen : length pre = length ws + S (length r))
    by (rewrite Hpre at 1; rewrite length_app; reflexivity).
  assert (Hsep' : forall a b, c :: r = a ++ b ->
                  closed b = true \/ endsRun post = true).
  { intros a b Hab. destruct Hsep as [Hc|Hp]; [left|right; exact Hp].
    rewrite Hpre, Hab, app_assoc in Hc. apply (closed_suffix _ _ Hc). }
  assert (Hstep : forall token rest,
            scanToken pre = (token, rest) ->
            scanToken (pre ++ post) = (token, rest ++ post) ->
            fst token <> EOF ->
            closed rest = true \/ endsRun post = true ->
            scan (S n) (pre ++ post)
            = removelast (scan (S n) pre) ++ scan (S n) post).
  { intros token rest H1 H2 Hne Hrest.
    assert (Hshort := scanToken_shorter _ _ _ H1 Hne).
    cbn [scan]. rewrite H1, H2. fold (scan (S n) post).
    destruct (TokenType_eqb (fst token) EOF) eqn:E.
    { apply TokenType_eqb_eq in E. contradiction. }
    rewrite removelast_cons by (apply scan_not_nil; lia).
    rewrite (IH rest post) by (rewrite ?length_app; auto; lia).
    rewrite (scan_bound n (S n) post) by lia. reflexivity. }
  pose proof (dropWhitespace_head _ _ _ Hdrop) as Hw.
  unfold scanToken in Hstep.
  rewrite (dropWhitespace_app_cons _ post _ _ Hdrop), Hdrop in Hstep.
  destruct (N.eqb c LPAREN) eqn:Hl.
  { eapply (Hstep _ r); [reflexivity|reflexivity|discriminate|].
    apply (Hsep' [c] r eq_refl). }
  destruct (N.eqb c RPAREN) eqn:Hr.
  { eapply (Hstep _ r); [reflexivity|reflexivity|discriminate|].
    apply (Hsep' [c] r eq_refl). }
  pose proof (takeRun_spec (c :: r)) as Hspec.
  pose proof (isDelimiter_false c Hw Hl Hr) as Hc.
  destruct (takeRun (c :: r)) as [run rest] eqn:Htake.
  destruct Hspec as (Heq & Hrun & Hend).
  assert (Hrun_ne : run <> []).
  { intros ->. simpl in Htake. rewrite Hc in Htake.
    destruct (takeRun r); discriminate. }
  change (c :: r ++ post) with ((c :: r) ++ post) in Hstep.
  rewrite (takeRun_app (c :: r) post run rest Htake) in Hstep.
  - eapply (Hstep _ rest); [reflexivity|reflexivity| |].
    + apply keywordOrIdentifier_not_EOF.
    + apply (Hsep' run rest Heq).
  - intros ->. destruct Hsep as [Hclosed|Hp]; [|exact Hp]. exfalso.
    rewrite Hpre, Heq in Hclosed. apply closed_suffix in Hclosed.
    apply (isRun_closed run [] Hrun Hclosed Hrun_ne). reflexivity.
Qed.

Lemma scan_allWhitespace n ws :
  allWhitespace ws = true -> scan (S n) ws = [(EOF, [])].
Proof.
  intros Hws. cbn [scan]. rewrite scanToken_nil; [reflexivity|].
  induction ws as [|c ws IH]; [reflexivity|].
  simpl in Hws |- *. apply andb_true_iff in Hws as [-> Hws]. auto.
Qed.

Lemma allWhitespace_closed ws : allWhitespace ws = true -> closed ws = true.
Proof.
  intros Hws. unfold closed. destruct (rev ws) as [|c l] eqn:E; [reflexivity|].
  simpl. apply whitespace_isDelimiter.
  unfold allWhitespace in Hws. rewrite forallb_forall in Hws.
  apply Hws. apply in_rev. rewrite E. left. reflexivity.
Qed.

Lemma allWhitespace_endsRun ws : allWhitespace ws = true -> endsRun ws = true.
Proof.
  destruct ws as [|c ws]; [reflexivity|]. simpl.
  intros H. apply andb_true_iff in H as [H _].
  apply whitespace_isDelimiter. exact H.
Qed.

(** White space around a text does not change its scan. *)
Lemma scan_surrounding_whitespace n ws1 s ws2 :
  length (ws1 ++ s ++ ws2) < n ->
  allWhitespace ws1 = true -> allWhitespace ws2 = true ->
  scan n (ws1 ++ s ++ ws2) = scan n s.
Proof.
  intros Hn H1 H2. rewrite !length_app in Hn.
  destruct n as [|n]; [lia|].
  rewrite scan_app; [|rewrite !length_app; lia
                     |left; apply allWhitespace_closed; exact H1].
  rewrite (scan_allWhitespace n ws1 H1). cbn [removelast app].
  rewrite scan_app; [|rewrite !length_app; lia
                     |right; apply allWhitespace_endsRun; exact H2].
  rewrite (scan_allWhitespace n ws2 H2).
  destruct (scan_ends (S n) s) as (front & -> & _); [lia|].
  rewrite removelast_last. reflexivity.
Qed.

(** The scan around an identifier run. *)
Lemma scan_run n pre c run rest :
  length (pre ++ (c :: run) ++ rest) < n ->
  closed pre = true -> isRun (c :: run) = true -> endsRun rest = true ->
  scan n (pre ++ (c :: run) ++ rest)
  = removelast (scan n pre)
      ++ (keywordOrIdentifier (c :: run), c :: run) :: scan n rest.
Proof.
  intros Hn Hpre Hrun Hrest. rewrite !length_app in Hn. simpl in Hn.
  destruct n as [|n]; [lia|].
  rewrite scan_app; [|rewrite !length_app; simpl; lia|left; exact Hpre].
  f_equal. cbn [scan]. unfold scanToken.
  destruct (isRun_head _ _ Hrun) as (Hw & Hl & Hr).
  change ((c :: run) ++ rest) with (c :: run ++ rest).
  cbn [dropWhitespace]. fold (whitespace c) in Hw. rewrite Hw.
  rewrite charIs_Some in Hl, Hr. rewrite Hl, Hr.
  change (c :: run ++ rest) with ((c :: run) ++ rest).
  rewrite (takeRun_run _ _ Hrun Hrest). cbn [fst].
  destruct (TokenType_eqb (keywordOrIdentifier (c :: run)) EOF) eqn:E.
  { apply TokenType_eqb_eq in E.
    exfalso. apply (keywordOrIdentifier_not_EOF _ E). }
  rewrite (scan_bound n (S n) rest) by lia. reflexivity.
Qed.

End TokenizerFacts.

(** [tokenize] returns: some tokens that are not [EOF], then an [EOF] token
    with an empty value; their types and values are the scan of the input. *)
Lemma tokenize_returns input :
  exists body eof,
    tokenize input = Normal (body ++ [eof]) /\
    Forall (fun token => Token.type token <> EOF) body /\
    Token.type eof = EOF /\ Token.value eof = [] /\
    typesAndValues (body ++ [eof])
    = Text.scan (S (length input)) input.
Proof.
  unfold tokenize, Tokenizer.tokenize. rewrite bind_get.
  destruct (TokenizerFacts.tokenize_loop_returns
              (S (length (Tokenizer.input (Tokenizer.new input))
                  - Tokenizer.position (Tokenizer.new input)))
              [] (Tokenizer.new input))
    as (body & eof & t' & -> & Hbody & Htype & Hval & Hscan).
  { unfold Text.remaining. simpl. lia. }
  exists body, eof. simpl in *. rewrite Nat.sub_0_r in Hscan. auto.
Qed.

(* ===================================================================== *)
(** ** The parser's cursor stays on the token stream *)
(* ===================================================================== *)

Module ParserFacts.
Import Parser Stream.

Lemma peek_onStream p :
  onStream p ->
  exists token,
    peek p = Some token /\
    (Token.type token = EOF <-> S (current p) = length (tokens p)).
Proof.
  intros [(body & eof & Hts & Hbody & Heof) Hcur]. unfold peek.
  rewrite Hts in *. rewrite length_app in *. simpl in *.
  destruct (Nat.lt_ge_cases (current p) (length body)) as [Hlt|Hge].
  - rewrite nth_error_app1 by exact Hlt.
    destruct (nth_error body (current p)) as [token|] eqn:E.
    + exists token. split; [reflexivity|].
      rewrite Forall_forall in Hbody.
      specialize (Hbody token (nth_error_In _ _ E)).
      split; [contradiction|lia].
    + apply nth_error_None in E. lia.
  - rewrite nth_error_app2 by exact Hge.
    replace (current p - length body) with 0 by lia.
    exists eof. split; [reflexivity|]. split; [lia|auto].
Qed.

Lemma hasReachedEOF_onStream p :
  onStream p ->
  exists atEOF,
    hasReachedEOF p = (Normal atEOF, p) /\
    (atEOF = true <-> S (current p) = length (tokens p)).
Proof.
  intros Hp. destruct (peek_onStream p Hp) as (token & Hpeek & Htype).
  unfold hasReachedEOF. rewrite bind_get, Hpeek. simpl defined.
  rewrite bind_ret. eexists. split; [reflexivity|].
  rewrite TokenType_eqb_eq. exact Htype.
Qed.

Lemma check_onStream type p :
  onStream p ->
  exists found,
    check type p = (Normal found, p) /\
    (found = true -> S (current p) < length (tokens p)).
Proof.
  intros Hp. destruct (hasReachedEOF_onStream p Hp) as (atEOF & Heof & Hat).
  destruct (peek_onStream p Hp) as (token & Hpeek & Htype).
  unfold check. rewrite (bind_Normal _ _ _ _ _ Heof).
  destruct atEOF.
  - exists false. split; [reflexivity|discriminate].
  - rewrite bind_get, Hpeek. simpl defined. rewrite bind_ret.
    eexists. split; [reflexivity|]. intros _.
    destruct Hp as [_ Hcur].
    assert (S (current p) <> length (tokens p)) by (rewrite <- Hat; discriminate).
    lia.
Qed.

Lemma advance_onStream p :
  onStream p -> S (current p) < length (tokens p) ->
  advance p = {| tokens := tokens p; current := current p + 1 |} /\
  onStream (advance p).
Proof.
  intros [Hts Hcur] Hlt. unfold advance.
  apply Nat.ltb_lt in Hcur. rewrite Hcur.
  split; [reflexivity|]. split; simpl; [exact Hts|lia].
Qed.

(** [#matchesAny] either leaves the cursor where it is, or moves it by one
    token, and then not beyond the [EOF] token. *)
Lemma matchesAny_onStream types p :
  onStream p ->
  matchesAny types p = (Normal false, p) \/
  (matchesAny types p = (Normal true, advance p) /\
   S (current p) < length (tokens p)).
Proof.
  intros Hp. induction types as [|type types IH]; simpl.
  - left; reflexivity.
  - destruct (check_onStream type p Hp) as (found & Hcheck & Hfound).
    rewrite (bind_Normal _ _ _ _ _ Hcheck).
    destruct found; [|exact IH].
    right. rewrite bind_modify. split; [reflexivity|auto].
Qed.

(** [#consume] moves the cursor by one token, not beyond the [EOF] token,
    or throws a [ParseError]. *)
Lemma consume_onStream type message p :
  onStream p ->
  (exists token,
     consume type message p = (Normal (Some token), advance p) /\
     S (current p) < length (tokens p)) \/
  (exists m pos l c e a,
     consume type message p = (Throw (ParseError m pos l c e a), p)).
Proof.
  intros Hp. destruct (check_onStream type p Hp) as (found & Hcheck & Hfound).
  destruct (peek_onStream p Hp) as (token & Hpeek & _).
  unfold consume. rewrite (bind_Normal _ _ _ _ _ Hcheck).
  destruct found.
  - left. exists token. rewrite bind_get, bind_modify, Hpeek. auto.
  - right. rewrite bind_get, Hpeek. simpl. repeat eexists.
Qed.

Lemma Safe_ret {A} p enough (a : A) : onStream p -> Safe p enough (ret a p).
Proof.
  intros [_ Hcur]. unfold Safe, ret; simpl.
  repeat split; auto; discriminate.
Qed.

Lemma Safe_ParseError {A} p enough m pos l c e a :
  onStream p ->
  Safe (A := A) p enough (Throw (ParseError m pos l c e a), p).
Proof.
  intros [_ Hcur]. unfold Safe; simpl. repeat split; auto; discriminate.
Qed.

Lemma Safe_fromToken {A} p enough m token e :
  onStream p ->
  Safe (A := A) p enough (throw (fromToken m (Some token) e) p).
Proof. intros Hp. apply Safe_ParseError; exact Hp. Qed.

Lemma Safe_outOfFuel {A} p (enough : Prop) :
  onStream p -> ~ enough -> Safe (A := A) p enough (outOfFuel p).
Proof.
  intros [_ Hcur] Hno. unfold Safe, outOfFuel; simpl.
  repeat split; auto; try discriminate; try contradiction.
Qed.

(** A method that is safe from [p] leaves the parser on the stream. *)
Lemma Safe_onStream {A} p enough (result : completion A * state) :
  onStream p -> Safe p enough result -> onStream (snd result).
Proof.
  intros [Hts _] (Htok & _ & Hcur & _). split; rewrite Htok; assumption.
Qed.

Lemma Safe_from {A} p q enough (result : completion A * state) :
  tokens q = tokens p -> current p <= current q ->
  Safe q enough result -> Safe p enough result.
Proof.
  intros Htok Hle (H1 & H2 & H3 & H4 & H5). unfold Safe.
  rewrite <- Htok. repeat split; auto; try congruence; lia.
Qed.

Lemma Safe_weaken {A} p (enough enough' : Prop)
  (result : completion A * state) :
  (enough -> enough') -> Safe p enough' result -> Safe p enough result.
Proof. intros Himp (H1 & H2 & H3 & H4 & H5). unfold Safe. auto 10. Qed.

Lemma Safe_bind {A B} p enough (m : M state A) (k : A -> M state B) :
  onStream p ->
  Safe p enough (m p) ->
  (forall a q,
     m p = (Normal a, q) -> onStream q ->
     tokens q = tokens p -> current p <= current q ->
     Safe q enough (k a q)) ->
  Safe p enough (bind m k p).
Proof.
  intros Hp Hm Hk. unfold bind.
  pose proof (Safe_onStream p enough _ Hp Hm) as Hq.
  destruct (m p) as [[a|e|] q] eqn:E;
    destruct Hm as (H1 & H2 & H3 & H4 & H5); simpl in *.
  - apply (Safe_from p q); auto.
  - unfold Safe; simpl. repeat split; auto; [|discriminate].
    intros H; apply H4; congruence.
  - unfold Safe; simpl. repeat split; auto; [discriminate|].
    intros Hen _. apply (H5 Hen). reflexivity.
Qed.

(** After [#advance] one token fewer is ahead. *)
Lemma advance_ahead p :
  onStream p -> S (current p) < length (tokens p) ->
  onStream (advance p) /\ tokens (advance p) = tokens p /\
  current p <= current (advance p) /\ S (ahead (advance p)) = ahead p.
Proof.
  intros Hp Hlt. destruct (advance_onStream p Hp Hlt) as [Heq Hon].
  split; [exact Hon|]. rewrite Heq. unfold ahead. simpl. repeat split; lia.
Qed.

Lemma ahead_le p q :
  tokens q = tokens p -> current p <= current q -> ahead q <= ahead p.
Proof. intros Htok Hle. unfold ahead. rewrite Htok. lia. Qed.

Ltac enough_fuel :=
  intros;
  repeat match goal with
         | H : tokens ?q = tokens ?p, H' : current ?p <= current ?q |- _ =>
           pose proof (ahead_le p q H H'); clear H'
         end;
  lia.

(** The grammar methods are safe, by induction on the fuel: [8] units for
    every token ahead pay for one chain from [expression] down to
    [primary] and the loops on the way. *)
Lemma grammar_Safe fuel :
  (forall p, onStream p ->
     Safe p (8 * ahead p + 5 <= fuel) (expression fuel p)) /\
  (forall p, onStream p ->
     Safe p (8 * ahead p + 4 <= fuel) (orExpression fuel p)) /\
  (forall left p, onStream p ->
     Safe p (8 * ahead p + 1 <= fuel) (orExpression_loop fuel left p)) /\
  (forall p, onStream p ->
     Safe p (8 * ahead p + 3 <= fuel) (andExpression fuel p)) /\
  (forall left p, onStream p ->
     Safe p (8 * ahead p + 1 <= fuel) (andExpression_loop fuel left p)) /\
  (forall p, onStream p ->
     Safe p (8 * ahead p + 2 <= fuel) (notExpression fuel p)) /\
  (forall p, onStream p ->
     Safe p (8 * ahead p + 1 <= fuel) (primary fuel p)).
Proof.
  induction fuel as [|fuel (IHe & IHo & IHol & IHa & IHal & IHn & IHp)].
  { repeat match goal with |- _ /\ _ => split end;
      intros; apply Safe_outOfFuel; auto; lia. }
  repeat match goal with |- _ /\ _ => split end.
  - (* expression *)
    intros p Hp. cbn [expression].
    eapply Safe_weaken; [|apply IHo; exact Hp]. enough_fuel.
  - (* orExpression *)
    intros p Hp. cbn [orExpression]. apply Safe_bind; [exact Hp| |].
    + eapply Safe_weaken; [|apply IHa; exact Hp]. enough_fuel.
    + intros left q _ Hq Htok Hle.
      eapply Safe_weaken; [|apply IHol; exact Hq]. enough_fuel.
  - (* orExpression_loop *)
    intros left p Hp. cbn [orExpression_loop].
    destruct (matchesAny_onStream [OR] p Hp) as [H|[H Hlt]];
      rewrite (bind_Normal _ _ _ _ _ H); [apply Safe_ret; exact Hp|].
    destruct (advance_ahead p Hp Hlt) as (Hon & Htok & Hle & Hahead).
    apply (Safe_from p (advance p)); auto.
    apply Safe_bind; [exact Hon| |].
    + eapply Safe_weaken; [|apply IHa; exact Hon]. enough_fuel.
    + intros right q _ Hq Htok' Hle'.
      eapply Safe_weaken; [|apply IHol; exact Hq]. enough_fuel.
  - (* andExpression *)
    intros p Hp. cbn [andExpression]. apply Safe_bind; [exact Hp| |].
    + eapply Safe_weaken; [|apply IHn; exact Hp]. enough_fuel.
    + intros left q _ Hq Htok Hle.
      eapply Safe_weaken; [|apply IHal; exact Hq]. enough_fuel.
  - (* andExpression_loop *)
    intros left p Hp. cbn [andExpression_loop].
    destruct (matchesAny_onStream [AND] p Hp) as [H|[H Hlt]];
      rewrite (bind_Normal _ _ _ _ _ H); [apply Safe_ret; exact Hp|].
    destruct (advance_ahead p Hp Hlt) as (Hon & Htok & Hle & Hahead).
    apply (Safe_from p (advance p)); auto.
    apply Safe_bind; [exact Hon| |].
    + eapply Safe_weaken; [|apply IHn; exact Hon]. enough_fuel.
    + intros right q _ Hq Htok' Hle'.
      eapply Safe_weaken; [|apply IHal; exact Hq]. enough_fuel.
  - (* notExpression *)
    intros p Hp. cbn [notExpression].
    destruct (matchesAny_onStream [NOT] p Hp) as [H|[H Hlt]];
      rewrite (bind_Normal _ _ _ _ _ H).
    { eapply Safe_weaken; [|apply IHp; exact Hp]. enough_fuel. }
    destruct (advance_ahead p Hp Hlt) as (Hon & Htok & Hle & Hahead).
    apply (Safe_from p (advance p)); auto.
    apply Safe_bind; [exact Hon| |].
    + eapply Safe_weaken; [|apply IHn; exact Hon]. enough_fuel.
    + intros e q _ Hq _ _. apply Safe_ret; exact Hq.
  - (* primary *)
    intros p Hp. cbn [primary].
    destruct (matchesAny_onStream [LEFT_PAREN] p Hp) as [H|[H Hlt]];
      rewrite (bind_Normal _ _ _ _ _ H).
    2:{ destruct (advance_ahead p Hp Hlt) as (Hon & Htok & Hle & Hahead).
        apply (Safe_from p (advance p)); auto.
        apply Safe_bind; [exact Hon| |].
        - eapply Safe_weaken; [|apply IHe; exact Hon]. enough_fuel.
        - intros e q _ Hq _ _.
          destruct (consume_onStream RIGHT_PAREN
                      (js "Expected ')' after expression") q Hq)
            as [(token & Hc & Hlt')|(m & pos & l & c & ex & a & Hc)].
          + rewrite (bind_Normal _ _ _ _ _ Hc).
            destruct (advance_ahead q Hq Hlt') as (Hon' & Htok' & Hle' & _).
            apply (Safe_from q (advance q)); auto.
            apply Safe_ret; exact Hon'.
          + rewrite (bind_Throw _ _ _ _ _ Hc).
            apply Safe_ParseError; exact Hq. }
    destruct (check_onStream IDENTIFIER p Hp) as (found & Hcheck & _).
    rewrite (bind_Normal _ _ _ _ _ Hcheck).
    destruct found.
    + destruct (consume_onStream IDENTIFIER (js "Expecte identifier") p Hp)
        as [(token & Hc & Hlt)|(m & pos & l & c & ex & a & Hc)].
      * rewrite (bind_Normal _ _ _ _ _ Hc). simpl defined. rewrite bind_ret.
        destruct (advance_ahead p Hp Hlt) as (Hon & Htok & Hle & _).
        apply (Safe_from p (advance p)); auto.
        apply Safe_ret; exact Hon.
      * rewrite (bind_Throw _ _ _ _ _ Hc). apply Safe_ParseError; exact Hp.
    + destruct (peek_onStream p Hp) as (token & Hpeek & _).
      rewrite bind_get, Hpeek. simpl defined. rewrite bind_ret.
      destruct (Token.type token); apply Safe_fromToken; exact Hp.
Qed.

(** [parse()] is safe, and its fuel is enough. *)
Lemma parse_Safe p : onStream p -> Safe p True (parse p).
Proof.
  intros Hp. unfold parse.
  destruct (hasReachedEOF_onStream p Hp) as (atEOF & Heof & _).
  destruct (peek_onStream p Hp) as (token & Hpeek & _).
  rewrite (bind_Normal _ _ _ _ _ Heof).
  destruct atEOF.
  { rewrite bind_get, Hpeek. apply Safe_fromToken; exact Hp. }
  rewrite bind_get. apply Safe_bind; [exact Hp| |].
  - eapply Safe_weaken;
      [|apply (proj1 (grammar_Safe (fuelFor p))); exact Hp].
    intros _. unfold fuelFor, ahead. lia.
  - intros e q _ Hq _ _.
    destruct (hasReachedEOF_onStream q Hq) as (atEOF & Heof' & _).
    destruct (peek_onStream q Hq) as (token' & Hpeek' & _).
    rewrite (bind_Normal _ _ _ _ _ Heof').
    destruct atEOF; cbn [negb].
    + apply Safe_ret; exact Hq.
    + rewrite bind_get, Hpeek'. simpl defined. rewrite bind_ret.
      apply Safe_fromToken; exact Hq.
Qed.

End ParserFacts.

(* ===================================================================== *)
(** ** The repository's tests, run on the embedding *)
(* ===================================================================== *)

(** tokenizer.spec.ts, "tokenizes a simple identifier" *)
Example tokenize_slow :
  tokenize (js "slow")
  = Normal [ {| Token.type := IDENTIFIER; Token.value := js "slow";
                Token.position := 0; Token.line := 1; Token.column := 1 |};
             {| Token.type := EOF; Token.value := [];
                Token.position := 4; Token.line := 1; Token.column := 5 |} ].
Proof. vm_compute. reflexivity. Qed.

(** tokenizer.spec.ts, "handles Windows-style line endings (CRLF)" *)
Example tokenize_CRLF :
  match tokenize (js "slow" ++ [CR; LF] ++ js "and" ++ [CR; LF] ++ js "fast")
  with
  | Normal tokens =>
    typesAndValues tokens
    = [(IDENTIFIER, js "slow"); (AND, js "and"); (IDENTIFIER, js "fast");
       (EOF, [])] /\
    map Token.line tokens = [1; 2; 3; 3]
  | _ => False
  end.
Proof. vm_compute. split; reflexivity. Qed.

(** parser.spec.ts, "provides position information in errors" *)
Example parse_slow_and :
  parse (js "slow and")
  = Throw (ParseError
             (js "Unexpected end of input: expected identifier or "
                ++ [DQUOTE] ++ js "(" ++ [DQUOTE])
             8 1 9
             (js "identifier or " ++ [DQUOTE] ++ js "(" ++ [DQUOTE])
             (js "EOF")).
Proof. vm_compute. reflexivity. Qed.

(** parser.spec.ts, "handles complex precedence with multiple ANDs and ORs" *)
Example parse_a_or_b_and_c_or_d_and_e :
  parse (js "a or b and c or d and e")
  = Normal (Or (Or (Identifier (js "a"))
                   (And (Identifier (js "b")) (Identifier (js "c"))))
               (And (Identifier (js "d")) (Identifier (js "e")))).
Proof. vm_compute. reflexivity. Qed.

(** evaluator.spec.ts, 'evaluates "slow and not integration"' *)
Example evaluate_slow_and_not_integration :
  match parse (js "slow and not integration") with
  | Normal expr =>
    evaluate expr [js "slow"] = true /\
    evaluate expr [js "slow"; js "unit"] = true /\
    evaluate expr [js "slow"; js "integration"] = false /\
    evaluate expr [js "fast"] = false
  | _ => False
  end.
Proof. vm_compute. repeat split; reflexivity. Qed.

(* ===================================================================== *)
(** ** Parser: precedence, associativity and error messages *)
(* ===================================================================== *)

(** C4: [parse] fails with a [ParseError] whose message is exactly the
    specified one on the empty input, on ["and slow"], on ["()"], on
    ["slow and fast)"] and on ["(slow and fast"]. *)
Theorem parse_error_messages :
  parseErrorMessage (parse [])
  = Some (js "Unexpected end of input: expected expression") /\
  parseErrorMessage (parse (js "and slow"))
  = Some (js "Unexpected 'and': missing left operand") /\
  parseErrorMessage (parse (js "()"))
  = Some (js "Unexpected ')': missing opening parenthesis or expression") /\
  parseErrorMessage (parse (js "slow and fast)"))
  = Some (js "Unexpected token ')'") /\
  parseErrorMessage (parse (js "(slow and fast"))
  = Some (js "Expected ')' after expression").
Proof. repeat split; vm_compute; reflexivity. Qed.

(* ===================================================================== *)
(** ** Evaluator *)
(* ===================================================================== *)

Lemma evaluateIdentifier_In pattern entities :
  ExpressionEvaluator.evaluateIdentifier pattern entities = true
  <-> In pattern entities.
Proof.
  unfold ExpressionEvaluator.evaluateIdentifier. rewrite existsb_exists.
  split.
  - intros (entity & Hin & Heq). apply strictEquals_eq in Heq. congruence.
  - intros Hin. exists pattern. split; [exact Hin|].
    apply strictEquals_eq. reflexivity.
Qed.

(** C2: [evaluate(Identifier(p), S)] is true exactly when some string of [S]
    is equal to [p], code unit for code unit: the comparison is case
    sensitive and a [*] in [p] stands for itself.  On the empty list it is
    false. *)
Theorem evaluate_identifier_is_exact_match (p : jsstring)
  (subjects : list jsstring) :
  (evaluate (Identifier p) subjects = true <-> In p subjects) /\
  evaluate (Identifier p) [] = false /\
  evaluate (Identifier (js "test_*")) [js "test_foo"] = false /\
  evaluate (Identifier (js "test_*")) [js "test_*"] = true /\
  evaluate (Identifier (js "slow")) [js "Slow"] = false.
Proof.
  split; [apply evaluateIdentifier_In|].
  repeat split; vm_compute; reflexivity.
Qed.

(** C5: [evaluate] returns a boolean for every expression and every subject
    list, and that boolean obeys
    [evaluate(And(l, r), S) = evaluate(l, S) AND evaluate(r, S)],
    [evaluate(Or(l, r), S) = evaluate(l, S) OR evaluate(r, S)] and
    [evaluate(Not(e), S) = NOT evaluate(e, S)], also for nodes built by the
    factory functions; evaluating the right operand only when it matters
    gives the same boolean as evaluating both operands. *)
Theorem evaluate_total_and_compositional (l r e : Expression)
  (subjects : list jsstring) :
  evaluate (And l r) subjects
  = andb (evaluate l subjects) (evaluate r subjects) /\
  evaluate (Or l r) subjects
  = orb (evaluate l subjects) (evaluate r subjects) /\
  evaluate (Not e) subjects = negb (evaluate e subjects) /\
  evaluate (Factory.and l r) subjects
  = andb (evaluate l subjects) (evaluate r subjects) /\
  evaluate (Factory.or l r) subjects
  = orb (evaluate l subjects) (evaluate r subjects) /\
  evaluate (Factory.not e) subjects = negb (evaluate e subjects) /\
  (exists b : bool, evaluate e subjects = b) /\
  evaluate e subjects = evaluate_both_sides e subjects.
Proof.
  repeat split; try reflexivity.
  - exists (evaluate e subjects). reflexivity.
  - unfold evaluate, ExpressionEvaluator.evaluate. simpl.
    induction e as [pattern|a IHa b IHb|a IHa b IHb|a IHa]; simpl.
    + destruct (in_dec (list_eq_dec N.eq_dec) pattern subjects) as [Hin|Hout].
      * apply evaluateIdentifier_In. exact Hin.
      * apply not_true_is_false. rewrite evaluateIdentifier_In. exact Hout.
    + unfold ExpressionEvaluator.evaluateAnd. rewrite IHa, IHb.
      reflexivity.
    + unfold ExpressionEvaluator.evaluateOr. rewrite IHa, IHb.
      reflexivity.
    + unfold ExpressionEvaluator.evaluateNot. rewrite IHa. reflexivity.
Qed.

(** The [evaluate] member of what [createEvaluator(e)] returns: the
    instance holds [e] and nothing else, and calling its member on [S]
    returns what [evaluate(e, S)] returns. *)
Lemma createEvaluator_evaluate_member (e : Expression)
  (subjects : list jsstring) :
  createEvaluator e = {| ExpressionEvaluator.expression := e |} /\
  call (evaluateOf (createEvaluator e)) subjects
  = Normal (evaluate e subjects).
Proof. split; reflexivity. Qed.

(** C8: [createEvaluator(expression)] is specified, and documented in the
    readme, as the function from subjects to a boolean.  What evaluator.ts
    returns is an [ExpressionEvaluator] object: called on a subject list it
    throws a [TypeError], for every expression and every list, also at the
    readme's usage [createEvaluator(parse("slow and not integration"))]
    on [["slow", "unit"]], where [evaluate] on the same expression and
    subjects returns [true]. *)
Theorem createEvaluator_result_called_throws_TypeError :
  (forall (e : Expression) (subjects : list jsstring),
     call (JSObject (createEvaluator e)) subjects = Throw TypeError) /\
  exists expression,
    parse (js "slow and not integration") = Normal expression /\
    evaluate expression [js "slow"; js "unit"] = true /\
    call (JSObject (createEvaluator expression)) [js "slow"; js "unit"]
    = Throw TypeError.
Proof.
  split; [reflexivity|].
  eexists. split; [vm_compute; reflexivity|]. split; reflexivity.
Qed.

Lemma evaluate_identifier_is_exact_match_witness :
  In (js "slow") [js "fast"; js "slow"] /\
  evaluate (Identifier (js "slow")) [js "fast"; js "slow"] = true.
Proof.
  assert (H : In (js "slow") [js "fast"; js "slow"])
    by (right; left; reflexivity).
  split; [exact H|].
  apply (proj1 (evaluate_identifier_is_exact_match
                  (js "slow") [js "fast"; js "slow"])).
  exact H.
Defined.

(* ===================================================================== *)
(** ** Tokenizer *)
(* ===================================================================== *)

Lemma filter_isEOF_body body :
  Forall (fun token => Token.type token <> EOF) body ->
  filter isEOF body = [].
Proof.
  induction 1 as [|token body Hne _ IH]; [reflexivity|].
  simpl. unfold isEOF at 1.
  destruct (TokenType_eqb (Token.type token) EOF) eqn:E; [|exact IH].
  apply TokenType_eqb_eq in E. contradiction.
Qed.

(** C3: for every input string, the empty one and those of white space
    included, [tokenize] returns a sequence of tokens that is not empty, whose
    last element has type [EOF] and an empty value, and in which [EOF] occurs
    once: no element before the last has type [EOF]. *)
Theorem tokenize_ends_with_its_only_EOF (input : jsstring) :
  exists tokens eof,
    tokenize input = Normal tokens /\
    tokens <> [] /\
    nth_error tokens (length tokens - 1) = Some eof /\
    Token.type eof = EOF /\
    Token.value eof = [] /\
    length (filter isEOF tokens) = 1 /\
    Forall (fun token => Token.type token <> EOF) (removelast tokens).
Proof.
  destruct (tokenize_returns input)
    as (body & eof & Htok & Hbody & Htype & Hval & _).
  exists (body ++ [eof]), eof. rewrite length_app. simpl.
  replace (length body + 1 - 1) with (length body) by lia.
  repeat split; auto.
  - intros H. apply app_eq_nil in H as [_ H]. discriminate.
  - rewrite nth_error_app2, Nat.sub_diag by lia. reflexivity.
  - rewrite filter_app, (filter_isEOF_body body Hbody). simpl.
    unfold isEOF. rewrite Htype. reflexivity.
  - rewrite removelast_last. exact Hbody.
Qed.

(** C7: the [TokenizerError] branch cannot be reached.  For every input
    string [tokenize] returns; from every state of the tokenizer [#nextToken]
    returns a token; and [#readIdentifierOrKeyword] throws only when it is
    called at the end of the input or on white space or a parenthesis, which
    [#nextToken] never does. *)
Theorem tokenize_never_throws (input : jsstring) :
  (exists tokens, tokenize input = Normal tokens) /\
  (forall t, exists token t', Tokenizer.nextToken t = (Normal token, t')) /\
  (forall t,
      (exists token t',
          Tokenizer.readIdentifierOrKeyword t = (Normal token, t')) \/
      (match Tokenizer.peek t with
       | None => True
       | Some c => Text.isDelimiter c = true
       end /\
       Tokenizer.readIdentifierOrKeyword t
       = (Throw (TokenizerError
                   (js "Unexpected character '"
                      ++ Tokenizer.charText (Tokenizer.peek t) ++ js "'")
                   (Tokenizer.position t) (Tokenizer.line t)
                   (Tokenizer.column t)), t))).
Proof.
  split; [|split].
  - destruct (tokenize_returns input) as (body & eof & H & _).
    exists (body ++ [eof]). exact H.
  - intros t.
    destruct (TokenizerFacts.nextToken_scanToken t) as (token & t' & H & _).
    exists token, t'. exact H.
  - intros t. rewrite TokenizerFacts.peek_remaining.
    pose proof (TokenizerFacts.takeRun_spec (Text.remaining t))
      as Hspec.
    destruct (Text.takeRun (Text.remaining t))
      as [[|c run] rest]; destruct Hspec as (Hrem & Hrun & Hend).
    + right. simpl in Hrem. rewrite Hrem. split.
      * destruct rest; [exact I|exact Hend].
      * unfold Tokenizer.readIdentifierOrKeyword. rewrite bind_get.
        rewrite (bind_Normal _ _ _ _ _
                   (TokenizerFacts.readIdentifier_run [] t rest Hrem Hrun Hend)).
        rewrite TokenizerFacts.moved_0, bind_get.
        rewrite TokenizerFacts.peek_remaining, Hrem. reflexivity.
    + left. eexists _, _.
      apply (TokenizerFacts.readIdentifierOrKeyword_run c run t rest);
        assumption.
Qed.

Lemma matchKeyword_cases (run : jsstring) :
  (toLocaleLowerCase run = js "and" ->
   Text.keywordOrIdentifier run = AND) /\
  (toLocaleLowerCase run = js "or" ->
   Text.keywordOrIdentifier run = OR) /\
  (toLocaleLowerCase run = js "not" ->
   Text.keywordOrIdentifier run = NOT) /\
  (toLocaleLowerCase run <> js "and" ->
   toLocaleLowerCase run <> js "or" ->
   toLocaleLowerCase run <> js "not" ->
   Text.keywordOrIdentifier run = IDENTIFIER).
Proof.
  unfold Text.keywordOrIdentifier, Tokenizer.matchKeyword.
  repeat split.
  - intros ->. reflexivity.
  - intros ->. reflexivity.
  - intros ->. reflexivity.
  - intros Ha Ho Hn.
    rewrite <- strictEquals_eq in Ha, Ho, Hn.
    apply not_true_is_false in Ha, Ho, Hn. rewrite Ha, Ho, Hn. reflexivity.
Qed.

(** C6: keywords are recognised without regard to case, keep the text as it
    was typed, and are whole runs.  In any input, a maximal run of characters
    that are neither white space nor parentheses gives one token whose value
    is the run: of type [AND], [OR] or [NOT] when the run in lower case is
    [and], [or] or [not], and of type [IDENTIFIER] otherwise.  So
    [tokenize("AND")[0]] is an [AND] with value ["AND"], [tokenize("And")[0]]
    an [AND] with value ["And"], and [tokenize("android")[0]] an
    [IDENTIFIER] with value ["android"]. *)
Theorem keywords_are_whole_runs_in_any_case :
  (forall pre run rest : jsstring,
      Text.closed pre = true ->
      run <> [] ->
      Text.isRun run = true ->
      Text.endsRun rest = true ->
      exists tokensPre tokensRest tokens type,
        tokenize pre = Normal tokensPre /\
        tokenize rest = Normal tokensRest /\
        tokenize (pre ++ run ++ rest) = Normal tokens /\
        typesAndValues tokens
        = removelast (typesAndValues tokensPre)
            ++ (type, run) :: typesAndValues tokensRest /\
        (toLocaleLowerCase run = js "and" -> type = AND) /\
        (toLocaleLowerCase run = js "or" -> type = OR) /\
        (toLocaleLowerCase run = js "not" -> type = NOT) /\
        (toLocaleLowerCase run <> js "and" ->
         toLocaleLowerCase run <> js "or" ->
         toLocaleLowerCase run <> js "not" -> type = IDENTIFIER)) /\
  (exists tokens,
      tokenize (js "AND") = Normal tokens /\
      hd_error (typesAndValues tokens) = Some (AND, js "AND")) /\
  (exists tokens,
      tokenize (js "And") = Normal tokens /\
      hd_error (typesAndValues tokens) = Some (AND, js "And")) /\
  (exists tokens,
      tokenize (js "android") = Normal tokens /\
      hd_error (typesAndValues tokens) = Some (IDENTIFIER, js "android")).
Proof.
  split.
  - intros pre run rest Hpre Hne Hrun Hrest.
    destruct run as [|c run]; [contradiction|].
    destruct (tokenize_returns pre) as (b1 & e1 & H1 & _ & _ & _ & S1).
    destruct (tokenize_returns rest) as (b2 & e2 & H2 & _ & _ & _ & S2).
    destruct (tokenize_returns (pre ++ (c :: run) ++ rest))
      as (b & e & H & _ & _ & _ & S0).
    exists (b1 ++ [e1]), (b2 ++ [e2]), (b ++ [e]),
      (Text.keywordOrIdentifier (c :: run)).
    repeat split; auto; try apply matchKeyword_cases.
    rewrite S0, S1, S2.
    rewrite TokenizerFacts.scan_run by (auto; lia).
    rewrite !length_app. cbn [length].
    f_equal; [f_equal|f_equal];
      apply TokenizerFacts.scan_bound; lia.
  - repeat split; eexists; split; vm_compute; reflexivity.
Qed.

Lemma keywords_are_whole_runs_in_any_case_witness :
  exists tokens,
    tokenize (js "fast (aNd) slow") = Normal tokens /\
    typesAndValues tokens
    = [(IDENTIFIER, js "fast"); (LEFT_PAREN, js "("); (AND, js "aNd");
       (RIGHT_PAREN, js ")"); (IDENTIFIER, js "slow"); (EOF, [])].
Proof.
  destruct (proj1 keywords_are_whole_runs_in_any_case
              (js "fast (") (js "aNd") (js ") slow")
              eq_refl ltac:(discriminate) eq_refl eq_refl)
    as (tokensPre & tokensRest & tokens & type & Hpre & Hrest & Htokens
        & Hscan & Hand & _).
  exists tokens. split; [exact Htokens|].
  rewrite Hscan, (Hand eq_refl).
  vm_compute in Hpre. injection Hpre as <-.
  vm_compute in Hrest. injection Hrest as <-.
  vm_compute. reflexivity.
Defined.

(** C9: white space around a text does not change the types and values of
    its tokens; [tokenize(" a ")] and [tokenize("a")] have the same length
    and agree in type and value at every index, and differ in positions. *)
Theorem surrounding_whitespace_is_ignored :
  (forall ws1 s ws2 : jsstring,
      Text.allWhitespace ws1 = true ->
      Text.allWhitespace ws2 = true ->
      exists tokens1 tokens2,
        tokenize (ws1 ++ s ++ ws2) = Normal tokens1 /\
        tokenize s = Normal tokens2 /\
        length tokens1 = length tokens2 /\
        typesAndValues tokens1 = typesAndValues tokens2) /\
  (exists tokens1 tokens2,
      tokenize (js " a ") = Normal tokens1 /\
      tokenize (js "a") = Normal tokens2 /\
      length tokens1 = length tokens2 /\
      typesAndValues tokens1 = typesAndValues tokens2 /\
      map Token.position tokens1 <> map Token.position tokens2).
Proof.
  split.
  - intros ws1 s ws2 Hws1 Hws2.
    destruct (tokenize_returns (ws1 ++ s ++ ws2))
      as (b1 & e1 & H1 & _ & _ & _ & S1).
    destruct (tokenize_returns s) as (b2 & e2 & H2 & _ & _ & _ & S2).
    exists (b1 ++ [e1]), (b2 ++ [e2]).
    assert (Heq : typesAndValues (b1 ++ [e1]) = typesAndValues (b2 ++ [e2])).
    { rewrite S1, S2.
      rewrite TokenizerFacts.scan_surrounding_whitespace by (auto; lia).
      apply TokenizerFacts.scan_bound; rewrite ?length_app; lia. }
    repeat split; auto.
    apply (f_equal (@length _)) in Heq. unfold typesAndValues in Heq.
    rewrite !length_map in Heq. exact Heq.
  - eexists _, _. repeat split; try (vm_compute; reflexivity).
    vm_compute. discriminate.
Qed.

Lemma surrounding_whitespace_is_ignored_witness :
  exists tokens1 tokens2,
    tokenize ([TAB; CR; LF] ++ js "not  x" ++ [SPACE; LF])
    = Normal tokens1 /\
    tokenize (js "not  x") = Normal tokens2 /\
    length tokens1 = length tokens2 /\
    typesAndValues tokens1 = typesAndValues tokens2.
Proof.
  exact (proj1 surrounding_whitespace_is_ignored
           [TAB; CR; LF] (js "not  x") [SPACE; LF] eq_refl eq_refl).
Defined.

(* ===================================================================== *)
(** ** Parser: the cursor and the [EOF] token *)
(* ===================================================================== *)

(** C10: on the tokens [tokenize] returns, which end in their only [EOF]
    token, the parser's cursor never moves past the [EOF] token and never
    consumes it.  From every state whose cursor is on the stream,
    [#peek] finds a token, [#matchesAny] and [#consume] leave the cursor on
    the stream and do not move it when it is on the [EOF] token, and
    [#expression], which runs all the grammar methods, moves it forward
    without leaving the stream; none of them reads a property of
    [undefined].  So [parse()] ends without a [TypeError], with its cursor
    on the stream. *)
Theorem parser_cursor_never_passes_EOF (input : jsstring)
  (ts : list Token.t) :
  tokenize input = Normal ts ->
  Stream.isTokenStream ts /\
  (forall p,
      Parser.tokens p = ts -> Parser.current p < length ts ->
      (exists token, Parser.peek p = Some token) /\
      (forall types, exists found p',
          Parser.matchesAny types p = (Normal found, p') /\
          Parser.tokens p' = ts /\ Parser.current p' < length ts /\
          (S (Parser.current p) = length ts -> p' = p)) /\
      (forall type message, exists r p',
          Parser.consume type message p = (r, p') /\
          r <> Throw TypeError /\ r <> OutOfFuel /\
          Parser.tokens p' = ts /\ Parser.current p' < length ts /\
          (S (Parser.current p) = length ts -> p' = p)) /\
      (forall fuel,
          fst (Parser.expression fuel p) <> Throw TypeError /\
          Parser.tokens (snd (Parser.expression fuel p)) = ts /\
          Parser.current p <= Parser.current (snd (Parser.expression fuel p)) /\
          Parser.current (snd (Parser.expression fuel p)) < length ts)) /\
  fst (Parser.parse (Parser.new ts)) <> Throw TypeError /\
  fst (Parser.parse (Parser.new ts)) <> OutOfFuel /\
  Parser.current (snd (Parser.parse (Parser.new ts))) < length ts.
Proof.
  intros Htok.
  assert (Hstream : Stream.isTokenStream ts).
  { destruct (tokenize_returns input) as (body & eof & H & Hbody & Heof & _).
    rewrite H in Htok. injection Htok as <-. exists body, eof. auto. }
  split; [exact Hstream|]. split.
  - intros p Hts Hcur.
    assert (Hp : Stream.onStream p) by (split; rewrite Hts; assumption).
    split; [|split; [|split]].
    + destruct (ParserFacts.peek_onStream p Hp) as (token & H & _).
      exists token. exact H.
    + intros types.
      destruct (ParserFacts.matchesAny_onStream types p Hp) as [H|[H Hlt]].
      * exists false, p. auto.
      * destruct (ParserFacts.advance_onStream p Hp Hlt) as [Hadv _].
        exists true, (Parser.advance p). rewrite Hts in Hlt.
        split; [exact H|]. rewrite Hadv. simpl.
        repeat split; auto; lia.
    + intros type message.
      destruct (ParserFacts.consume_onStream type message p Hp)
        as [(token & H & Hlt)|(m & pos & l & c & e & a & H)].
      * destruct (ParserFacts.advance_onStream p Hp Hlt) as [Hadv _].
        eexists _, _. split; [exact H|]. rewrite Hts in Hlt.
        rewrite Hadv. simpl.
        repeat split; auto; try discriminate; lia.
      * eexists _, _. split; [exact H|].
        repeat split; auto; discriminate.
    + intros fuel.
      destruct (proj1 (ParserFacts.grammar_Safe fuel) p Hp)
        as (H1 & H2 & H3 & H4 & _).
      rewrite Hts in *. auto.
  - assert (Hp : Stream.onStream (Parser.new ts)).
    { split; simpl; [exact Hstream|].
      destruct Hstream as (body & eof & -> & _).
      rewrite length_app. simpl. lia. }
    destruct (ParserFacts.parse_Safe _ Hp) as (_ & _ & H3 & H4 & H5).
    simpl in H3. auto.
Qed.

Lemma parser_cursor_never_passes_EOF_witness :
  exists ts,
    tokenize (js "not (a or") = Normal ts /\
    Stream.isTokenStream ts /\
    (exists found p',
        Parser.matchesAny [EOF]
          {| Parser.tokens := ts; Parser.current := 4 |}
        = (Normal found, p') /\
        p' = {| Parser.tokens := ts; Parser.current := 4 |}) /\
    fst (Parser.parse (Parser.new ts)) <> Throw TypeError /\
    fst (Parser.parse (Parser.new ts)) <> OutOfFuel /\
    Parser.current (snd (Parser.parse (Parser.new ts))) < length ts.
Proof.
  eexists. split; [vm_compute; reflexivity|].
  pose proof (parser_cursor_never_passes_EOF (js "not (a or") _ eq_refl)
    as (Hstream & Hstates & Hparse).
  split; [exact Hstream|]. split; [|exact Hparse].
  destruct (Hstates {| Parser.tokens := _; Parser.current := 4 |} eq_refl)
    as (_ & Hmatch & _); [simpl; lia|].
  destruct (Hmatch [EOF]) as (found & p' & Hrun & _ & _ & Hstay).
  exists found, p'. split; [exact Hrun|]. apply Hstay. reflexivity.
Defined.

(* ===================================================================== *)
(** ** Tokenizer: the shape of the tokens *)
(* ===================================================================== *)

Module TokenShapes.
Import Tokenizer Text.

Lemma keywordOrIdentifier_shape c run :
  isRun (c :: run) = true ->
  tokenShape (keywordOrIdentifier (c :: run)) (c :: run) = true.
Proof.
  intros Hrun. unfold keywordOrIdentifier, matchKeyword.
  destruct (strictEquals (toLocaleLowerCase (c :: run)) (js "and")) eqn:Ea.
  { unfold tokenShape. rewrite Hrun, Ea. reflexivity. }
  destruct (strictEquals (toLocaleLowerCase (c :: run)) (js "or")) eqn:Eo.
  { unfold tokenShape. rewrite Hrun, Eo. reflexivity. }
  destruct (strictEquals (toLocaleLowerCase (c :: run)) (js "not")) eqn:En.
  { unfold tokenShape. rewrite Hrun, En. reflexivity. }
  unfold tokenShape. rewrite Hrun, Ea, Eo, En. reflexivity.
Qed.

Lemma scanToken_shape s type value s' :
  scanToken s = ((type, value), s') -> tokenShape type value = true.
Proof.
  unfold scanToken.
  destruct (dropWhitespace s) as [|c r] eqn:Hdrop.
  { intros H; injection H as <- <- _. reflexivity. }
  destruct (N.eqb c LPAREN) eqn:Hl.
  { intros H; injection H as <- <- _. reflexivity. }
  destruct (N.eqb c RPAREN) eqn:Hr.
  { intros H; injection H as <- <- _. reflexivity. }
  pose proof (TokenizerFacts.takeRun_spec (c :: r)) as Hspec.
  pose proof (TokenizerFacts.isDelimiter_false c
                (TokenizerFacts.dropWhitespace_head _ _ _ Hdrop) Hl Hr) as Hc.
  revert Hspec. cbn [takeRun]. rewrite Hc.
  destruct (takeRun r) as [run rest]. intros (_ & Hrun & _).
  intros H; injection H as <- <- _.
  apply keywordOrIdentifier_shape. exact Hrun.
Qed.

Lemma scan_shape n : forall s,
  Forall (fun token => tokenShape (fst token) (snd token) = true) (scan n s).
Proof.
  induction n as [|n IH]; intros s; cbn [scan]; [constructor|].
  destruct (scanToken s) as [[type value] s'] eqn:E.
  constructor.
  - apply (scanToken_shape _ _ _ _ E).
  - destruct (TokenType_eqb _ _); [constructor|apply IH].
Qed.

Lemma scan_length n : forall s, length (scan n s) <= n.
Proof.
  induction n as [|n IH]; intros s; cbn [scan]; [simpl; lia|].
  destruct (scanToken s) as [token s']. simpl.
  destruct (TokenType_eqb _ _); simpl; [lia|].
  specialize (IH s'). lia.
Qed.

End TokenShapes.

Lemma tokenize_shapes input :
  exists tokens,
    tokenize input = Normal tokens /\
    Forall (fun token =>
              tokenShape (Token.type token) (Token.value token) = true)
           tokens.
Proof.
  destruct (tokenize_returns input) as (body & eof & H & _ & _ & _ & Hscan).
  exists (body ++ [eof]). split; [exact H|].
  pose proof (TokenShapes.scan_shape (S (length input)) input) as Hshape.
  rewrite <- Hscan in Hshape. unfold typesAndValues in Hshape.
  rewrite Forall_map in Hshape. exact Hshape.
Qed.

(** X7: the type of a token tells what its value is.  In the tokens of any
    input, a [LEFT_PAREN] has value ["("], a [RIGHT_PAREN] value [")"] and
    the [EOF] token the empty value; an [AND], [OR] or [NOT] token has a
    value that is [and], [or] or [not] in lower case; an [IDENTIFIER] has a
    value that is not empty, holds no white space and no parenthesis, and is
    none of the three keywords in any case.  And there is at most one token
    for each character of the input, besides the [EOF] token. *)
Theorem tokens_have_the_shape_of_their_type (input : jsstring) :
  exists tokens,
    tokenize input = Normal tokens /\
    Forall (fun token =>
              tokenShape (Token.type token) (Token.value token) = true)
           tokens /\
    length tokens <= length input + 1.
Proof.
  destruct (tokenize_returns input) as (body & eof & H & _ & _ & _ & Hscan).
  exists (body ++ [eof]). split; [exact H|]. split.
  - destruct (tokenize_shapes input) as (tokens & H' & Hshape).
    rewrite H in H'. injection H' as <-. exact Hshape.
  - pose proof (TokenShapes.scan_length (S (length input)) input) as Hlen.
    rewrite <- Hscan in Hlen. unfold typesAndValues in Hlen.
    rewrite length_map in Hlen. lia.
Qed.

(* ===================================================================== *)
(** ** Tokenizer: where the tokens are in the input *)
(* ===================================================================== *)

Module TokenLayout.
Import Tokenizer Text.

Lemma inside_advance t : inside t -> inside (advance t).
Proof.
  unfold inside, advance. intros H.
  destruct (position t <? length (input t)) eqn:E; simpl; [|exact H].
  apply Nat.ltb_lt in E. lia.
Qed.

Lemma inside_newLine t : inside t -> inside (newLine t).
Proof. exact (fun H => H). Qed.

Lemma skipWhitespace_loop_inside fuel : forall t r t',
  skipWhitespace_loop fuel t = (r, t') -> inside t -> inside t'.
Proof.
  induction fuel as [|fuel IH]; intros t r t'; cbn [skipWhitespace_loop].
  { intros H; injection H as _ <-. auto. }
  rewrite bind_get.
  destruct (position t <? length (input t));
    [|intros H; injection H as _ <-; auto].
  destruct (charIs (peek t) SPACE || charIs (peek t) TAB).
  { rewrite bind_modify. intros H Hin.
    apply (IH _ _ _ H). apply inside_advance. exact Hin. }
  destruct (charIs (peek t) LF).
  { rewrite !bind_modify. intros H Hin.
    apply (IH _ _ _ H). apply inside_newLine, inside_advance. exact Hin. }
  destruct (charIs (peek t) CR); [|intros H; injection H as _ <-; auto].
  rewrite bind_modify, bind_get.
  destruct (charIs (peek (advance t)) LF).
  - rewrite !bind_modify. intros H Hin.
    apply (IH _ _ _ H).
    apply inside_newLine, inside_advance, inside_advance. exact Hin.
  - rewrite bind_ret, bind_modify. intros H Hin.
    apply (IH _ _ _ H). apply inside_newLine, inside_advance. exact Hin.
Qed.

Lemma position_remaining t :
  inside t -> position t + length (remaining t) = length (input t).
Proof. unfold inside. rewrite TokenizerFacts.length_remaining. lia. Qed.

(** [#nextToken] skips white space only, and returns the text it stops at. *)
Lemma nextToken_laidOut t :
  inside t ->
  exists token t',
    nextToken t = (Normal token, t') /\
    input t' = input t /\
    inside t' /\
    scanToken (remaining t)
    = ((Token.type token, Token.value token), remaining t') /\
    position t <= Token.position token /\
    allWhitespace
      (firstn (Token.position token - position t) (remaining t)) = true /\
    firstn (length (Token.value token))
           (skipn (Token.position token) (input t))
    = Token.value token /\
    position t' = Token.position token + length (Token.value token) /\
    (Token.type token = EOF -> Token.position token = length (input t)).
Proof.
  intros Hin.
  destruct (TokenizerFacts.nextToken_scanToken t)
    as (token & t' & Hnext & Hinput & Hscan).
  exists token, t'. split; [exact Hnext|]. split; [exact Hinput|].
  destruct (TokenizerFacts.skipWhitespace_drops t)
    as (t1 & Hskip & Hin1 & Hdrop).
  assert (Hinside1 : inside t1).
  { revert Hskip. unfold skipWhitespace. rewrite bind_get.
    intros H. apply (skipWhitespace_loop_inside _ _ _ _ H Hin). }
  destruct (TokenizerFacts.dropWhitespace_split (remaining t))
    as (ws & Hsplit & Hws).
  rewrite <- Hdrop in Hsplit.
  pose proof (position_remaining t Hin) as Hp.
  pose proof (position_remaining t1 Hinside1) as Hp1.
  rewrite Hin1 in Hp1.
  assert (Hpos1 : position t1 = position t + length ws).
  { rewrite Hsplit, length_app in Hp. lia. }
  assert (Hgap : allWhitespace (firstn (position t1 - position t) (remaining t))
                 = true).
  { rewrite Hsplit at 1. replace (position t1 - position t) with (length ws) by lia.
    rewrite firstn_app, Nat.sub_diag, firstn_all. simpl.
    rewrite app_nil_r. exact Hws. }
  revert Hnext. unfold nextToken.
  rewrite (bind_Normal _ _ _ _ _ Hskip), bind_get.
  rewrite TokenizerFacts.leb_remaining, TokenizerFacts.peek_remaining.
  remember (remaining t1) as text eqn:Hrem.
  destruct text as [|c r]; symmetry in Hrem.
  { intros H; injection H as <- <-.
    split; [exact Hinside1|]. split; [exact Hscan|].
    cbn [createToken Token.position Token.value Token.type length firstn].
    simpl in Hp1. repeat split; auto; lia. }
  pose proof (TokenizerFacts.advance_moved t1 c r Hrem) as Hadv.
  assert (Htext : skipn (position t1) (input t) = c :: r)
    by (rewrite <- Hin1; exact Hrem).
  simpl in Hp1.
  cbn [hd_error]. rewrite !TokenizerFacts.charIs_Some.
  destruct (N.eqb c LPAREN) eqn:Hl.
  { rewrite bind_modify. intros H; injection H as <- <-.
    apply N.eqb_eq in Hl. subst c.
    split; [apply inside_advance; exact Hinside1|].
    split; [exact Hscan|].
    cbn [createToken Token.position Token.value Token.type length].
    rewrite Htext, Hadv. unfold moved. cbn [position firstn].
    repeat split; auto; try lia; discriminate. }
  destruct (N.eqb c RPAREN) eqn:Hr.
  { rewrite bind_modify. intros H; injection H as <- <-.
    apply N.eqb_eq in Hr. subst c.
    split; [apply inside_advance; exact Hinside1|].
    split; [exact Hscan|].
    cbn [createToken Token.position Token.value Token.type length].
    rewrite Htext, Hadv. unfold moved. cbn [position firstn].
    repeat split; auto; try lia; discriminate. }
  pose proof (TokenizerFacts.takeRun_spec (c :: r)) as Hspec.
  assert (Hc : isDelimiter c = false).
  { apply TokenizerFacts.isDelimiter_false; auto.
    apply (TokenizerFacts.dropWhitespace_head (remaining t) c r).
    rewrite <- Hdrop. reflexivity. }
  revert Hspec. cbn [takeRun]. rewrite Hc.
  destruct (takeRun r) as [run rest]. intros (Heq & Hrun & Hend).
  assert (Hlen : length (c :: r) = length (c :: run) + length rest)
    by (rewrite Heq, length_app; reflexivity).
  rewrite Heq in Hrem, Htext.
  rewrite (TokenizerFacts.readIdentifierOrKeyword_run c run t1 rest
             Hrem Hrun Hend).
  intros H; injection H as <- <-.
  split; [unfold inside, moved; cbn [input position]; rewrite Hin1;
          simpl in Hlen |- *; lia|].
  split; [exact Hscan|].
  cbn [Token.position Token.value Token.type].
  rewrite Htext. unfold moved. cbn [position].
  repeat split; auto; try lia.
  - rewrite firstn_app, Nat.sub_diag, firstn_all. simpl.
    rewrite app_nil_r. reflexivity.
  - intros H. destruct (TokenizerFacts.keywordOrIdentifier_not_EOF _ H).
Qed.

Lemma tokenize_loop_laidOut fuel : forall tokens t,
  inside t ->
  length (remaining t) < fuel ->
  exists body eof t',
    tokenize_loop fuel tokens t = (Normal (tokens ++ body ++ [eof]), t') /\
    laidOut (input t) (position t) (body ++ [eof]) /\
    Token.position eof = length (input t).
Proof.
  induction fuel as [|fuel IH]; intros tokens t Hin Hfuel; [lia|].
  cbn [tokenize_loop].
  destruct (nextToken_laidOut t Hin)
    as (token & t1 & Hnext & Hinput & Hin1 & Hscan & Hle & Hgap & Hval
        & Hpos & Heof).
  rewrite (bind_Normal _ _ _ _ _ Hnext).
  assert (Hhead : position t <= Token.position token /\
                  allWhitespace
                    (firstn (Token.position token - position t)
                            (skipn (position t) (input t))) = true /\
                  firstn (length (Token.value token))
                         (skipn (Token.position token) (input t))
                  = Token.value token /\
                  Token.position token + length (Token.value token)
                  <= length (input t)).
  { repeat split; auto. rewrite <- Hpos, <- Hinput. exact Hin1. }
  destruct (TokenType_eqb (Token.type token) EOF) eqn:E; cbn [negb].
  - apply TokenType_eqb_eq in E.
    exists [], token, t1. simpl. repeat split; auto; apply Hhead.
  - assert (Hne : Token.type token <> EOF).
    { intros H. apply TokenType_eqb_eq in H. congruence. }
    pose proof (TokenizerFacts.scanToken_shorter _ _ _ Hscan Hne) as Hshort.
    destruct (IH (tokens ++ [token]) t1 Hin1)
      as (body & eof & t' & Hloop & Hlaid & Hlast); [lia|].
    exists (token :: body), eof, t'. rewrite Hloop, <- app_assoc.
    split; [reflexivity|]. rewrite Hinput, Hpos in Hlaid.
    rewrite Hinput in Hlast. split; [|exact Hlast].
    simpl. repeat split; try apply Hhead. exact Hlaid.
Qed.

End TokenLayout.

Lemma tokens_at_the_end input :
  exists body eof,
    tokenize input = Normal (body ++ [eof]) /\
    Token.position eof = length input.
Proof.
  unfold tokenize, Tokenizer.tokenize. rewrite bind_get.
  destruct (TokenLayout.tokenize_loop_laidOut
              (S (length (Tokenizer.input (Tokenizer.new input))
                  - Tokenizer.position (Tokenizer.new input)))
              [] (Tokenizer.new input))
    as (body & eof & t' & -> & _ & Hlast).
  { unfold inside. simpl. lia. }
  { unfold Text.remaining. simpl. lia. }
  exists body, eof. simpl in *. auto.
Qed.

(** X8: the tokenizer drops white space and nothing else.  The tokens of an
    input lie in it in their order, without overlap: the value of each token
    is the text of the input at the token's [position], only white space
    separates a token from the one before it (or from the start of the
    input), and the [EOF] token is at the end of the input. *)
Theorem tokens_are_laid_out_in_the_input (input : jsstring) :
  exists body eof,
    tokenize input = Normal (body ++ [eof]) /\
    laidOut input 0 (body ++ [eof]) /\
    Token.position eof = length input.
Proof.
  unfold tokenize, Tokenizer.tokenize. rewrite bind_get.
  destruct (TokenLayout.tokenize_loop_laidOut
              (S (length (Tokenizer.input (Tokenizer.new input))
                  - Tokenizer.position (Tokenizer.new input)))
              [] (Tokenizer.new input))
    as (body & eof & t' & -> & Hlaid & Hlast).
  { unfold inside. simpl. lia. }
  { unfold Text.remaining. simpl. lia. }
  exists body, eof. simpl in *. auto.
Qed.

(* ===================================================================== *)
(** ** Evaluator: what the result depends on *)
(* ===================================================================== *)

Lemma evaluateIdentifier_agree pattern S1 S2 :
  (In pattern S1 <-> In pattern S2) ->
  ExpressionEvaluator.evaluateIdentifier pattern S1
  = ExpressionEvaluator.evaluateIdentifier pattern S2.
Proof.
  intros H.
  destruct (ExpressionEvaluator.evaluateIdentifier pattern S1) eqn:E1;
    destruct (ExpressionEvaluator.evaluateIdentifier pattern S2) eqn:E2;
    try reflexivity.
  - apply evaluateIdentifier_In, H, evaluateIdentifier_In in E1. congruence.
  - apply evaluateIdentifier_In, H, evaluateIdentifier_In in E2. congruence.
Qed.

Lemma eval_agree e S1 S2 :
  (forall p, In p (patterns e) -> (In p S1 <-> In p S2)) ->
  ExpressionEvaluator.eval e S1 = ExpressionEvaluator.eval e S2.
Proof.
  induction e as [pattern|l IHl r IHr|l IHl r IHr|e IH]; simpl; intros H.
  - apply evaluateIdentifier_agree. apply H. left. reflexivity.
  - unfold ExpressionEvaluator.evaluateAnd.
    rewrite IHl, IHr; auto; intros p Hp; apply H, in_or_app; auto.
  - unfold ExpressionEvaluator.evaluateOr.
    rewrite IHl, IHr; auto; intros p Hp; apply H, in_or_app; auto.
  - unfold ExpressionEvaluator.evaluateNot. rewrite IH; auto.
Qed.

(** X1: [evaluate] looks at the entities only through the patterns of the
    expression: two entity lists that contain the same ones of those
    patterns give the same result. *)
Theorem evaluate_depends_on_its_patterns (e : Expression)
  (entities1 entities2 : list jsstring) :
  (forall p, In p (patterns e) -> (In p entities1 <-> In p entities2)) ->
  evaluate e entities1 = evaluate e entities2.
Proof. intros H. apply eval_agree. exact H. Qed.

Lemma evaluate_depends_on_its_patterns_witness :
  evaluate (And (Identifier (js "slow")) (Not (Identifier (js "unit"))))
    [js "slow"; js "linux"]
  = evaluate (And (Identifier (js "slow")) (Not (Identifier (js "unit"))))
      [js "windows"; js "slow"].
Proof.
  apply evaluate_depends_on_its_patterns.
  intros p [<-|[<-|[]]]; simpl; split; intros H;
    repeat (destruct H as [H|H]; try discriminate H); auto.
Defined.

(** X2: the entity list is a set to [evaluate]: the order of the entities
    and their repetitions do not change the result. *)
Theorem evaluate_ignores_order_and_repetition (e : Expression)
  (entities1 entities2 : list jsstring) :
  (forall entity, In entity entities1 <-> In entity entities2) ->
  evaluate e entities1 = evaluate e entities2.
Proof. intros H. apply eval_agree. intros p _. apply H. Qed.

Lemma evaluate_ignores_order_and_repetition_witness :
  evaluate (Or (Identifier (js "a")) (Not (Identifier (js "b"))))
    [js "b"; js "a"; js "b"]
  = evaluate (Or (Identifier (js "a")) (Not (Identifier (js "b"))))
      [js "a"; js "b"].
Proof.
  apply evaluate_ignores_order_and_repetition.
  intros entity; simpl; tauto.
Defined.

(** X3: on an expression without [not], more entities can only turn the
    result from false to true; and such an expression never matches the
    empty entity list. *)
Theorem evaluate_notFree_is_monotone (e : Expression)
  (entities1 entities2 : list jsstring) :
  notFree e = true ->
  incl entities1 entities2 ->
  (evaluate e entities1 = true -> evaluate e entities2 = true) /\
  evaluate e [] = false.
Proof.
  intros Hfree Hincl.
  unfold evaluate, ExpressionEvaluator.evaluate; simpl. split.
  - induction e as [pattern|l IHl r IHr|l IHl r IHr|e IH]; simpl in *.
    + rewrite !evaluateIdentifier_In. apply Hincl.
    + apply andb_true_iff in Hfree as [Hl Hr].
      unfold ExpressionEvaluator.evaluateAnd.
      destruct (ExpressionEvaluator.eval l entities1); [|discriminate].
      intros H. rewrite (IHl Hl eq_refl). apply IHr; assumption.
    + apply andb_true_iff in Hfree as [Hl Hr].
      unfold ExpressionEvaluator.evaluateOr.
      destruct (ExpressionEvaluator.eval l entities1).
      * intros _. rewrite (IHl Hl eq_refl). reflexivity.
      * intros H. rewrite (IHr Hr H).
        destruct (ExpressionEvaluator.eval l entities2); reflexivity.
    + discriminate.
  - clear Hincl.
    induction e as [pattern|l IHl r IHr|l IHl r IHr|e IH]; simpl in *.
    + reflexivity.
    + apply andb_true_iff in Hfree as [Hl Hr].
      unfold ExpressionEvaluator.evaluateAnd. rewrite (IHl Hl). reflexivity.
    + apply andb_true_iff in Hfree as [Hl Hr].
      unfold ExpressionEvaluator.evaluateOr. rewrite (IHl Hl). exact (IHr Hr).
    + discriminate.
Qed.

Lemma evaluate_notFree_is_monotone_witness :
  evaluate (And (Identifier (js "a")) (Or (Identifier (js "b"))
                                          (Identifier (js "c"))))
    [js "c"; js "z"; js "a"] = true.
Proof.
  apply (proj1 (evaluate_notFree_is_monotone
                  (And (Identifier (js "a"))
                       (Or (Identifier (js "b")) (Identifier (js "c"))))
                  [js "a"; js "c"] [js "c"; js "z"; js "a"]
                  eq_refl
                  ltac:(intros x [<-|[<-|[]]]; simpl; auto))).
  reflexivity.
Defined.





(* ===================================================================== *)
(** ** Parser: how [parse] fails *)
(* ===================================================================== *)

Module ParserErrors.
Import Parser.

Lemma thrown_ret {A} (a : A) p : thrownAtCursor (ret a p).
Proof. intros e H. discriminate H. Qed.

Lemma thrown_outOfFuel {A} p : thrownAtCursor (outOfFuel (A := A) p).
Proof. intros e H. discriminate H. Qed.

Lemma thrown_fromToken {A} message expected p :
  thrownAtCursor (throw (A := A) (fromToken message (peek p) expected) p).
Proof. intros e H. injection H as <-. eauto. Qed.

Lemma thrown_bind {A B} (m : M state A) (k : A -> M state B) p :
  thrownAtCursor (m p) ->
  (forall a q, m p = (Normal a, q) -> thrownAtCursor (k a q)) ->
  thrownAtCursor (bind m k p).
Proof.
  intros Hm Hk. unfold bind.
  destruct (m p) as [[a|e|] q] eqn:E.
  - apply (Hk a q eq_refl).
  - intros e' H. simpl in H. injection H as <-. apply (Hm e). reflexivity.
  - intros e' H. discriminate H.
Qed.

Lemma thrown_defined_peek p : thrownAtCursor (defined (peek p) p).
Proof.
  destruct (peek p) as [token|] eqn:E; simpl.
  - apply thrown_ret.
  - intros e H. injection H as <-. simpl. rewrite E.
    exists [], []. reflexivity.
Qed.

Lemma hasReachedEOF_same p b q : hasReachedEOF p = (Normal b, q) -> q = p.
Proof.
  cbv beta iota delta [hasReachedEOF bind get defined ret throw].
  destruct (peek p); cbv beta iota; congruence.
Qed.

Lemma thrown_hasReachedEOF p : thrownAtCursor (hasReachedEOF p).
Proof.
  unfold hasReachedEOF. rewrite bind_get.
  apply thrown_bind; [apply thrown_defined_peek|].
  intros; apply thrown_ret.
Qed.

Lemma check_same type p b q :
  check type p = (Normal b, q) ->
  q = p /\ (b = true -> exists token, peek p = Some token).
Proof.
  cbv beta iota delta [check hasReachedEOF bind get defined ret throw].
  destruct (peek p) as [token|] eqn:E; cbv beta iota.
  - destruct (TokenType_eqb (Token.type token) EOF); cbv beta iota;
      rewrite ?E; cbv beta iota;
      intros H; inversion H; subst; split; eauto; easy.
  - discriminate.
Qed.

Lemma thrown_check type p : thrownAtCursor (check type p).
Proof.
  unfold check.
  apply thrown_bind; [apply thrown_hasReachedEOF|].
  intros atEOF q H. apply hasReachedEOF_same in H as ->.
  destruct atEOF; [apply thrown_ret|].
  rewrite bind_get.
  apply thrown_bind; [apply thrown_defined_peek|].
  intros; apply thrown_ret.
Qed.

Lemma thrown_matchesAny types p : thrownAtCursor (matchesAny types p).
Proof.
  induction types as [|type types IH]; simpl; [apply thrown_ret|].
  apply thrown_bind; [apply thrown_check|].
  intros found q H. apply check_same in H as [-> _].
  destruct found; [|exact IH].
  rewrite bind_modify. apply thrown_ret.
Qed.

Lemma consume_Some type message p v q :
  consume type message p = (Normal v, q) -> exists token, v = Some token.
Proof.
  unfold consume. unfold bind at 1.
  destruct (check type p) as [[found|e|] p'] eqn:E; try discriminate.
  apply check_same in E as [-> Hsome].
  destruct found.
  - destruct (Hsome eq_refl) as (token & Hpeek).
    rewrite bind_get, bind_modify, Hpeek. intros H; injection H as <- _.
    eauto.
  - rewrite bind_get. discriminate.
Qed.

Lemma thrown_consume type message p :
  thrownAtCursor (consume type message p).
Proof.
  unfold consume.
  apply thrown_bind; [apply thrown_check|].
  intros found q H. apply check_same in H as [-> _].
  destruct found.
  - rewrite bind_get, bind_modify. apply thrown_ret.
  - rewrite bind_get. apply thrown_fromToken.
Qed.

(** Every exception of a grammar method is built from the token under the
    cursor at the moment it is thrown. *)
Lemma grammar_thrownAtCursor fuel :
  (forall p, thrownAtCursor (expression fuel p)) /\
  (forall p, thrownAtCursor (orExpression fuel p)) /\
  (forall left p, thrownAtCursor (orExpression_loop fuel left p)) /\
  (forall p, thrownAtCursor (andExpression fuel p)) /\
  (forall left p, thrownAtCursor (andExpression_loop fuel left p)) /\
  (forall p, thrownAtCursor (notExpression fuel p)) /\
  (forall p, thrownAtCursor (primary fuel p)).
Proof.
  induction fuel as [|fuel (IHe & IHo & IHol & IHa & IHal & IHn & IHp)].
  { repeat match goal with |- _ /\ _ => split end;
      intros; apply thrown_outOfFuel. }
  repeat match goal with |- _ /\ _ => split end.
  - intros p. cbn [expression]. apply IHo.
  - intros p. cbn [orExpression].
    apply thrown_bind; [apply IHa|]. intros; apply IHol.
  - intros left p. cbn [orExpression_loop].
    apply thrown_bind; [apply thrown_matchesAny|].
    intros [|] q _; [|apply thrown_ret].
    apply thrown_bind; [apply IHa|]. intros; apply IHol.
  - intros p. cbn [andExpression].
    apply thrown_bind; [apply IHn|]. intros; apply IHal.
  - intros left p. cbn [andExpression_loop].
    apply thrown_bind; [apply thrown_matchesAny|].
    intros [|] q _; [|apply thrown_ret].
    apply thrown_bind; [apply IHn|]. intros; apply IHal.
  - intros p. cbn [notExpression].
    apply thrown_bind; [apply thrown_matchesAny|].
    intros [|] q _; [|apply IHp].
    apply thrown_bind; [apply IHn|]. intros; apply thrown_ret.
  - intros p. cbn [primary].
    apply thrown_bind; [apply thrown_matchesAny|].
    intros [|] q _.
    + apply thrown_bind; [apply IHe|]. intros e q' _.
      apply thrown_bind; [apply thrown_consume|]. intros; apply thrown_ret.
    + apply thrown_bind; [apply thrown_check|].
      intros found q' H. apply check_same in H as [-> _].
      destruct found.
      * apply thrown_bind; [apply thrown_consume|].
        intros v q' H. destruct (consume_Some _ _ _ _ _ H) as (token & ->).
        simpl defined. rewrite bind_ret. apply thrown_ret.
      * rewrite bind_get.
        apply thrown_bind; [apply thrown_defined_peek|].
        intros tok q' H.
        assert (q' = q) as ->.
        { destruct (peek q); simpl in H; [|discriminate].
          injection H as _ <-. reflexivity. }
        destruct (Token.type tok); apply thrown_fromToken.
Qed.

Lemma thrown_parse p : thrownAtCursor (parse p).
Proof.
  unfold parse.
  apply thrown_bind; [apply thrown_hasReachedEOF|].
  intros atEOF q H. apply hasReachedEOF_same in H as ->.
  destruct atEOF.
  { rewrite bind_get. apply thrown_fromToken. }
  rewrite bind_get.
  apply thrown_bind; [apply (proj1 (grammar_thrownAtCursor (fuelFor p)))|].
  intros e q _.
  apply thrown_bind; [apply thrown_hasReachedEOF|].
  intros atEOF q' H. apply hasReachedEOF_same in H as ->.
  destruct atEOF; cbn [negb]; [apply thrown_ret|].
  rewrite bind_get.
  apply thrown_bind; [apply thrown_defined_peek|].
  intros tok q' H.
  assert (q' = q) as ->.
  { destruct (peek q); simpl in H; [|discriminate].
    injection H as _ <-. reflexivity. }
  apply thrown_fromToken.
Qed.

End ParserErrors.

(** [parse] on the tokens of an input: the result is safe and its
    exceptions are at the cursor. *)
Lemma parse_on_tokens input :
  exists body eof,
    tokenize input = Normal (body ++ [eof]) /\
    Forall (fun token => Token.type token <> EOF) body /\
    Token.type eof = EOF /\ Token.value eof = [] /\
    parse input = fst (Parser.parse (Parser.new (body ++ [eof]))) /\
    Stream.onStream (Parser.new (body ++ [eof])) /\
    Stream.onStream (snd (Parser.parse (Parser.new (body ++ [eof])))) /\
    Stream.Safe (Parser.new (body ++ [eof])) True
      (Parser.parse (Parser.new (body ++ [eof]))).
Proof.
  destruct (tokenize_returns input)
    as (body & eof & Htok & Hbody & Htype & Hval & _).
  exists body, eof.
  assert (Hp : Stream.onStream (Parser.new (body ++ [eof]))).
  { split; simpl; [exists body, eof; auto|]. rewrite length_app. simpl. lia. }
  pose proof (ParserFacts.parse_Safe _ Hp) as Hsafe.
  split; [exact Htok|]. split; [exact Hbody|].
  split; [exact Htype|]. split; [exact Hval|].
  split; [unfold parse; rewrite Htok; reflexivity|].
  split; [exact Hp|]. split; [|exact Hsafe].
  apply (ParserFacts.Safe_onStream _ _ _ Hp Hsafe).
Qed.

(** X5: [parse] has one way to fail.  For every input string it returns an
    expression or throws a [ParseError]; it never throws a [TokenizerError]
    or a [TypeError]. *)
Theorem parse_returns_or_throws_ParseError (input : jsstring) :
  (exists expression, parse input = Normal expression) \/
  (exists message position line column expected actual,
      parse input
      = Throw (ParseError message position line column expected actual)).
Proof.
  destruct (parse_on_tokens input)
    as (body & eof & _ & _ & _ & _ & -> & Hp & Hq & Hsafe).
  pose proof (ParserErrors.thrown_parse (Parser.new (body ++ [eof])))
    as Hthrown.
  destruct Hsafe as (_ & _ & _ & Hno & Hfuel).
  destruct (Parser.parse (Parser.new (body ++ [eof]))) as [[e|e|] q];
    simpl in *.
  - left. eauto.
  - right. destruct (Hthrown e eq_refl) as (m & ex & ->).
    destruct (ParserFacts.peek_onStream q Hq) as (token & Hpeek & _).
    simpl. rewrite Hpeek. simpl. repeat eexists.
  - destruct (Hfuel I eq_refl).
Qed.

(** X6: a [ParseError] of [parse] points at a token of the input: its
    position, line and column are those of one of the tokens [tokenize]
    returns, and its [actual] is the text of that token, or ["EOF"] when it
    is the [EOF] token. *)
Theorem parse_error_points_at_a_token (input : jsstring) (e : Exception) :
  parse input = Throw e ->
  exists tokens token message expected,
    tokenize input = Normal tokens /\
    In token tokens /\
    e = ParseError message
          (Token.position token) (Token.line token) (Token.column token)
          expected
          (if isEOF token then js "EOF" else Token.value token).
Proof.
  destruct (parse_on_tokens input)
    as (body & eof & Htok & Hbody & Htype & Hval & -> & Hp & Hq & Hsafe).
  pose proof (ParserErrors.thrown_parse (Parser.new (body ++ [eof])))
    as Hthrown.
  destruct Hsafe as (Hts & _).
  destruct (Parser.parse (Parser.new (body ++ [eof]))) as [r q]; simpl in *.
  intros ->. destruct (Hthrown e eq_refl) as (m & ex & He).
  destruct (ParserFacts.peek_onStream q Hq) as (token & Hpeek & _).
  simpl in He. rewrite Hpeek in He. subst e.
  exists (body ++ [eof]), token, m, ex.
  split; [exact Htok|].
  assert (Hin : In token (body ++ [eof])).
  { rewrite <- Hts. apply (nth_error_In _ _ Hpeek). }
  split; [exact Hin|]. simpl. f_equal.
  destruct (tokenize_shapes input) as (tokens & Htok' & Hshape).
  rewrite Htok in Htok'. injection Htok' as <-.
  rewrite Forall_forall in Hshape. specialize (Hshape token Hin).
  unfold isEOF.
  destruct (Token.type token), (Token.value token);
    simpl in Hshape; try discriminate; reflexivity.
Qed.

Lemma parse_error_points_at_a_token_witness :
  exists tokens token message expected,
    tokenize (js "fast and )") = Normal tokens /\
    In token tokens /\
    ParseError
      (js "Unexpected ')': missing opening parenthesis or expression")
      9 1 10 (js "identifier or " ++ [DQUOTE] ++ js "(" ++ [DQUOTE]) (js ")")
    = ParseError message
        (Token.position token) (Token.line token) (Token.column token)
        expected
        (if isEOF token then js "EOF" else Token.value token).
Proof.
  apply (parse_error_points_at_a_token (js "fast and )")).
  vm_compute. reflexivity.
Defined.

(* ===================================================================== *)
(** ** Parser: [parse] and the grammar *)
(* ===================================================================== *)

Module ParserGrammar.
Import Parser.

(** *** More fuel does not change a result *)

Lemma refines_refl {S A} (m : M S A) : refines m m.
Proof. intros s r s' H _. exact H. Qed.

Lemma refines_bind {S A B} (m m' : M S A) (k k' : A -> M S B) :
  refines m m' -> (forall a, refines (k a) (k' a)) ->
  refines (bind m k) (bind m' k').
Proof.
  intros Hm Hk s r s'. unfold bind.
  destruct (m s) as [[a|e|] s1] eqn:E.
  - rewrite (Hm s _ _ E) by discriminate. apply Hk.
  - rewrite (Hm s _ _ E) by discriminate. auto.
  - intros H Hr. injection H as <- _. contradiction.
Qed.

Lemma refines_outOfFuel {S A} (m : M S A) : refines outOfFuel m.
Proof. intros s r s' H Hr. injection H as <- _. contradiction. Qed.

Lemma grammar_more_fuel fuel : forall fuel', fuel <= fuel' ->
  refines (expression fuel) (expression fuel') /\
  refines (orExpression fuel) (orExpression fuel') /\
  (forall left,
      refines (orExpression_loop fuel left) (orExpression_loop fuel' left)) /\
  refines (andExpression fuel) (andExpression fuel') /\
  (forall left,
      refines (andExpression_loop fuel left)
              (andExpression_loop fuel' left)) /\
  refines (notExpression fuel) (notExpression fuel') /\
  refines (primary fuel) (primary fuel').
Proof.
  induction fuel as [|fuel IH]; intros fuel' Hle.
  { repeat match goal with |- _ /\ _ => split end;
      intros; apply refines_outOfFuel. }
  destruct fuel' as [|fuel']; [lia|].
  destruct (IH fuel' ltac:(lia)) as (IHe & IHo & IHol & IHa & IHal & IHn & IHp).
  repeat match goal with |- _ /\ _ => split end.
  - exact IHo.
  - cbn [orExpression]. apply refines_bind; auto.
  - intros left. cbn [orExpression_loop].
    apply refines_bind; [apply refines_refl|].
    intros [|]; [|apply refines_refl]. apply refines_bind; auto.
  - cbn [andExpression]. apply refines_bind; auto.
  - intros left. cbn [andExpression_loop].
    apply refines_bind; [apply refines_refl|].
    intros [|]; [|apply refines_refl]. apply refines_bind; auto.
  - cbn [notExpression].
    apply refines_bind; [apply refines_refl|].
    intros [|]; [|exact IHp].
    apply refines_bind; [exact IHn|]. intros; apply refines_refl.
  - cbn [primary].
    apply refines_bind; [apply refines_refl|].
    intros [|]; [|apply refines_refl].
    apply refines_bind; [exact IHe|]. intros; apply refines_refl.
Qed.

(** *** The primitives, on the tokens from the cursor on *)

Lemma peek_upcoming p : peek p = hd_error (upcoming p).
Proof.
  unfold peek, upcoming. remember (current p) as n. clear Heqn.
  revert n. induction (tokens p) as [|t l IH]; intros [|n]; simpl; auto.
Qed.

Lemma upcoming_length p : length (upcoming p) = length (tokens p) - current p.
Proof. unfold upcoming. apply length_skipn. Qed.

Lemma upcoming_skipped n p toks rest :
  upcoming p = toks ++ rest -> length toks = n ->
  upcoming (skipped n p) = rest.
Proof.
  unfold upcoming, skipped. simpl. intros H <-.
  rewrite Nat.add_comm, <- skipn_skipn, H.
  rewrite skipn_app, skipn_all, Nat.sub_diag. reflexivity.
Qed.

Lemma advance_skipped p token rest :
  upcoming p = token :: rest -> advance p = skipped 1 p.
Proof.
  intros H. unfold advance.
  pose proof (upcoming_length p) as Hlen. rewrite H in Hlen. simpl in Hlen.
  destruct (current p <? length (tokens p)) eqn:E; [reflexivity|].
  apply Nat.ltb_ge in E. lia.
Qed.

Lemma skipped_skipped n m p : skipped n (skipped m p) = skipped (m + n) p.
Proof. unfold skipped; simpl. f_equal. lia. Qed.

Lemma skipped_0 p : skipped 0 p = p.
Proof. destruct p. unfold skipped; simpl. f_equal. lia. Qed.

(** [#check(type)] looks at the token under the cursor. *)
Lemma check_upcoming type p token rest :
  upcoming p = token :: rest ->
  check type p
  = (Normal (negb (TokenType_eqb (Token.type token) EOF)
             && TokenType_eqb (Token.type token) type), p).
Proof.
  intros H.
  assert (Hpeek : peek p = Some token) by (rewrite peek_upcoming, H; reflexivity).
  cbv beta iota delta [check hasReachedEOF bind get defined ret throw].
  rewrite Hpeek. cbv beta iota.
  destruct (TokenType_eqb (Token.type token) EOF); cbv beta iota;
    [reflexivity|].
  rewrite Hpeek. reflexivity.
Qed.

Lemma matchesAny_upcoming type p token rest :
  upcoming p = token :: rest ->
  matchesAny [type] p
  = if negb (TokenType_eqb (Token.type token) EOF)
       && TokenType_eqb (Token.type token) type
    then (Normal true, skipped 1 p)
    else (Normal false, p).
Proof.
  intros H. cbn [matchesAny].
  rewrite (bind_Normal _ _ _ _ _ (check_upcoming type p token rest H)).
  destruct (_ && _); [|reflexivity].
  rewrite bind_modify, (advance_skipped p token rest H). reflexivity.
Qed.

Lemma consume_upcoming type message p token rest :
  upcoming p = token :: rest ->
  consume type message p
  = if negb (TokenType_eqb (Token.type token) EOF)
       && TokenType_eqb (Token.type token) type
    then (Normal (Some token), skipped 1 p)
    else (Throw (fromToken message (Some token) (TokenType_string type)), p).
Proof.
  intros H.
  assert (Hpeek : peek p = Some token) by (rewrite peek_upcoming, H; reflexivity).
  unfold consume.
  rewrite (bind_Normal _ _ _ _ _ (check_upcoming type p token rest H)).
  destruct (_ && _).
  - rewrite bind_get, bind_modify, Hpeek, (advance_skipped p token rest H).
    reflexivity.
  - rewrite bind_get, Hpeek. reflexivity.
Qed.

Lemma check_nothing type p :
  upcoming p = [] -> check type p = (Throw TypeError, p).
Proof.
  intros H.
  assert (Hpeek : peek p = None) by (rewrite peek_upcoming, H; reflexivity).
  cbv beta iota delta [check hasReachedEOF bind get defined ret throw].
  rewrite Hpeek. reflexivity.
Qed.

Lemma bind_Normal_inv {S A B} (m : M S A) (k : A -> M S B) s b s' :
  bind m k s = (Normal b, s') ->
  exists a s1, m s = (Normal a, s1) /\ k a s1 = (Normal b, s').
Proof.
  unfold bind. destruct (m s) as [[a|e|] s1]; try discriminate. eauto.
Qed.

Lemma matchesAny_Normal type p b q :
  matchesAny [type] p = (Normal b, q) ->
  (b = false /\ q = p) \/
  (b = true /\ exists token rest,
       upcoming p = token :: rest /\ Token.type token = type /\
       q = skipped 1 p).
Proof.
  destruct (upcoming p) as [|token rest] eqn:E.
  - cbn [matchesAny]. rewrite (bind_Throw _ _ _ _ _ (check_nothing type p E)).
    discriminate.
  - rewrite (matchesAny_upcoming type p token rest E).
    destruct (_ && _) eqn:C; intros H; injection H as <- <-; [right|left; auto].
    split; [reflexivity|]. exists token, rest.
    apply andb_true_iff in C as [_ C]. apply TokenType_eqb_eq in C. auto.
Qed.

Lemma consume_Normal type message p v q :
  consume type message p = (Normal v, q) ->
  exists token rest,
    v = Some token /\ upcoming p = token :: rest /\
    Token.type token = type /\ q = skipped 1 p.
Proof.
  destruct (upcoming p) as [|token rest] eqn:E.
  - unfold consume. rewrite (bind_Throw _ _ _ _ _ (check_nothing type p E)).
    discriminate.
  - rewrite (consume_upcoming type message p token rest E).
    destruct (_ && _) eqn:C; intros H; [|discriminate].
    injection H as <- <-. exists token, rest.
    apply andb_true_iff in C as [_ C]. apply TokenType_eqb_eq in C. auto.
Qed.

Lemma check_Normal type p b q :
  check type p = (Normal b, q) ->
  q = p /\
  (b = true -> exists token rest,
       upcoming p = token :: rest /\ Token.type token = type).
Proof.
  destruct (upcoming p) as [|token rest] eqn:E.
  - rewrite (check_nothing type p E). discriminate.
  - rewrite (check_upcoming type p token rest E).
    intros H; injection H as <- <-. split; [reflexivity|].
    intros C. apply andb_true_iff in C as [_ C].
    apply TokenType_eqb_eq in C. eauto.
Qed.

Lemma typesAndValues_app a b :
  typesAndValues (a ++ b) = typesAndValues a ++ typesAndValues b.
Proof. apply map_app. Qed.

(** *** What the grammar methods return is derived by the grammar *)

Lemma grammar_sound fuel :
  (forall p e q, expression fuel p = (Normal e, q) ->
     exists ts, upcoming p = ts ++ upcoming q /\
                derives OrLevel (typesAndValues ts) e) /\
  (forall p e q, orExpression fuel p = (Normal e, q) ->
     exists ts, upcoming p = ts ++ upcoming q /\
                derives OrLevel (typesAndValues ts) e) /\
  (forall left p e q, orExpression_loop fuel left p = (Normal e, q) ->
     exists ts, upcoming p = ts ++ upcoming q /\
                forall before, derives OrLevel before left ->
                               derives OrLevel (before ++ typesAndValues ts) e) /\
  (forall p e q, andExpression fuel p = (Normal e, q) ->
     exists ts, upcoming p = ts ++ upcoming q /\
                derives AndLevel (typesAndValues ts) e) /\
  (forall left p e q, andExpression_loop fuel left p = (Normal e, q) ->
     exists ts, upcoming p = ts ++ upcoming q /\
                forall before, derives AndLevel before left ->
                               derives AndLevel (before ++ typesAndValues ts) e) /\
  (forall p e q, notExpression fuel p = (Normal e, q) ->
     exists ts, upcoming p = ts ++ upcoming q /\
                derives NotLevel (typesAndValues ts) e) /\
  (forall p e q, primary fuel p = (Normal e, q) ->
     exists ts, upcoming p = ts ++ upcoming q /\
                derives PrimaryLevel (typesAndValues ts) e).
Proof.
  induction fuel as [|fuel (IHe & IHo & IHol & IHa & IHal & IHn & IHp)].
  { repeat match goal with |- _ /\ _ => split end; intros; discriminate. }
  repeat match goal with |- _ /\ _ => split end.
  - (* expression *)
    intros p e q H. apply (IHo p e q H).
  - (* orExpression *)
    intros p e q H. cbn [orExpression] in H.
    apply bind_Normal_inv in H as (left & p1 & H1 & H2).
    destruct (IHa _ _ _ H1) as (ts1 & Hup1 & D1).
    destruct (IHol _ _ _ _ H2) as (ts2 & Hup2 & D2).
    exists (ts1 ++ ts2). rewrite <- app_assoc, <- Hup2. split; [exact Hup1|].
    rewrite typesAndValues_app. apply D2. apply derives_or_and. exact D1.
  - (* orExpression_loop *)
    intros left p e q H. cbn [orExpression_loop] in H.
    apply bind_Normal_inv in H as (b & p1 & H1 & H2).
    apply matchesAny_Normal in H1 as [[-> ->]|(-> & token & rest & Hup & Hty & ->)].
    { injection H2 as <- <-. exists []. split; [reflexivity|].
      intros before D. simpl. rewrite app_nil_r. exact D. }
    apply bind_Normal_inv in H2 as (right & p2 & H2 & H3).
    destruct (IHa _ _ _ H2) as (ts1 & Hup1 & D1).
    destruct (IHol _ _ _ _ H3) as (ts2 & Hup2 & D2).
    rewrite (upcoming_skipped 1 p [token] rest Hup eq_refl) in Hup1.
    exists (token :: ts1 ++ ts2). split.
    + rewrite Hup, Hup1, Hup2. simpl. rewrite app_assoc. reflexivity.
    + intros before D.
      change (token :: ts1 ++ ts2) with ((token :: ts1) ++ ts2).
      rewrite typesAndValues_app, app_assoc. apply D2.
      simpl. rewrite Hty. apply derives_or; assumption.
  - (* andExpression *)
    intros p e q H. cbn [andExpression] in H.
    apply bind_Normal_inv in H as (left & p1 & H1 & H2).
    destruct (IHn _ _ _ H1) as (ts1 & Hup1 & D1).
    destruct (IHal _ _ _ _ H2) as (ts2 & Hup2 & D2).
    exists (ts1 ++ ts2). rewrite <- app_assoc, <- Hup2. split; [exact Hup1|].
    rewrite typesAndValues_app. apply D2. apply derives_and_not. exact D1.
  - (* andExpression_loop *)
    intros left p e q H. cbn [andExpression_loop] in H.
    apply bind_Normal_inv in H as (b & p1 & H1 & H2).
    apply matchesAny_Normal in H1 as [[-> ->]|(-> & token & rest & Hup & Hty & ->)].
    { injection H2 as <- <-. exists []. split; [reflexivity|].
      intros before D. simpl. rewrite app_nil_r. exact D. }
    apply bind_Normal_inv in H2 as (right & p2 & H2 & H3).
    destruct (IHn _ _ _ H2) as (ts1 & Hup1 & D1).
    destruct (IHal _ _ _ _ H3) as (ts2 & Hup2 & D2).
    rewrite (upcoming_skipped 1 p [token] rest Hup eq_refl) in Hup1.
    exists (token :: ts1 ++ ts2). split.
    + rewrite Hup, Hup1, Hup2. simpl. rewrite app_assoc. reflexivity.
    + intros before D.
      change (token :: ts1 ++ ts2) with ((token :: ts1) ++ ts2).
      rewrite typesAndValues_app, app_assoc. apply D2.
      simpl. rewrite Hty. apply derives_and; assumption.
  - (* notExpression *)
    intros p e q H. cbn [notExpression] in H.
    apply bind_Normal_inv in H as (b & p1 & H1 & H2).
    apply matchesAny_Normal in H1 as [[-> ->]|(-> & token & rest & Hup & Hty & ->)].
    { destruct (IHp _ _ _ H2) as (ts & Hup & D).
      exists ts. split; [exact Hup|]. apply derives_not_primary. exact D. }
    apply bind_Normal_inv in H2 as (e' & p2 & H2 & H3).
    injection H3 as <- <-.
    destruct (IHn _ _ _ H2) as (ts & Hup1 & D).
    rewrite (upcoming_skipped 1 p [token] rest Hup eq_refl) in Hup1.
    exists (token :: ts). split; [rewrite Hup, Hup1; reflexivity|].
    simpl. rewrite Hty. apply derives_not. exact D.
  - (* primary *)
    intros p e q H. cbn [primary] in H.
    apply bind_Normal_inv in H as (b & p1 & H1 & H2).
    apply matchesAny_Normal in H1 as [[-> ->]|(-> & token & rest & Hup & Hty & ->)].
    + apply bind_Normal_inv in H2 as (b & p1 & H1 & H2).
      apply check_Normal in H1 as [-> Hcheck].
      destruct b.
      * apply bind_Normal_inv in H2 as (v & p2 & H2 & H3).
        apply consume_Normal in H2 as (token & rest & -> & Hup & Hty & ->).
        simpl defined in H3. rewrite bind_ret in H3. injection H3 as <- <-.
        exists [token].
        rewrite (upcoming_skipped 1 p [token] rest Hup eq_refl).
        split; [exact Hup|]. simpl. rewrite Hty. apply derives_identifier.
      * exfalso. rewrite bind_get in H2.
        destruct (peek p) as [tok|]; simpl defined in H2.
        -- rewrite bind_ret in H2. destruct (Token.type tok); discriminate.
        -- discriminate.
    + apply bind_Normal_inv in H2 as (e' & p2 & H2 & H3).
      apply bind_Normal_inv in H3 as (v & p3 & H3 & H4).
      injection H4 as <- <-.
      apply consume_Normal in H3 as (close & rest' & -> & Hup' & Hty' & ->).
      destruct (IHe _ _ _ H2) as (ts & Hup1 & D).
      rewrite (upcoming_skipped 1 p [token] rest Hup eq_refl) in Hup1.
      exists (token :: ts ++ [close]). split.
      * rewrite (upcoming_skipped 1 p2 [close] rest' Hup' eq_refl).
        rewrite Hup, Hup1, Hup'. simpl. rewrite <- app_assoc. reflexivity.
      * change (token :: ts ++ [close]) with ((token :: ts) ++ [close]).
        rewrite typesAndValues_app. simpl. rewrite Hty, Hty'.
        apply derives_parenthesized. exact D.
Qed.

(** *** What the grammar derives, the grammar methods return *)

Lemma matchesAny_other type p token rest :
  upcoming p = token :: rest -> Token.type token <> type ->
  matchesAny [type] p = (Normal false, p).
Proof.
  intros Hup Hne. rewrite (matchesAny_upcoming type p token rest Hup).
  destruct (TokenType_eqb (Token.type token) type) eqn:E.
  - apply TokenType_eqb_eq in E. contradiction.
  - rewrite andb_false_r. reflexivity.
Qed.

Lemma matchesAny_same type p token rest :
  upcoming p = token :: rest -> Token.type token = type -> type <> EOF ->
  matchesAny [type] p = (Normal true, skipped 1 p).
Proof.
  intros Hup Hty Hne. rewrite (matchesAny_upcoming type p token rest Hup).
  rewrite Hty. destruct type; try contradiction; reflexivity.
Qed.

Lemma consume_same type message p token rest :
  upcoming p = token :: rest -> Token.type token = type -> type <> EOF ->
  consume type message p = (Normal (Some token), skipped 1 p).
Proof.
  intros Hup Hty Hne. rewrite (consume_upcoming type message p token rest Hup).
  rewrite Hty. destruct type; try contradiction; reflexivity.
Qed.

Lemma more_fuel_orExpression fuel fuel' :
  fuel <= fuel' -> refines (orExpression fuel) (orExpression fuel').
Proof. intros H. apply (grammar_more_fuel fuel fuel' H). Qed.

Lemma more_fuel_orExpression_loop fuel fuel' left :
  fuel <= fuel' ->
  refines (orExpression_loop fuel left) (orExpression_loop fuel' left).
Proof. intros H. apply (grammar_more_fuel fuel fuel' H). Qed.

Lemma more_fuel_andExpression fuel fuel' :
  fuel <= fuel' -> refines (andExpression fuel) (andExpression fuel').
Proof. intros H. apply (grammar_more_fuel fuel fuel' H). Qed.

Lemma more_fuel_andExpression_loop fuel fuel' left :
  fuel <= fuel' ->
  refines (andExpression_loop fuel left) (andExpression_loop fuel' left).
Proof. intros H. apply (grammar_more_fuel fuel fuel' H). Qed.

Lemma more_fuel_notExpression fuel fuel' :
  fuel <= fuel' -> refines (notExpression fuel) (notExpression fuel').
Proof. intros H. apply (grammar_more_fuel fuel fuel' H). Qed.

Lemma more_fuel_expression fuel fuel' :
  fuel <= fuel' -> refines (expression fuel) (expression fuel').
Proof. intros H. apply (grammar_more_fuel fuel fuel' H). Qed.

(** A loop stops on a token that is not its operator. *)
Lemma andExpression_loop_stops left p token rest :
  upcoming p = token :: rest -> Token.type token <> AND ->
  andExpression_loop 1 left p = (Normal left, p).
Proof.
  intros Hup Hne. cbn [andExpression_loop].
  rewrite (bind_Normal _ _ _ _ _ (matchesAny_other AND p token rest Hup Hne)).
  reflexivity.
Qed.

Lemma orExpression_loop_stops left p token rest :
  upcoming p = token :: rest -> Token.type token <> OR ->
  orExpression_loop 1 left p = (Normal left, p).
Proof.
  intros Hup Hne. cbn [orExpression_loop].
  rewrite (bind_Normal _ _ _ _ _ (matchesAny_other OR p token rest Hup Hne)).
  reflexivity.
Qed.

Lemma derives_primary_head ts e :
  derives PrimaryLevel ts e ->
  exists type value rest,
    ts = (type, value) :: rest /\ type <> NOT.
Proof.
  intros D. inversion D; subst; repeat eexists; discriminate.
Qed.

Lemma typesAndValues_cons toks type value ts :
  typesAndValues toks = (type, value) :: ts ->
  exists token rest,
    toks = token :: rest /\ Token.type token = type /\
    Token.value token = value /\ typesAndValues rest = ts.
Proof.
  intros H. apply map_eq_cons in H as (token & rest & -> & Heq & Hrest).
  injection Heq as Hty Hval. eauto 10.
Qed.

Lemma skipped_upcoming n p toks rest :
  upcoming p = toks ++ rest -> length toks = n ->
  upcoming (skipped n p) = rest.
Proof. apply upcoming_skipped. Qed.

Lemma grammar_complete level ts e :
  derives level ts e ->
  match level with
  | PrimaryLevel =>
    forall p toks rest,
      upcoming p = toks ++ rest -> typesAndValues toks = ts ->
      exists fuel, primary fuel p = (Normal e, skipped (length toks) p)
  | NotLevel =>
    forall p toks rest,
      upcoming p = toks ++ rest -> typesAndValues toks = ts ->
      exists fuel, notExpression fuel p = (Normal e, skipped (length toks) p)
  | AndLevel =>
    forall p toks rest,
      upcoming p = toks ++ rest -> typesAndValues toks = ts ->
      forall fuel r q,
        andExpression_loop fuel e (skipped (length toks) p) = (r, q) ->
        r <> OutOfFuel ->
        exists fuel', andExpression fuel' p = (r, q)
  | OrLevel =>
    forall p toks rest,
      upcoming p = toks ++ rest -> typesAndValues toks = ts ->
      (exists token rest', rest = token :: rest' /\ Token.type token <> AND) ->
      forall fuel r q,
        orExpression_loop fuel e (skipped (length toks) p) = (r, q) ->
        r <> OutOfFuel ->
        exists fuel', orExpression fuel' p = (r, q)
  end.
Proof.
  induction 1 as
    [value
    |open close ts e D IH
    |keyword ts e D IH
    |ts e D IH
    |keyword ts1 l ts2 r D1 IH1 D2 IH2
    |ts e D IH
    |keyword ts1 l ts2 r D1 IH1 D2 IH2
    |ts e D IH].
  - (* identifier *)
    intros p toks rest Hup Htv.
    apply typesAndValues_cons in Htv as (token & tl & -> & Hty & Hval & Htl).
    destruct tl; [|discriminate]. simpl in Hup.
    exists 1. cbn [primary].
    rewrite (bind_Normal _ _ _ _ _
               (matchesAny_other LEFT_PAREN p token rest Hup
                  ltac:(rewrite Hty; discriminate))).
    unfold bind at 1. rewrite (check_upcoming IDENTIFIER p token rest Hup), Hty.
    cbn [TokenType_eqb negb andb].
    rewrite (bind_Normal _ _ _ _ _
               (consume_same IDENTIFIER _ p token rest Hup Hty
                  ltac:(discriminate))).
    cbn [defined]. rewrite bind_ret. unfold ret, Factory.identifier.
    rewrite Hval. reflexivity.
  - (* parenthesized *)
    intros p toks rest Hup Htv.
    apply typesAndValues_cons in Htv as (lp & tl & -> & Hlp & _ & Htl).
    unfold typesAndValues in Htl.
    apply map_eq_app in Htl as (mid & last & -> & Hmid & Hlast).
    apply map_eq_cons in Hlast as (rp & nil & -> & Hrp & Hnil).
    destruct nil; [|discriminate]. injection Hrp as Hrp _.
    simpl in Hup. rewrite <- app_assoc in Hup. simpl in Hup.
    pose proof (upcoming_skipped 1 p [lp] _ Hup eq_refl) as Hup1.
    pose proof (upcoming_skipped (length mid) (skipped 1 p) mid _ Hup1 eq_refl)
      as Hup2.
    destruct (IH (skipped 1 p) mid (rp :: rest) Hup1 Hmid
                ltac:(exists rp, rest; split;
                      [reflexivity|rewrite Hrp; discriminate])
                1 (Normal e) (skipped (length mid) (skipped 1 p)))
      as (fuel & Hor).
    { apply (orExpression_loop_stops e _ rp rest Hup2).
      rewrite Hrp. discriminate. }
    { discriminate. }
    exists (S (S fuel)). cbn [primary expression].
    rewrite (bind_Normal _ _ _ _ _
               (matchesAny_same LEFT_PAREN p lp _ Hup Hlp ltac:(discriminate))).
    rewrite (bind_Normal _ _ _ _ _ Hor).
    rewrite (bind_Normal _ _ _ _ _
               (consume_same RIGHT_PAREN _ _ rp rest Hup2 Hrp
                  ltac:(discriminate))).
    rewrite !skipped_skipped. unfold ret. f_equal. f_equal.
    simpl. rewrite length_app. simpl. lia.
  - (* not *)
    intros p toks rest Hup Htv.
    apply typesAndValues_cons in Htv as (kw & tl & -> & Hkw & _ & Htl).
    simpl in Hup.
    pose proof (upcoming_skipped 1 p [kw] _ Hup eq_refl) as Hup1.
    destruct (IH (skipped 1 p) tl rest Hup1 Htl) as (fuel & Hnot).
    exists (S fuel). cbn [notExpression].
    rewrite (bind_Normal _ _ _ _ _
               (matchesAny_same NOT p kw _ Hup Hkw ltac:(discriminate))).
    rewrite (bind_Normal _ _ _ _ _ Hnot).
    rewrite skipped_skipped. reflexivity.
  - (* primary as not_expr *)
    intros p toks rest Hup Htv.
    destruct (IH p toks rest Hup Htv) as (fuel & Hprim).
    destruct (derives_primary_head _ _ D) as (type & value & tl & Hts & Hne).
    rewrite Hts in Htv.
    apply typesAndValues_cons in Htv as (first & tl' & -> & Hty & _ & _).
    simpl in Hup.
    exists (S fuel). cbn [notExpression].
    rewrite (bind_Normal _ _ _ _ _
               (matchesAny_other NOT p first _ Hup
                  ltac:(rewrite Hty; exact Hne))).
    exact Hprim.
  - (* and *)
    intros p toks rest Hup Htv fuel res q Hloop Hres.
    unfold typesAndValues in Htv.
    apply map_eq_app in Htv as (toks1 & tl & -> & Htv1 & Htl).
    apply typesAndValues_cons in Htl as (kw & toks2 & -> & Hkw & _ & Htv2).
    rewrite <- app_assoc in Hup. simpl in Hup.
    pose proof (upcoming_skipped (length toks1) p toks1 _ Hup eq_refl) as Hup1.
    pose proof (upcoming_skipped 1 _ [kw] _ Hup1 eq_refl) as Hup2.
    destruct (IH2 _ toks2 rest Hup2 Htv2) as (fuel2 & Hnot).
    rewrite !skipped_skipped in Hnot.
    replace (length (toks1 ++ kw :: toks2))
      with (length toks1 + 1 + length toks2) in Hloop
      by (rewrite length_app; simpl; lia).
    apply (IH1 p toks1 _ Hup Htv1 (S (Nat.max fuel2 fuel)) res q);
      [|exact Hres].
    cbn [andExpression_loop].
    rewrite (bind_Normal _ _ _ _ _
               (matchesAny_same AND _ kw _ Hup1 Hkw ltac:(discriminate))).
    rewrite skipped_skipped.
    rewrite (bind_Normal _ _ _ _ _
               (more_fuel_notExpression fuel2 _ (Nat.le_max_l _ _) _ _ _ Hnot
                  ltac:(discriminate))).
    apply (more_fuel_andExpression_loop fuel _ _ (Nat.le_max_r _ _) _ _ _
             Hloop Hres).
  - (* not_expr as and_expr *)
    intros p toks rest Hup Htv fuel res q Hloop Hres.
    destruct (IH p toks rest Hup Htv) as (fuel1 & Hnot).
    exists (S (Nat.max fuel1 fuel)). cbn [andExpression].
    rewrite (bind_Normal _ _ _ _ _
               (more_fuel_notExpression fuel1 _ (Nat.le_max_l _ _) _ _ _ Hnot
                  ltac:(discriminate))).
    apply (more_fuel_andExpression_loop fuel _ _ (Nat.le_max_r _ _) _ _ _
             Hloop Hres).
  - (* or *)
    intros p toks rest Hup Htv (stop & rest' & -> & Hstop)
           fuel res q Hloop Hres.
    unfold typesAndValues in Htv.
    apply map_eq_app in Htv as (toks1 & tl & -> & Htv1 & Htl).
    apply typesAndValues_cons in Htl as (kw & toks2 & -> & Hkw & _ & Htv2).
    rewrite <- app_assoc in Hup. simpl in Hup.
    pose proof (upcoming_skipped (length toks1) p toks1 _ Hup eq_refl) as Hup1.
    pose proof (upcoming_skipped 1 _ [kw] _ Hup1 eq_refl) as Hup2.
    pose proof (upcoming_skipped (length toks2) _ toks2 _ Hup2 eq_refl) as Hup3.
    destruct (IH2 _ toks2 _ Hup2 Htv2 1 (Normal r) _
                (andExpression_loop_stops r _ stop rest' Hup3 Hstop)
                ltac:(discriminate))
      as (fuel2 & Hand).
    rewrite !skipped_skipped in Hand.
    replace (length (toks1 ++ kw :: toks2))
      with (length toks1 + 1 + length toks2) in Hloop
      by (rewrite length_app; simpl; lia).
    apply (IH1 p toks1 _ Hup Htv1
             ltac:(exists kw, (toks2 ++ stop :: rest'); split;
                   [reflexivity|rewrite Hkw; discriminate])
             (S (Nat.max fuel2 fuel)) res q);
      [|exact Hres].
    cbn [orExpression_loop].
    rewrite (bind_Normal _ _ _ _ _
               (matchesAny_same OR _ kw _ Hup1 Hkw ltac:(discriminate))).
    rewrite skipped_skipped.
    rewrite (bind_Normal _ _ _ _ _
               (more_fuel_andExpression fuel2 _ (Nat.le_max_l _ _) _ _ _ Hand
                  ltac:(discriminate))).
    apply (more_fuel_orExpression_loop fuel _ _ (Nat.le_max_r _ _) _ _ _
             Hloop Hres).
  - (* and_expr as or_expr *)
    intros p toks rest Hup Htv (stop & rest' & -> & Hstop)
           fuel res q Hloop Hres.
    pose proof (upcoming_skipped (length toks) p toks _ Hup eq_refl) as Hup1.
    destruct (IH p toks _ Hup Htv 1 (Normal e) _
                (andExpression_loop_stops e _ stop rest' Hup1 Hstop)
                ltac:(discriminate))
      as (fuel1 & Hand).
    exists (S (Nat.max fuel1 fuel)). cbn [orExpression].
    rewrite (bind_Normal _ _ _ _ _
               (more_fuel_andExpression fuel1 _ (Nat.le_max_l _ _) _ _ _ Hand
                  ltac:(discriminate))).
    apply (more_fuel_orExpression_loop fuel _ _ (Nat.le_max_r _ _) _ _ _
             Hloop Hres).
Qed.

Lemma hasReachedEOF_upcoming p token rest :
  upcoming p = token :: rest ->
  hasReachedEOF p = (Normal (TokenType_eqb (Token.type token) EOF), p).
Proof.
  intros H.
  assert (Hpeek : peek p = Some token) by (rewrite peek_upcoming, H; reflexivity).
  cbv beta iota delta [hasReachedEOF bind get defined ret throw].
  rewrite Hpeek. reflexivity.
Qed.

Lemma hasReachedEOF_Normal p b q :
  hasReachedEOF p = (Normal b, q) ->
  q = p /\ exists token rest,
    upcoming p = token :: rest /\ b = TokenType_eqb (Token.type token) EOF.
Proof.
  destruct (upcoming p) as [|token rest] eqn:E.
  - assert (Hpeek : peek p = None)
      by (rewrite peek_upcoming, E; reflexivity).
    cbv beta iota delta [hasReachedEOF bind get defined ret throw].
    rewrite Hpeek. discriminate.
  - rewrite (hasReachedEOF_upcoming p token rest E).
    intros H; injection H as <- <-. eauto.
Qed.

Lemma derives_not_nil level ts e : derives level ts e -> ts <> [].
Proof.
  induction 1; try discriminate; auto.
  - destruct ts1; [contradiction|discriminate].
  - destruct ts1; [contradiction|discriminate].
Qed.

(** The tokens before the first [EOF] token are determined. *)
Lemma before_EOF (body ts rest : list Token.t) (eof token : Token.t) :
  Forall (fun t => Token.type t <> EOF) body ->
  Token.type token = EOF ->
  body ++ [eof] = ts ++ token :: rest ->
  ts = body.
Proof.
  intros Hbody Htoken. revert ts.
  induction Hbody as [|b body Hb _ IH]; intros [|a ts] H; simpl in H.
  - reflexivity.
  - injection H as _ H. destruct ts; discriminate.
  - injection H as -> _. contradiction.
  - injection H as <- H. f_equal. apply IH. exact H.
Qed.

(** [parse()] on a token stream returns what the grammar derives from the
    tokens before [EOF], and only that. *)
Lemma parse_sound body eof e q :
  Forall (fun t => Token.type t <> EOF) body ->
  Parser.parse (Parser.new (body ++ [eof])) = (Normal e, q) ->
  derives OrLevel (typesAndValues body) e.
Proof.
  intros Hbody H. unfold Parser.parse in H.
  apply bind_Normal_inv in H as (atEOF & p1 & H1 & H2).
  apply hasReachedEOF_Normal in H1 as (-> & _).
  destruct atEOF; [rewrite bind_get in H2; discriminate|].
  rewrite bind_get in H2.
  apply bind_Normal_inv in H2 as (e' & p2 & H2 & H3).
  apply bind_Normal_inv in H3 as (atEOF & p3 & H3 & H4).
  apply hasReachedEOF_Normal in H3 as (-> & token & rest & Hup & ->).
  destruct (TokenType_eqb (Token.type token) EOF) eqn:E; cbn [negb] in H4.
  2:{ rewrite bind_get in H4. destruct (Parser.peek p2); discriminate. }
  injection H4 as <- <-. apply TokenType_eqb_eq in E.
  destruct (proj1 (grammar_sound _) _ _ _ H2) as (ts & Hts & D).
  rewrite Hup in Hts. change (upcoming (new (body ++ [eof])))
    with (body ++ [eof]) in Hts.
  rewrite (before_EOF body ts rest eof token Hbody E Hts) in D. exact D.
Qed.

Lemma parse_complete body eof e :
  Forall (fun t => Token.type t <> EOF) body ->
  Token.type eof = EOF ->
  derives OrLevel (typesAndValues body) e ->
  fst (Parser.parse (Parser.new (body ++ [eof]))) = Normal e.
Proof.
  intros Hbody Heof D.
  set (p := Parser.new (body ++ [eof])).
  assert (Hup : upcoming p = body ++ [eof]) by reflexivity.
  assert (Hp : Stream.onStream p).
  { split; simpl; [exists body, eof; auto|]. rewrite length_app. simpl. lia. }
  pose proof (upcoming_skipped (length body) p body [eof] Hup eq_refl) as Hq.
  destruct (grammar_complete OrLevel _ e D p body [eof] Hup eq_refl
              ltac:(exists eof, []; split;
                    [reflexivity|rewrite Heof; discriminate])
              1 (Normal e) _
              (orExpression_loop_stops e _ eof [] Hq
                 ltac:(rewrite Heof; discriminate))
              ltac:(discriminate))
    as (fuel & Hor).
  assert (Hexp : expression (fuelFor p) p
                 = (Normal e, skipped (length body) p)).
  { destruct (proj1 (ParserFacts.grammar_Safe (fuelFor p)) p Hp)
      as (_ & _ & _ & _ & Hfuel).
    assert (Hne : fst (expression (fuelFor p) p) <> OutOfFuel).
    { apply Hfuel. unfold fuelFor, Stream.ahead. lia. }
    destruct (Nat.le_ge_cases (S fuel) (fuelFor p)) as [Hle|Hge].
    - apply (more_fuel_expression (S fuel) _ Hle); [exact Hor|discriminate].
    - destruct (expression (fuelFor p) p) as [r q'] eqn:E.
      pose proof (more_fuel_expression _ _ Hge _ _ _ E Hne) as H.
      cbn [expression] in H. rewrite Hor in H. symmetry. exact H. }
  assert (Hfirst : exists first rest, upcoming p = first :: rest /\
                                      Token.type first <> EOF).
  { destruct body as [|first body'].
    - destruct (derives_not_nil _ _ _ D eq_refl).
    - exists first, (body' ++ [eof]). split; [reflexivity|].
      inversion Hbody; assumption. }
  destruct Hfirst as (first & rest & Hfirst & Hne).
  unfold Parser.parse.
  rewrite (bind_Normal _ _ _ _ _ (hasReachedEOF_upcoming p first rest Hfirst)).
  destruct (TokenType_eqb (Token.type first) EOF) eqn:E.
  { apply TokenType_eqb_eq in E. contradiction. }
  rewrite bind_get, (bind_Normal _ _ _ _ _ Hexp).
  rewrite (bind_Normal _ _ _ _ _ (hasReachedEOF_upcoming _ eof [] Hq)).
  rewrite Heof. reflexivity.
Qed.

Lemma derives_no_EOF level ts e :
  derives level ts e -> Forall (fun t => fst t <> EOF) ts.
Proof.
  induction 1; auto.
  - constructor; [discriminate|constructor].
  - constructor; [discriminate|]. apply Forall_app. split; [assumption|].
    constructor; [discriminate|constructor].
  - constructor; [discriminate|assumption].
  - apply Forall_app. split; [assumption|].
    constructor; [discriminate|assumption].
  - apply Forall_app. split; [assumption|].
    constructor; [discriminate|assumption].
Qed.

(** [#expression()] reads an expression of the grammar to its end, when the
    token after it is no operator. *)
Lemma expression_complete body token rest e :
  Stream.isTokenStream (body ++ token :: rest) ->
  Token.type token <> AND -> Token.type token <> OR ->
  derives OrLevel (typesAndValues body) e ->
  expression (fuelFor (Parser.new (body ++ token :: rest)))
             (Parser.new (body ++ token :: rest))
  = (Normal e, skipped (length body) (Parser.new (body ++ token :: rest))).
Proof.
  intros Hstream Hand Hor D.
  set (p := Parser.new (body ++ token :: rest)).
  assert (Hup : upcoming p = body ++ token :: rest) by reflexivity.
  assert (Hp : Stream.onStream p).
  { split; [exact Hstream|]. simpl. rewrite length_app. simpl. lia. }
  pose proof (upcoming_skipped (length body) p body (token :: rest)
                Hup eq_refl) as Hq.
  destruct (grammar_complete OrLevel _ e D p body (token :: rest) Hup eq_refl
              ltac:(exists token, rest; split; [reflexivity|exact Hand])
              1 (Normal e) _
              (orExpression_loop_stops e _ token rest Hq Hor)
              ltac:(discriminate))
    as (fuel & Hexp).
  destruct (proj1 (ParserFacts.grammar_Safe (fuelFor p)) p Hp)
    as (_ & _ & _ & _ & Hfuel).
  assert (Hne : fst (expression (fuelFor p) p) <> OutOfFuel).
  { apply Hfuel. unfold fuelFor, Stream.ahead. lia. }
  destruct (Nat.le_ge_cases (S fuel) (fuelFor p)) as [Hle|Hge].
  - apply (more_fuel_expression (S fuel) _ Hle); [exact Hexp|discriminate].
  - destruct (expression (fuelFor p) p) as [r q'] eqn:E.
    pose proof (more_fuel_expression _ _ Hge _ _ _ E Hne) as H.
    cbn [expression] in H. rewrite Hexp in H. symmetry. exact H.
Qed.

(** [parse()] rejects a token that follows an expression and is neither an
    operator nor [EOF]. *)
Lemma parse_trailing body token rest e :
  Stream.isTokenStream (body ++ token :: rest) ->
  Token.type token <> AND -> Token.type token <> OR ->
  Token.type token <> EOF ->
  derives OrLevel (typesAndValues body) e ->
  fst (Parser.parse (Parser.new (body ++ token :: rest)))
  = Throw (fromToken (js "Unexpected token '" ++ Token.value token ++ js "'")
                     (Some token) (js "end of expression")).
Proof.
  intros Hstream Hand Hor Heof D.
  pose proof (expression_complete body token rest e Hstream Hand Hor D)
    as Hexp.
  set (p := Parser.new (body ++ token :: rest)) in *.
  pose proof (upcoming_skipped (length body) p body (token :: rest)
                eq_refl eq_refl) as Hq.
  assert (Hfirst : exists first rest', upcoming p = first :: rest' /\
                                       Token.type first <> EOF).
  { pose proof (derives_no_EOF _ _ _ D) as Hno.
    destruct body as [|first body'].
    - destruct (derives_not_nil _ _ _ D eq_refl).
    - exists first, (body' ++ token :: rest). split; [reflexivity|].
      inversion Hno; assumption. }
  destruct Hfirst as (first & rest' & Hfirst & Hne).
  unfold Parser.parse.
  rewrite (bind_Normal _ _ _ _ _ (hasReachedEOF_upcoming p first rest' Hfirst)).
  destruct (TokenType_eqb (Token.type first) EOF) eqn:E.
  { apply TokenType_eqb_eq in E. contradiction. }
  rewrite bind_get, (bind_Normal _ _ _ _ _ Hexp).
  rewrite (bind_Normal _ _ _ _ _ (hasReachedEOF_upcoming _ token rest Hq)).
  destruct (TokenType_eqb (Token.type token) EOF) eqn:E'.
  { apply TokenType_eqb_eq in E'. contradiction. }
  cbn [negb]. rewrite bind_get, peek_upcoming, Hq. reflexivity.
Qed.

End ParserGrammar.

(** X9: [parse] returns only what the grammar derives.  When
    [parse(input)] returns a tree, the tokens of the input before [EOF] are
    an [expression] of the grammar documented in parser.ts, and the tree is
    the one the grammar gives them: operators in their order, [and] and [or]
    nested to the left, every parenthesis matched. *)
Theorem parse_is_sound_for_the_grammar (input : jsstring) (e : Expression) :
  parse input = Normal e ->
  exists body eof,
    tokenize input = Normal (body ++ [eof]) /\
    derives OrLevel (typesAndValues body) e.
Proof.
  intros H.
  destruct (tokenize_returns input) as (body & eof & Htok & Hbody & _).
  exists body, eof. split; [exact Htok|].
  unfold parse in H. rewrite Htok in H.
  destruct (Parser.parse (Parser.new (body ++ [eof]))) as [r q] eqn:E.
  simpl in H. subst r.
  apply (ParserGrammar.parse_sound body eof e q Hbody E).
Qed.

Lemma parse_is_sound_for_the_grammar_witness :
  exists body eof,
    tokenize (js "not a and (b or c)") = Normal (body ++ [eof]) /\
    derives OrLevel (typesAndValues body)
      (And (Not (Identifier (js "a")))
           (Or (Identifier (js "b")) (Identifier (js "c")))).
Proof.
  apply (parse_is_sound_for_the_grammar (js "not a and (b or c)")).
  vm_compute. reflexivity.
Defined.

(** X10: [parse] returns all that the grammar derives.  When the tokens of
    the input before [EOF] are an [expression] of the grammar for a tree,
    [parse(input)] returns that tree: it does not fail and has the fuel it
    needs. *)
Theorem parse_is_complete_for_the_grammar (input : jsstring)
  (body : list Token.t) (eof : Token.t) (e : Expression) :
  tokenize input = Normal (body ++ [eof]) ->
  derives OrLevel (typesAndValues body) e ->
  parse input = Normal e.
Proof.
  intros Htok D.
  destruct (tokenize_returns input)
    as (body' & eof' & Htok' & Hbody & Heof & _).
  rewrite Htok in Htok'. injection Htok' as Heq.
  apply app_inj_tail in Heq as [<- <-].
  unfold parse. rewrite Htok.
  apply ParserGrammar.parse_complete; assumption.
Qed.

Lemma parse_is_complete_for_the_grammar_witness :
  parse (js "a OR b") = Normal (Or (Identifier (js "a")) (Identifier (js "b"))).
Proof.
  apply (parse_is_complete_for_the_grammar (js "a OR b")
           [ {| Token.type := IDENTIFIER; Token.value := js "a";
                Token.position := 0; Token.line := 1; Token.column := 1 |};
             {| Token.type := OR; Token.value := js "OR";
                Token.position := 2; Token.line := 1; Token.column := 3 |};
             {| Token.type := IDENTIFIER; Token.value := js "b";
                Token.position := 5; Token.line := 1; Token.column := 6 |} ]
           {| Token.type := EOF; Token.value := [];
              Token.position := 6; Token.line := 1; Token.column := 7 |}).
  - vm_compute. reflexivity.
  - apply (derives_or (js "OR") [(IDENTIFIER, js "a")] _
                      [(IDENTIFIER, js "b")] _).
    + apply derives_or_and, derives_and_not, derives_not_primary,
        derives_identifier.
    + apply derives_and_not, derives_not_primary, derives_identifier.
Defined.

(* ===================================================================== *)
(** ** Texts made of parts *)
(* ===================================================================== *)

Module Composition.
Import Text.

Lemma words_tokenize input :
  exists body eof,
    tokenize input = Normal (body ++ [eof]) /\
    Forall (fun token => Token.type token <> EOF) body /\
    Token.type eof = EOF /\
    typesAndValues body = words input.
Proof.
  destruct (tokenize_returns input)
    as (body & eof & H & Hbody & Heof & _ & Hscan).
  exists body, eof. repeat split; auto.
  unfold words. rewrite <- Hscan. unfold typesAndValues.
  rewrite map_app. simpl. rewrite removelast_last. reflexivity.
Qed.

(** [parse] returns the tree the grammar derives from the words of the
    input. *)
Lemma parse_words input e :
  parse input = Normal e <-> derives OrLevel (words input) e.
Proof.
  destruct (words_tokenize input) as (body & eof & Htok & Hbody & Heof & <-).
  unfold parse. rewrite Htok. split.
  - intros H.
    destruct (Parser.parse (Parser.new (body ++ [eof]))) as [r q] eqn:E.
    simpl in H. subst r.
    apply (ParserGrammar.parse_sound body eof e q Hbody E).
  - intros D. apply ParserGrammar.parse_complete; assumption.
Qed.

Lemma words_app pre post :
  closed pre = true \/ endsRun post = true ->
  words (pre ++ post) = words pre ++ words post.
Proof.
  intros Hsep. unfold words.
  rewrite TokenizerFacts.scan_app by (auto; lia).
  rewrite length_app.
  rewrite (TokenizerFacts.scan_bound (S (length pre + length post))
             (S (length pre)) pre) by lia.
  rewrite (TokenizerFacts.scan_bound (S (length pre + length post))
             (S (length post)) post) by lia.
  apply removelast_app. apply TokenizerFacts.scan_not_nil. lia.
Qed.

Lemma words_identifier p :
  tokenShape IDENTIFIER p = true -> words p = [(IDENTIFIER, p)].
Proof.
  unfold tokenShape. rewrite !andb_true_iff, !negb_true_iff.
  intros ((((Hne & Hrun) & Ha) & Ho) & Hn).
  destruct p as [|c run]; [discriminate|].
  assert (Hk : keywordOrIdentifier (c :: run) = IDENTIFIER).
  { unfold keywordOrIdentifier, Tokenizer.matchKeyword.
    rewrite Ha, Ho, Hn. reflexivity. }
  unfold words.
  pose proof (TokenizerFacts.scan_run (S (length (c :: run))) [] c run []) as H.
  rewrite app_nil_r in H. cbn [app] in H.
  rewrite H; [|simpl; lia|reflexivity|exact Hrun|reflexivity].
  rewrite Hk. reflexivity.
Qed.

Lemma words_shape s :
  Forall (fun token => tokenShape (fst token) (snd token) = true) (words s).
Proof.
  unfold words.
  pose proof (TokenShapes.scan_shape (S (length s)) s) as H.
  destruct (TokenizerFacts.scan_ends (S (length s)) s) as (front & E & _);
    [lia|].
  rewrite E in *. rewrite removelast_last.
  apply Forall_app in H. apply H.
Qed.

(** The identifiers of a derived tree are identifier tokens. *)
Lemma derives_patterns level ts e :
  derives level ts e ->
  Forall (fun token => tokenShape (fst token) (snd token) = true) ts ->
  Forall (fun p => tokenShape IDENTIFIER p = true) (patterns e).
Proof.
  induction 1; intros Hts; cbn [patterns]; auto.
  - inversion Hts; subst. constructor; [assumption|constructor].
  - inversion Hts as [|x l _ Htail]; subst.
    apply Forall_app in Htail. apply IHderives, Htail.
  - inversion Hts; subst. auto.
  - apply Forall_app in Hts as [H1 H2]. inversion H2; subst.
    apply Forall_app. split; auto.
  - apply Forall_app in Hts as [H1 H2]. inversion H2; subst.
    apply Forall_app. split; auto.
Qed.

Lemma derives_primary_or ts e : derives PrimaryLevel ts e -> derives OrLevel ts e.
Proof.
  intros D. apply derives_or_and, derives_and_not, derives_not_primary, D.
Qed.

Lemma words_parenthesised s :
  words (js "(" ++ s ++ js ")")
  = (LEFT_PAREN, js "(") :: words s ++ [(RIGHT_PAREN, js ")")].
Proof.
  rewrite words_app by (left; reflexivity).
  rewrite words_app by (right; reflexivity).
  reflexivity.
Qed.

Lemma parse_parenthesised s e :
  derives OrLevel (words s) e ->
  derives PrimaryLevel (words (js "(" ++ s ++ js ")")) e.
Proof.
  intros D. rewrite words_parenthesised. apply derives_parenthesized, D.
Qed.

Lemma parse_not s e :
  derives OrLevel (words s) e ->
  derives NotLevel (words (js "not " ++ js "(" ++ s ++ js ")")) (Not e).
Proof.
  intros D. rewrite words_app by (left; reflexivity).
  apply (derives_not (js "not")), derives_not_primary, parse_parenthesised, D.
Qed.

Lemma parse_and s1 s2 e1 e2 :
  derives OrLevel (words s1) e1 -> derives OrLevel (words s2) e2 ->
  derives AndLevel
    (words ((js "(" ++ s1 ++ js ")") ++ js " and " ++ js "(" ++ s2 ++ js ")"))
    (And e1 e2).
Proof.
  intros D1 D2.
  rewrite words_app by (right; reflexivity).
  rewrite (words_app (js " and ")) by (left; reflexivity).
  apply (derives_and (js "and")).
  - apply derives_and_not, derives_not_primary, parse_parenthesised, D1.
  - apply derives_not_primary, parse_parenthesised, D2.
Qed.

Lemma parse_or s1 s2 e1 e2 :
  derives OrLevel (words s1) e1 -> derives OrLevel (words s2) e2 ->
  derives OrLevel
    (words (s1 ++ js " or " ++ js "(" ++ s2 ++ js ")")) (Or e1 e2).
Proof.
  intros D1 D2.
  rewrite words_app by (right; reflexivity).
  rewrite (words_app (js " or ")) by (left; reflexivity).
  apply (derives_or (js "or")); [exact D1|].
  apply derives_and_not, derives_not_primary, parse_parenthesised, D2.
Qed.

Lemma parse_onto e :
  Forall (fun p => tokenShape IDENTIFIER p = true) (patterns e) ->
  exists input, derives OrLevel (words input) e.
Proof.
  induction e as [p|l IHl r IHr|l IHl r IHr|e IH]; cbn [patterns]; intros H.
  - exists p. inversion H; subst. rewrite words_identifier by assumption.
    apply derives_primary_or, derives_identifier.
  - apply Forall_app in H as [Hl Hr].
    destruct (IHl Hl) as (s1 & D1). destruct (IHr Hr) as (s2 & D2).
    eexists. apply derives_or_and. apply (parse_and s1 s2); eassumption.
  - apply Forall_app in H as [Hl Hr].
    destruct (IHl Hl) as (s1 & D1). destruct (IHr Hr) as (s2 & D2).
    eexists. apply (parse_or s1 s2); eassumption.
  - destruct (IH H) as (s & D).
    eexists. apply derives_or_and, derives_and_not.
    apply (parse_not s). exact D.
Qed.

End Composition.

(** X11: the tokens of a text made of two parts.  Where no identifier can
    run over the joint, because the first part is empty or ends with white
    space or a parenthesis, or the second part is empty or starts with one,
    the tokens of the whole text have the types and values of the tokens of
    the first part without its [EOF], followed by those of the second
    part. *)
Theorem tokenize_of_two_parts (pre post : jsstring) :
  Text.closed pre = true \/ Text.endsRun post = true ->
  exists body eof tokens whole,
    tokenize pre = Normal (body ++ [eof]) /\
    tokenize post = Normal tokens /\
    tokenize (pre ++ post) = Normal whole /\
    typesAndValues whole = typesAndValues body ++ typesAndValues tokens.
Proof.
  intros Hsep.
  destruct (tokenize_returns pre) as (body & eof & H1 & _ & _ & _ & S1).
  destruct (tokenize_returns post) as (b2 & e2 & H2 & _ & _ & _ & S2).
  destruct (tokenize_returns (pre ++ post))
    as (b3 & e3 & H3 & _ & _ & _ & S3).
  exists body, eof, (b2 ++ [e2]), (b3 ++ [e3]).
  repeat split; auto.
  rewrite S3, S2, TokenizerFacts.scan_app by (auto; lia).
  rewrite length_app.
  rewrite (TokenizerFacts.scan_bound (S (length pre + length post))
             (S (length pre)) pre) by lia.
  rewrite (TokenizerFacts.scan_bound (S (length pre + length post))
             (S (length post)) post) by lia.
  rewrite <- S1. unfold typesAndValues. rewrite map_app. simpl.
  rewrite removelast_last. reflexivity.
Qed.

Lemma tokenize_of_two_parts_witness :
  exists body eof tokens whole,
    tokenize (js "not(") = Normal (body ++ [eof]) /\
    tokenize (js "slow)") = Normal tokens /\
    tokenize (js "not(" ++ js "slow)") = Normal whole /\
    typesAndValues whole = typesAndValues body ++ typesAndValues tokens.
Proof.
  apply (tokenize_of_two_parts (js "not(") (js "slow)")).
  left. reflexivity.
Defined.

(** X12: parsing a text made of parsed parts.  When [s1] parses to [e1] and
    [s2] to [e2], then [s1] in parentheses parses to [e1] again, [not] before
    the parenthesised [s1] to [Not e1], the two parenthesised texts joined by
    [and] to [And e1 e2], and [s1 or (s2)] to [Or e1 e2]. *)
Theorem parse_of_parenthesised_parts (s1 s2 : jsstring) (e1 e2 : Expression) :
  parse s1 = Normal e1 -> parse s2 = Normal e2 ->
  parse (js "(" ++ s1 ++ js ")") = Normal e1 /\
  parse (js "not " ++ js "(" ++ s1 ++ js ")") = Normal (Not e1) /\
  parse ((js "(" ++ s1 ++ js ")") ++ js " and " ++ js "(" ++ s2 ++ js ")")
  = Normal (And e1 e2) /\
  parse (s1 ++ js " or " ++ js "(" ++ s2 ++ js ")") = Normal (Or e1 e2).
Proof.
  intros H1 H2.
  apply Composition.parse_words in H1, H2.
  repeat split; apply Composition.parse_words.
  - apply Composition.derives_primary_or, Composition.parse_parenthesised, H1.
  - apply derives_or_and, derives_and_not, Composition.parse_not, H1.
  - apply derives_or_and, Composition.parse_and; assumption.
  - apply Composition.parse_or; assumption.
Qed.

Lemma parse_of_parenthesised_parts_witness :
  parse (js "(" ++ js "a or b" ++ js ")")
  = Normal (Or (Identifier (js "a")) (Identifier (js "b"))) /\
  parse (js "not " ++ js "(" ++ js "a or b" ++ js ")")
  = Normal (Not (Or (Identifier (js "a")) (Identifier (js "b")))) /\
  parse ((js "(" ++ js "a or b" ++ js ")")
         ++ js " and " ++ js "(" ++ js "not c" ++ js ")")
  = Normal (And (Or (Identifier (js "a")) (Identifier (js "b")))
                (Not (Identifier (js "c")))) /\
  parse (js "a or b" ++ js " or " ++ js "(" ++ js "not c" ++ js ")")
  = Normal (Or (Or (Identifier (js "a")) (Identifier (js "b")))
               (Not (Identifier (js "c")))).
Proof.
  apply (parse_of_parenthesised_parts (js "a or b") (js "not c"));
    vm_compute; reflexivity.
Defined.

(** X13: the trees [parse] returns.  A tree is returned by [parse] for some
    input exactly when each of its identifiers has a pattern that an
    [IDENTIFIER] token can hold: not empty, without white space and
    parentheses, and none of [and], [or], [not] in any case. *)
Theorem parse_returns_the_trees_of_identifier_tokens (e : Expression) :
  (exists input, parse input = Normal e) <->
  Forall (fun p => tokenShape IDENTIFIER p = true) (patterns e).
Proof.
  split.
  - intros (input & H). apply Composition.parse_words in H.
    apply (Composition.derives_patterns _ _ _ H), Composition.words_shape.
  - intros H. destruct (Composition.parse_onto e H) as (input & D).
    exists input. apply Composition.parse_words, D.
Qed.

(* ===================================================================== *)
(** ** Parser: precedence and associativity *)
(* ===================================================================== *)

Module Precedence.
Import Text.

Lemma words_not s : words (js "not " ++ s) = (NOT, js "not") :: words s.
Proof. rewrite Composition.words_app by (left; reflexivity). reflexivity. Qed.

Lemma words_and pre s :
  words (pre ++ js " and " ++ s) = words pre ++ (AND, js "and") :: words s.
Proof.
  rewrite Composition.words_app by (right; reflexivity).
  rewrite (Composition.words_app (js " and ")) by (left; reflexivity).
  reflexivity.
Qed.

Lemma words_or pre s :
  words (pre ++ js " or " ++ s) = words pre ++ (OR, js "or") :: words s.
Proof.
  rewrite Composition.words_app by (right; reflexivity).
  rewrite (Composition.words_app (js " or ")) by (left; reflexivity).
  reflexivity.
Qed.

(** A factor is a [not_expr] of the grammar: every [not] takes what follows
    it. *)
Lemma factor_derives (f : Factor) :
  tokenShape IDENTIFIER (snd f) = true ->
  derives NotLevel (words (factorText f)) (factorTree f).
Proof.
  destruct f as [n name]. unfold factorText, factorTree. cbn [fst snd].
  intros Hname. induction n as [|n IH]; cbn [negateText negate].
  - rewrite (Composition.words_identifier name Hname).
    apply derives_not_primary, derives_identifier.
  - rewrite words_not. apply derives_not, IH.
Qed.

(** Each [and] takes the whole text before it as its left operand. *)
Lemma and_chain (rest : list Factor) : forall pre e,
  derives AndLevel (words pre) e ->
  Forall (fun f => tokenShape IDENTIFIER (snd f) = true) rest ->
  derives AndLevel
    (words (joined (js " and ") pre (map factorText rest)))
    (leftNested And e (map factorTree rest)).
Proof.
  unfold joined, leftNested.
  induction rest as [|f rest IH]; intros pre e D Hrest; cbn [map fold_left].
  { exact D. }
  inversion Hrest as [|? ? Hf Hrest']; subst.
  apply IH; [|exact Hrest'].
  rewrite words_and. apply derives_and; [exact D|].
  apply factor_derives, Hf.
Qed.

Lemma term_derives (t : Term) :
  Forall (fun f => tokenShape IDENTIFIER (snd f) = true) (factorsOf t) ->
  derives AndLevel (words (termText t)) (termTree t).
Proof.
  destruct t as [first rest]. unfold factorsOf, termText, termTree.
  cbn [fst snd]. intros H. inversion H as [|? ? Hfirst Hrest]; subst.
  apply and_chain; [|exact Hrest].
  apply derives_and_not, factor_derives, Hfirst.
Qed.

(** Each [or] takes the whole text before it as its left operand, and the
    term after it as its right one. *)
Lemma or_chain (rest : list Term) : forall pre e,
  derives OrLevel (words pre) e ->
  Forall (fun t =>
            Forall (fun f => tokenShape IDENTIFIER (snd f) = true)
                   (factorsOf t)) rest ->
  derives OrLevel
    (words (joined (js " or ") pre (map termText rest)))
    (leftNested Or e (map termTree rest)).
Proof.
  unfold joined, leftNested.
  induction rest as [|t rest IH]; intros pre e D Hrest; cbn [map fold_left].
  { exact D. }
  inversion Hrest as [|? ? Ht Hrest']; subst.
  apply IH; [|exact Hrest'].
  rewrite words_or. apply derives_or; [exact D|].
  apply term_derives, Ht.
Qed.

Lemma Forall_factors (P : jsstring -> Prop) (terms : list Term) :
  Forall P (map snd (concat (map factorsOf terms))) ->
  Forall (fun t => Forall (fun f : Factor => P (snd f)) (factorsOf t)) terms.
Proof.
  induction terms as [|t terms IH]; cbn [map concat]; intros H;
    [constructor|].
  rewrite map_app in H. apply Forall_app in H as [Ht Hterms].
  constructor; [|apply IH; exact Hterms].
  rewrite Forall_map in Ht. exact Ht.
Qed.

Lemma sum_derives (s : Sum) :
  Forall (fun name => tokenShape IDENTIFIER name = true) (identifiersOf s) ->
  derives OrLevel (words (sumText s)) (sumTree s).
Proof.
  destruct s as [first rest]. unfold identifiersOf, sumText, sumTree.
  cbn [fst snd]. intros H.
  apply Forall_factors in H. inversion H as [|? ? Hfirst Hrest]; subst.
  apply or_chain; [|exact Hrest].
  apply derives_or_and, term_derives, Hfirst.
Qed.

End Precedence.

(** C1: the parser gives [or] a lower precedence than [and], and [and] a
    lower one than [not]; [and] and [or] associate to the left and [not] to
    the right.  For every text without parentheses, that is terms joined by
    [or], each of factors joined by [and], each an identifier under any
    number of [not]s, [parse] returns the tree in which every [not] applies
    to what follows it, the factors of a term are nested to the left under
    [And], and the terms are nested to the left under [Or].  So
    [parse("a or b and c")] is [Or(a, And(b, c))], [parse("not a and b")] is
    [And(Not(a), b)], [parse("a and b and c")] is [And(And(a, b), c)],
    [parse("a or b or c")] is [Or(Or(a, b), c)] and [parse("not not a")] is
    [Not(Not(a))]. *)
Theorem parse_precedence_and_associativity :
  (forall s : Sum,
     Forall (fun name => tokenShape IDENTIFIER name = true)
            (identifiersOf s) ->
     parse (sumText s) = Normal (sumTree s)) /\
  parse (js "a or b and c")
  = Normal (Or (Identifier (js "a"))
               (And (Identifier (js "b")) (Identifier (js "c")))) /\
  parse (js "not a and b")
  = Normal (And (Not (Identifier (js "a"))) (Identifier (js "b"))) /\
  parse (js "a and b and c")
  = Normal (And (And (Identifier (js "a")) (Identifier (js "b")))
                (Identifier (js "c"))) /\
  parse (js "a or b or c")
  = Normal (Or (Or (Identifier (js "a")) (Identifier (js "b")))
               (Identifier (js "c"))) /\
  parse (js "not not a")
  = Normal (Not (Not (Identifier (js "a")))).
Proof.
  split.
  - intros s Hs. apply Composition.parse_words.
    apply Precedence.sum_derives, Hs.
  - repeat split; vm_compute; reflexivity.
Qed.

Lemma parse_precedence_and_associativity_witness :
  parse (js "a or b or not c and d and not not e")
  = Normal (Or (Or (Identifier (js "a")) (Identifier (js "b")))
               (And (And (Not (Identifier (js "c"))) (Identifier (js "d")))
                    (Not (Not (Identifier (js "e")))))).
Proof.
  apply (proj1 parse_precedence_and_associativity
           (((0, js "a"), []),
            [ ((0, js "b"), []);
              ((1, js "c"), [(0, js "d"); (2, js "e")]) ])).
  repeat constructor.
Defined.

(* ===================================================================== *)
(** ** Tokenizer: lines and columns *)
(* ===================================================================== *)

Module TokenLines.
Import Tokenizer Text.

Lemma last_app_ne {A} (pre s : list A) d :
  s <> [] -> last (pre ++ s) d = last s d.
Proof.
  intros Hs. induction pre as [|a pre IH]; [reflexivity|].
  simpl. destruct (pre ++ s) eqn:E; [|exact IH].
  apply app_eq_nil in E as [_ E]. contradiction.
Qed.

(** Counting over a text made of two parts, when the joint is not inside a
    carriage return and line feed. *)
Lemma betweenLines_tail x pre post :
  betweenLines (x :: pre) post -> betweenLines pre post.
Proof.
  intros [Hb|Hb]; [|right; exact Hb].
  left. destruct pre; [discriminate|exact Hb].
Qed.

Lemma lineAndColumn_app n : forall pre post l c,
  length pre <= n ->
  betweenLines pre post ->
  lineAndColumn (pre ++ post) l c
  = lineAndColumn post (fst (lineAndColumn pre l c))
                       (snd (lineAndColumn pre l c)).
Proof.
  induction n as [|n IH]; intros pre post l c Hn Hb.
  { destruct pre; [reflexivity|simpl in Hn; lia]. }
  destruct pre as [|x pre]; [reflexivity|]. simpl in Hn.
  pose proof (betweenLines_tail _ _ _ Hb) as Htail.
  assert (Hle : length pre <= n) by lia.
  destruct (N.eqb x LF) eqn:Hlf.
  { simpl. rewrite Hlf. exact (IH pre post (S l) 1 Hle Htail). }
  destruct (N.eqb x CR) eqn:Hcr.
  - destruct pre as [|y pre].
    + apply N.eqb_eq in Hcr. subst x.
      destruct Hb as [Hb|Hb]; [contradiction Hb; reflexivity|].
      destruct post as [|y post]; [reflexivity|].
      cbn [hd] in Hb. apply N.eqb_neq in Hb.
      simpl. rewrite Hb. reflexivity.
    + destruct (N.eqb y LF) eqn:Hy.
      * simpl. rewrite Hlf, Hcr, Hy.
        apply (IH pre post (S l) 1); [simpl in Hle; lia|].
        apply (betweenLines_tail _ _ _ Htail).
      * pose proof (IH (y :: pre) post (S l) 1 Hle Htail) as H.
        simpl. rewrite Hlf, Hcr, Hy. simpl in H. rewrite Hy in H. exact H.
  - simpl. rewrite Hlf, Hcr. exact (IH pre post l (S c) Hle Htail).
Qed.

Lemma isDelimiter_line c :
  isDelimiter c = false -> N.eqb c LF = false /\ N.eqb c CR = false.
Proof.
  unfold isDelimiter, isWhitespace. rewrite !TokenizerFacts.charIs_Some.
  destruct (N.eqb c LF), (N.eqb c CR); auto;
    rewrite ?orb_true_r; simpl; discriminate.
Qed.

(** An identifier run stays on its line. *)
Lemma lineAndColumn_run run : forall l c,
  isRun run = true -> lineAndColumn run l c = (l, c + length run).
Proof.
  induction run as [|x run IH]; intros l c Hrun; simpl.
  { f_equal. lia. }
  simpl in Hrun. apply andb_true_iff in Hrun as [Hx Hrun].
  apply negb_true_iff in Hx.
  destruct (isDelimiter_line x Hx) as [-> ->].
  rewrite IH by exact Hrun. f_equal. lia.
Qed.

Lemma last_run c run : isRun (c :: run) = true -> last (c :: run) 0%N <> CR.
Proof.
  revert c. induction run as [|x run IH]; intros c Hrun.
  - simpl in Hrun. rewrite andb_true_r in Hrun. apply negb_true_iff in Hrun.
    destruct (isDelimiter_line c Hrun) as [_ H].
    apply N.eqb_neq in H. exact H.
  - change (last (c :: x :: run) 0%N) with (last (x :: run) 0%N).
    apply IH. cbn [isRun forallb] in Hrun.
    apply andb_true_iff in Hrun as [_ Hrun]. exact Hrun.
Qed.

Lemma remaining_after t w rest :
  remaining t = w ++ rest ->
  skipn (position t + length w) (input t) = rest.
Proof.
  intros H. rewrite Nat.add_comm, <- skipn_skipn.
  fold (remaining t). rewrite H, skipn_app, Nat.sub_diag, skipn_all.
  reflexivity.
Qed.

Lemma consumed_after t w rest :
  inside t -> remaining t = w ++ rest ->
  firstn (position t + length w) (input t) = consumed t ++ w.
Proof.
  intros Hin H. unfold consumed.
  rewrite <- (firstn_skipn (position t) (input t)) at 1.
  fold (remaining t). rewrite H.
  assert (Hlen : length (firstn (position t) (input t)) = position t).
  { apply firstn_length_le. exact Hin. }
  rewrite <- Hlen at 1. rewrite firstn_app_2.
  rewrite firstn_app, Nat.sub_diag, firstn_all. simpl.
  rewrite app_nil_r. reflexivity.
Qed.

(** One move of the cursor over the text [w]. *)
Lemma located_step t t' w rest :
  located t ->
  remaining t = w ++ rest ->
  input t' = input t ->
  position t' = position t + length w ->
  lineAndColumn w (line t) (column t) = (line t', column t') ->
  last (consumed t ++ w) 0%N <> CR \/ hd 0%N rest <> LF ->
  located t'.
Proof.
  intros (Hin & Hlc & Hb) Hrem Hinput Hpos Hw Hb'.
  pose proof (TokenLayout.position_remaining t Hin) as Hp.
  rewrite Hrem, length_app in Hp.
  assert (Hcons : consumed t' = consumed t ++ w).
  { unfold consumed at 1. rewrite Hinput, Hpos.
    apply (consumed_after t w rest Hin Hrem). }
  assert (Hrest : remaining t' = rest).
  { unfold remaining. rewrite Hinput, Hpos.
    apply (remaining_after t w rest Hrem). }
  split; [unfold inside; rewrite Hinput, Hpos; lia|].
  split; [|rewrite Hcons, Hrest; exact Hb'].
  rewrite Hcons, <- Hw.
  rewrite (lineAndColumn_app (length (consumed t)) (consumed t) w 1 1
             (Nat.le_refl _)).
  - rewrite Hlc. reflexivity.
  - rewrite Hrem in Hb. destruct w as [|x w]; [|exact Hb].
    destruct Hb as [Hb|Hb]; [left; exact Hb|].
    simpl in Hw. injection Hw as Hl Hc.
    right. discriminate.
Qed.

Lemma skipWhitespace_loop_located fuel : forall t r t',
  skipWhitespace_loop fuel t = (r, t') -> located t -> located t'.
Proof.
  induction fuel as [|fuel IH]; intros t r t'; cbn [skipWhitespace_loop].
  { intros H; injection H as _ <-. auto. }
  rewrite bind_get.
  rewrite TokenizerFacts.ltb_remaining, TokenizerFacts.peek_remaining.
  destruct (remaining t) as [|c rest] eqn:Hrem.
  { intros H; injection H as _ <-. auto. }
  pose proof (TokenizerFacts.remaining_advance t c rest Hrem) as Hadv.
  pose proof (TokenizerFacts.advance_moved t c rest Hrem) as Hmoved.
  cbn [hd_error]. rewrite !TokenizerFacts.charIs_Some.
  destruct (N.eqb c SPACE || N.eqb c TAB) eqn:Hsp.
  { rewrite bind_modify. intros H Hloc. apply (IH _ _ _ H).
    apply (located_step t _ [c] rest Hloc Hrem).
    - apply TokenizerFacts.input_advance.
    - rewrite Hmoved. reflexivity.
    - rewrite Hmoved. cbn [moved line column lineAndColumn].
      apply orb_true_iff in Hsp as [E|E]; apply N.eqb_eq in E; subst c;
        simpl; rewrite Nat.add_1_r; reflexivity.
    - left. rewrite last_last.
      apply orb_true_iff in Hsp as [E|E]; apply N.eqb_eq in E; subst c;
        discriminate. }
  destruct (N.eqb c LF) eqn:Hlf.
  { rewrite !bind_modify. intros H Hloc. apply (IH _ _ _ H).
    apply (located_step t _ [c] rest Hloc Hrem).
    - cbn [newLine input]. apply TokenizerFacts.input_advance.
    - rewrite Hmoved. reflexivity.
    - rewrite Hmoved. cbn [newLine moved line column lineAndColumn].
      rewrite Hlf, Nat.add_1_r. reflexivity.
    - left. rewrite last_last. apply N.eqb_eq in Hlf. subst c. discriminate. }
  destruct (N.eqb c CR) eqn:Hcr; [|intros H; injection H as _ <-; auto].
  rewrite bind_modify, bind_get, TokenizerFacts.peek_remaining, Hadv.
  destruct (charIs (hd_error rest) LF) eqn:Hcrlf.
  - destruct rest as [|d rest]; [discriminate|].
    cbn [hd_error] in Hcrlf. rewrite TokenizerFacts.charIs_Some in Hcrlf.
    rewrite !bind_modify. intros H Hloc. apply (IH _ _ _ H).
    pose proof (TokenizerFacts.advance_moved (advance t) d rest Hadv)
      as Hmoved2.
    apply (located_step t _ [c; d] rest Hloc Hrem).
    + cbn [newLine input]. rewrite !TokenizerFacts.input_advance. reflexivity.
    + rewrite Hmoved2, Hmoved. cbn [newLine moved position length]. lia.
    + rewrite Hmoved2, Hmoved. cbn [newLine moved line column lineAndColumn].
      rewrite Hlf, Hcr, Hcrlf, Nat.add_1_r. reflexivity.
    + left. change [c; d] with ([c] ++ [d]). rewrite app_assoc, last_last.
      apply N.eqb_eq in Hcrlf. subst d. discriminate.
  - rewrite bind_ret, bind_modify. intros H Hloc. apply (IH _ _ _ H).
    apply (located_step t _ [c] rest Hloc Hrem).
    + cbn [newLine input]. apply TokenizerFacts.input_advance.
    + rewrite Hmoved. reflexivity.
    + rewrite Hmoved. cbn [newLine moved line column lineAndColumn].
      rewrite Hlf, Hcr, Nat.add_1_r. reflexivity.
    + right. destruct rest as [|d rest]; [discriminate|].
      cbn [hd_error] in Hcrlf. rewrite TokenizerFacts.charIs_Some in Hcrlf.
      apply N.eqb_neq in Hcrlf. exact Hcrlf.
Qed.

(** [#nextToken] gives its token the line and the column of the text before
    it. *)
Lemma nextToken_located t :
  located t ->
  exists token t',
    nextToken t = (Normal token, t') /\
    input t' = input t /\
    located t' /\
    scanToken (remaining t)
    = ((Token.type token, Token.value token), remaining t') /\
    Token.position token <= length (input t) /\
    lineAndColumn (firstn (Token.position token) (input t)) 1 1
    = (Token.line token, Token.column token).
Proof.
  intros Hloc.
  destruct (TokenizerFacts.nextToken_scanToken t)
    as (token & t' & Hnext & Hinput & Hscan).
  exists token, t'. split; [exact Hnext|]. split; [exact Hinput|].
  destruct (TokenizerFacts.skipWhitespace_drops t)
    as (t1 & Hskip & Hin1 & Hdrop).
  assert (Hloc1 : located t1).
  { revert Hskip. unfold skipWhitespace. rewrite bind_get.
    intros H. apply (skipWhitespace_loop_located _ _ _ _ H Hloc). }
  destruct Hloc1 as (Hinside1 & Hlc1 & Hb1).
  assert (Hloc1 : located t1) by (split; [|split]; assumption).
  unfold consumed in Hlc1. rewrite Hin1 in Hlc1.
  unfold inside in Hinside1. rewrite Hin1 in Hinside1.
  revert Hnext. unfold nextToken.
  rewrite (bind_Normal _ _ _ _ _ Hskip), bind_get.
  rewrite TokenizerFacts.leb_remaining, TokenizerFacts.peek_remaining.
  remember (remaining t1) as text eqn:Hrem.
  destruct text as [|c r]; symmetry in Hrem.
  { intros H; injection H as <- <-.
    split; [exact Hloc1|]. split; [exact Hscan|].
    split; [exact Hinside1|exact Hlc1]. }
  pose proof (TokenizerFacts.advance_moved t1 c r Hrem) as Hadv.
  cbn [hd_error]. rewrite !TokenizerFacts.charIs_Some.
  destruct (N.eqb c LPAREN) eqn:Hl.
  { rewrite bind_modify. intros H; injection H as <- <-.
    apply N.eqb_eq in Hl. subst c.
    split; [|split; [exact Hscan|split; [exact Hinside1|exact Hlc1]]].
    apply (located_step t1 _ [LPAREN] r Hloc1 Hrem).
    - apply TokenizerFacts.input_advance.
    - rewrite Hadv. reflexivity.
    - rewrite Hadv. cbn [moved line column]. simpl.
      rewrite Nat.add_1_r. reflexivity.
    - left. rewrite last_last. discriminate. }
  destruct (N.eqb c RPAREN) eqn:Hr.
  { rewrite bind_modify. intros H; injection H as <- <-.
    apply N.eqb_eq in Hr. subst c.
    split; [|split; [exact Hscan|split; [exact Hinside1|exact Hlc1]]].
    apply (located_step t1 _ [RPAREN] r Hloc1 Hrem).
    - apply TokenizerFacts.input_advance.
    - rewrite Hadv. reflexivity.
    - rewrite Hadv. cbn [moved line column]. simpl.
      rewrite Nat.add_1_r. reflexivity.
    - left. rewrite last_last. discriminate. }
  pose proof (TokenizerFacts.takeRun_spec (c :: r)) as Hspec.
  assert (Hc : isDelimiter c = false).
  { apply TokenizerFacts.isDelimiter_false; auto.
    apply (TokenizerFacts.dropWhitespace_head (remaining t) c r).
    rewrite <- Hdrop. reflexivity. }
  revert Hspec. cbn [takeRun]. rewrite Hc.
  destruct (takeRun r) as [run rest]. intros (Heq & Hrun & Hend).
  rewrite Heq in Hrem.
  rewrite (TokenizerFacts.readIdentifierOrKeyword_run c run t1 rest
             Hrem Hrun Hend).
  intros H; injection H as <- <-.
  cbn [Token.position Token.line Token.column].
  split; [|split; [exact Hscan|split; [exact Hinside1|exact Hlc1]]].
  apply (located_step t1 _ (c :: run) rest Hloc1 Hrem).
  - reflexivity.
  - reflexivity.
  - cbn [moved line column]. apply lineAndColumn_run. exact Hrun.
  - left. rewrite last_app_ne by discriminate. apply last_run. exact Hrun.
Qed.

Lemma tokenize_loop_located fuel : forall tokens t,
  located t ->
  length (remaining t) < fuel ->
  exists body eof t',
    tokenize_loop fuel tokens t = (Normal (tokens ++ body ++ [eof]), t') /\
    Forall (fun token =>
              Token.position token <= length (input t) /\
              lineAndColumn (firstn (Token.position token) (input t)) 1 1
              = (Token.line token, Token.column token))
           (body ++ [eof]).
Proof.
  induction fuel as [|fuel IH]; intros tokens t Hloc Hfuel; [lia|].
  cbn [tokenize_loop].
  destruct (nextToken_located t Hloc)
    as (token & t1 & Hnext & Hinput & Hloc1 & Hscan & Hpos & Hlc).
  rewrite (bind_Normal _ _ _ _ _ Hnext).
  destruct (TokenType_eqb (Token.type token) EOF) eqn:E; cbn [negb].
  - exists [], token, t1. simpl. split; [reflexivity|].
    constructor; [split; assumption|constructor].
  - assert (Hne : Token.type token <> EOF).
    { intros H. apply TokenType_eqb_eq in H. congruence. }
    pose proof (TokenizerFacts.scanToken_shorter _ _ _ Hscan Hne) as Hshort.
    destruct (IH (tokens ++ [token]) t1 Hloc1)
      as (body & eof & t' & Hloop & Hall); [lia|].
    exists (token :: body), eof, t'. rewrite Hloop, <- app_assoc.
    split; [reflexivity|]. rewrite Hinput in Hall.
    simpl. constructor; [split; assumption|exact Hall].
Qed.

Lemma Forall_prefix {A} (P : A -> Prop) n : forall l,
  Forall P l -> Forall P (firstn n l).
Proof.
  induction n as [|n IH]; intros l H; [constructor|].
  destruct H; simpl; constructor; auto.
Qed.

(** A text without line breaks is one line. *)
Lemma lineAndColumn_one_line s : forall l c,
  Forall (fun x => x <> LF /\ x <> CR) s ->
  lineAndColumn s l c = (l, c + length s).
Proof.
  induction s as [|x s IH]; intros l c Hs; simpl.
  { f_equal. lia. }
  inversion Hs as [|? ? [Hlf Hcr] Hs']; subst.
  apply N.eqb_neq in Hlf, Hcr. rewrite Hlf, Hcr.
  rewrite IH by exact Hs'. f_equal. lia.
Qed.

End TokenLines.

Lemma tokenize_located input :
  exists tokens,
    tokenize input = Normal tokens /\
    Forall (fun token =>
              Token.position token <= length input /\
              lineAndColumn (firstn (Token.position token) input) 1 1
              = (Token.line token, Token.column token))
           tokens.
Proof.
  unfold tokenize, Tokenizer.tokenize. rewrite bind_get.
  destruct (TokenLines.tokenize_loop_located
              (S (length (Tokenizer.input (Tokenizer.new input))
                  - Tokenizer.position (Tokenizer.new input)))
              [] (Tokenizer.new input))
    as (body & eof & t' & -> & Hall).
  { split; [unfold inside; simpl; lia|].
    split; [reflexivity|]. left. discriminate. }
  { unfold Text.remaining. simpl. lia. }
  exists (body ++ [eof]). simpl in *. auto.
Qed.


(** X14: the line and column of a token are those of its position.  Every
    token of an input carries the line and the column that counting from
    line 1, column 1 over the text before the token gives, where a line
    feed, a carriage return, and a carriage return followed by a line feed
    each end one line and any other code unit is one column. *)
Theorem tokens_carry_their_line_and_column (input : jsstring) :
  exists tokens,
    tokenize input = Normal tokens /\
    Forall (fun token =>
              lineAndColumn (firstn (Token.position token) input) 1 1
              = (Token.line token, Token.column token))
           tokens.
Proof.
  destruct (tokenize_located input) as (tokens & H & Hall).
  exists tokens. split; [exact H|].
  apply (Forall_impl _ (fun token Htoken => proj2 Htoken) Hall).
Qed.

(** X15: on an input without a line feed and a carriage return every token
    is on line 1, and its column is its position plus one. *)
Theorem tokens_of_one_line (input : jsstring) :
  Forall (fun c => c <> LF /\ c <> CR) input ->
  exists tokens,
    tokenize input = Normal tokens /\
    Forall (fun token =>
              Token.line token = 1 /\
              Token.column token = Token.position token + 1)
           tokens.
Proof.
  intros Hline.
  destruct (tokenize_located input) as (tokens & H & Hall).
  exists tokens. split; [exact H|].
  revert Hall. apply Forall_impl. intros token [Hpos Hlc].
  rewrite TokenLines.lineAndColumn_one_line in Hlc
    by (apply TokenLines.Forall_prefix; exact Hline).
  rewrite length_firstn, Nat.min_l in Hlc by exact Hpos.
  injection Hlc as <- <-. split; [reflexivity|lia].
Qed.

Lemma tokens_of_one_line_witness :
  exists tokens,
    tokenize (js "slow and") = Normal tokens /\
    Forall (fun token =>
              Token.line token = 1 /\
              Token.column token = Token.position token + 1)
           tokens.
Proof.
  apply (tokens_of_one_line (js "slow and")).
  repeat constructor; discriminate.
Defined.

Lemma tokenShape_value type value :
  tokenShape type value = true -> type <> EOF -> value <> [].
Proof.
  intros H Hne ->. destruct type; try discriminate H. contradiction.
Qed.

(** X16: what follows a complete expression must be an operator.  When the
    tokens of the input start with an expression of the grammar, and the
    token after it is not [AND], [OR] or [EOF] (so it is an identifier, a
    [NOT] or a parenthesis), [parse] throws the [ParseError]
    [Unexpected token '...'] with the text, position, line and column of
    that token, expecting the end of the expression. *)
Theorem parse_rejects_what_follows_an_expression (input : jsstring)
  (body : list Token.t) (token : Token.t) (rest : list Token.t)
  (e : Expression) :
  tokenize input = Normal (body ++ token :: rest) ->
  derives OrLevel (typesAndValues body) e ->
  Token.type token <> AND -> Token.type token <> OR ->
  Token.type token <> EOF ->
  parse input
  = Throw (ParseError
             (js "Unexpected token '" ++ Token.value token ++ js "'")
             (Token.position token) (Token.line token) (Token.column token)
             (js "end of expression") (Token.value token)).
Proof.
  intros Htok D Hand Hor Heof.
  destruct (tokenize_returns input)
    as (body' & eof' & Htok' & Hbody & Heof' & _).
  destruct (tokenize_shapes input) as (tokens & Htok'' & Hshape).
  rewrite Htok in Htok', Htok''.
  injection Htok' as Hstream. injection Htok'' as <-.
  apply Forall_app in Hshape as [_ Hshape].
  inversion Hshape as [|? ? Hvalue _]; subst.
  pose proof (tokenShape_value _ _ Hvalue Heof) as Hne.
  unfold parse. rewrite Htok.
  rewrite (ParserGrammar.parse_trailing body token rest e); auto.
  - unfold fromToken. destruct (Token.value token); [contradiction|].
    reflexivity.
  - exists body', eof'. auto.
Qed.

Lemma parse_rejects_what_follows_an_expression_witness :
  parse (js "slow (integration)")
  = Throw (ParseError (js "Unexpected token '" ++ js "(" ++ js "'")
             5 1 6 (js "end of expression") (js "(")).
Proof.
  apply (parse_rejects_what_follows_an_expression (js "slow (integration)")
           [ {| Token.type := IDENTIFIER; Token.value := js "slow";
                Token.position := 0; Token.line := 1; Token.column := 1 |} ]
           {| Token.type := LEFT_PAREN; Token.value := js "(";
              Token.position := 5; Token.line := 1; Token.column := 6 |}
           [ {| Token.type := IDENTIFIER; Token.value := js "integration";
                Token.position := 6; Token.line := 1; Token.column := 7 |};
             {| Token.type := RIGHT_PAREN; Token.value := js ")";
                Token.position := 17; Token.line := 1; Token.column := 18 |};
             {| Token.type := EOF; Token.value := [];
                Token.position := 18; Token.line := 1; Token.column := 19 |} ]
           (Identifier (js "slow"))).
  - vm_compute. reflexivity.
  - apply derives_or_and, derives_and_not, derives_not_primary,
      derives_identifier.
  - discriminate.
  - discriminate.
  - discriminate.
Defined.

(* ===================================================================== *)
(** ** Parser: what of a token the tree depends on *)
(* ===================================================================== *)

Module TokenMeaning.

(** The grammar looks at the types of the tokens and at the values of the
    identifiers. *)
Lemma derives_same level ts e :
  derives level ts e ->
  forall ts',
    Forall2 (fun a b : TokenType * jsstring =>
               fst a = fst b /\ (fst a = IDENTIFIER -> snd a = snd b)) ts ts' ->
    derives level ts' e.
Proof.
  induction 1; intros ts' Hsame.
  - inversion Hsame as [|a [type' value'] ? l' [Htype Hvalue] Hnil]; subst.
    inversion Hnil; subst. simpl in *. subst type'.
    rewrite <- (Hvalue eq_refl). constructor.
  - inversion Hsame as [|a [type' open'] ? l' [Htype _] Htail]; subst.
    apply Forall2_app_inv_l in Htail as (ts1' & l2' & H1 & H2 & ->).
    inversion H2 as [|b [type'' close'] ? l'' [Htype' _] Hnil]; subst.
    inversion Hnil; subst. simpl in *. subst type' type''.
    constructor. apply IHderives. exact H1.
  - inversion Hsame as [|a [type' keyword'] ? l' [Htype _] Htail]; subst.
    simpl in *. subst type'. constructor. apply IHderives. exact Htail.
  - apply derives_not_primary. apply IHderives. exact Hsame.
  - apply Forall2_app_inv_l in Hsame as (ts1' & l2' & H1 & H2 & ->).
    inversion H2 as [|a [type' keyword'] ? l' [Htype _] Htail]; subst.
    simpl in *. subst type'. constructor; auto.
  - apply derives_and_not. apply IHderives. exact Hsame.
  - apply Forall2_app_inv_l in Hsame as (ts1' & l2' & H1 & H2 & ->).
    inversion H2 as [|a [type' keyword'] ? l' [Htype _] Htail]; subst.
    simpl in *. subst type'. constructor; auto.
  - apply derives_or_and. apply IHderives. exact Hsame.
Qed.

Lemma Forall2_typesAndValues (R : TokenType * jsstring ->
                                  TokenType * jsstring -> Prop) ts1 :
  forall ts2,
  Forall2 (fun a b => R (Token.type a, Token.value a)
                        (Token.type b, Token.value b)) ts1 ts2 ->
  Forall2 R (typesAndValues ts1) (typesAndValues ts2).
Proof.
  induction ts1 as [|a ts1 IH]; intros ts2 H; inversion H; subst; simpl;
    constructor; auto.
Qed.

Lemma Forall2_body {A} (R : A -> A -> Prop) body1 : forall eof1 body2 eof2,
  Forall2 R (body1 ++ [eof1]) (body2 ++ [eof2]) -> Forall2 R body1 body2.
Proof.
  intros eof1 body2 eof2 H.
  apply Forall2_app_inv_l in H as (l1 & l2 & H1 & H2 & E).
  inversion H2 as [|? y ? l' _ Hnil]; subst. inversion Hnil; subst.
  apply app_inj_tail in E as [-> _]. exact H1.
Qed.

End TokenMeaning.

(** X17: the tree does not depend on the layout of the input or on the case
    of its keywords.  When the tokens of two inputs have, one by one, the
    same types, and the same values where they are identifiers, an
    expression [parse] returns for the one it returns for the other:
    positions, lines, columns and the spelling of [and], [or] and [not] play
    no part. *)
Theorem parse_depends_on_types_and_identifiers (input1 input2 : jsstring)
  (tokens1 tokens2 : list Token.t) (e : Expression) :
  tokenize input1 = Normal tokens1 ->
  tokenize input2 = Normal tokens2 ->
  Forall2 (fun a b =>
             Token.type a = Token.type b /\
             (Token.type a = IDENTIFIER -> Token.value a = Token.value b))
          tokens1 tokens2 ->
  parse input1 = Normal e ->
  parse input2 = Normal e.
Proof.
  intros H1 H2 Hsame Hparse.
  destruct (Composition.words_tokenize input1)
    as (body1 & eof1 & Htok1 & _ & _ & Hwords1).
  destruct (Composition.words_tokenize input2)
    as (body2 & eof2 & Htok2 & _ & _ & Hwords2).
  rewrite H1 in Htok1. injection Htok1 as ->.
  rewrite H2 in Htok2. injection Htok2 as ->.
  apply TokenMeaning.Forall2_body in Hsame.
  apply Composition.parse_words. apply Composition.parse_words in Hparse.
  apply (TokenMeaning.derives_same _ _ _ Hparse).
  rewrite <- Hwords1, <- Hwords2.
  apply (TokenMeaning.Forall2_typesAndValues
           (fun a b => fst a = fst b /\ (fst a = IDENTIFIER -> snd a = snd b))).
  exact Hsame.
Qed.

Lemma parse_depends_on_types_and_identifiers_witness :
  parse (js "NOT  (a Or b)")
  = Normal (Not (Or (Identifier (js "a")) (Identifier (js "b")))).
Proof.
  eapply (parse_depends_on_types_and_identifiers
            (js "not (a or b)") (js "NOT  (a Or b)")).
  - vm_compute. reflexivity.
  - vm_compute. reflexivity.
  - repeat constructor; discriminate.
  - vm_compute. reflexivity.
Defined.

Lemma tokenize_blank input :
  Text.allWhitespace input = true ->
  exists eof,
    tokenize input = Normal [eof] /\
    Token.type eof = EOF /\ Token.value eof = [] /\
    Token.position eof = length input /\
    lineAndColumn input 1 1 = (Token.line eof, Token.column eof).
Proof.
  intros Hblank.
  destruct (tokens_at_the_end input) as (body & eof & Htok & Hlast).
  destruct (tokenize_returns input)
    as (body' & eof' & Htok' & _ & Htype & Hvalue & Hscan).
  rewrite Htok in Htok'. injection Htok' as E.
  apply app_inj_tail in E as [<- <-].
  rewrite (TokenizerFacts.scan_allWhitespace _ _ Hblank) in Hscan.
  destruct body as [|token body];
    [|destruct body; discriminate Hscan].
  destruct (tokenize_located input) as (tokens & Htok'' & Hall).
  rewrite Htok in Htok''. injection Htok'' as <-.
  inversion Hall as [|? ? [_ Hlc] _]; subst.
  rewrite Hlast, firstn_all in Hlc.
  exists eof. simpl in Htok. auto.
Qed.

(** X18: an input of white space only is an empty expression.  [parse]
    throws the [ParseError] [Unexpected end of input: expected expression]
    at the end of the input: its position is the length of the input, its
    line and column are those after the whole input, and its [actual] is
    [EOF]. *)
Theorem parse_of_blank_input (input : jsstring) :
  Text.allWhitespace input = true ->
  exists line column,
    lineAndColumn input 1 1 = (line, column) /\
    parse input
    = Throw (ParseError (js "Unexpected end of input: expected expression")
               (length input) line column (js "expression") (js "EOF")).
Proof.
  intros Hblank.
  destruct (tokenize_blank input Hblank)
    as ([type value position line column] & Htok & Htype & Hvalue & Hpos & Hlc).
  simpl in *. subst type value position.
  exists line, column. split; [exact Hlc|].
  unfold parse. rewrite Htok. reflexivity.
Qed.

Lemma parse_of_blank_input_witness :
  exists line column,
    lineAndColumn (js "  ") 1 1 = (line, column) /\
    parse (js "  ")
    = Throw (ParseError (js "Unexpected end of input: expected expression")
               2 line column (js "expression") (js "EOF")).
Proof.
  apply (parse_of_blank_input (js "  ")). reflexivity.
Defined.
